(** * Confidential-transaction core of navio-core: a shallow embedding

    The development follows the C++ sources:

    - [src/blsct/wallet/txfactory_base.cpp]  ([TxFactoryBase]: [AddOutput],
      [AddInput], [BuildTx], [CreateTransaction]);
    - [src/blsct/wallet/verification.cpp]    ([blsct::VerifyTx]);
    - [src/blsct/range_proof/bulletproofs/range_proof_logic.cpp]
      ([RangeProofLogic]: [Prove], [VerifyProofs], [Verify], [RecoverAmounts]);
    - [src/wallet/walletdb.h]                ([CHDChain] and [CKeyMetadata]
      with their [SERIALIZE_METHODS]).

    Stateful code is written in explicit state-passing style, C++ exceptions
    are an error result, [std::map] is a key-sorted association list, and the
    unbounded loops ([while (true)], [goto retry]) take a fuel argument. *)

From Stdlib Require Import ZArith List Lia Bool String Ring Ring_theory.
From Stdlib Require Import DecimalString.
Import ListNotations.
Open Scope Z_scope.

(* ===================================================================== *)
(** * Machine integers                                                    *)
(* ===================================================================== *)

(** [CAmount] is [int64_t].  Values are kept as [Z]; every arithmetic
    operation of the source is followed by the two's-complement wrap-around
    of the 64-bit register that holds its result. *)
Module Int64.

Definition modulus : Z := 2 ^ 64.
Definition half_modulus : Z := 2 ^ 63.

(** Reduction into [-2^63, 2^63). *)
Definition wrap (z : Z) : Z := (z + half_modulus) mod modulus - half_modulus.

Definition add (a b : Z) : Z := wrap (a + b).
Definition sub (a b : Z) : Z := wrap (a - b).
Definition mul (a b : Z) : Z := wrap (a * b).

Definition in_range (z : Z) : Prop := - half_modulus <= z < half_modulus.

Lemma wrap_range z : in_range (wrap z).
Proof.
  unfold in_range, wrap, half_modulus, modulus.
  pose proof (Z.mod_pos_bound (z + 2 ^ 63) (2 ^ 64) ltac:(lia)). lia.
Qed.

Lemma wrap_small z : in_range z -> wrap z = z.
Proof.
  unfold in_range, wrap, half_modulus, modulus. intros H.
  rewrite Z.mod_small by lia. lia.
Qed.

(** [wrap z] and [z] are the same residue modulo [2^64]. *)
Lemma wrap_mod z : wrap z mod modulus = z mod modulus.
Proof.
  unfold wrap, half_modulus, modulus.
  rewrite Zminus_mod, Zmod_mod, <- Zminus_mod. f_equal. lia.
Qed.

Lemma wrap_eq_of_mod a b : a mod modulus = b mod modulus -> wrap a = wrap b.
Proof.
  intros H. unfold wrap.
  rewrite (Zplus_mod a), (Zplus_mod b), H. reflexivity.
Qed.

Lemma wrap_add_l a b : wrap (wrap a + b) = wrap (a + b).
Proof.
  apply wrap_eq_of_mod.
  rewrite Zplus_mod, wrap_mod, <- Zplus_mod. reflexivity.
Qed.

Lemma wrap_add_r a b : wrap (a + wrap b) = wrap (a + b).
Proof. rewrite Z.add_comm, wrap_add_l. f_equal. lia. Qed.

Lemma wrap_sub_l a b : wrap (wrap a - b) = wrap (a - b).
Proof.
  apply wrap_eq_of_mod.
  rewrite Zminus_mod, wrap_mod, <- Zminus_mod. reflexivity.
Qed.

Lemma wrap_wrap a : wrap (wrap a) = wrap a.
Proof. apply wrap_small, wrap_range. Qed.

(** Taking [o] and then [f] off [s] and adding them back gives [s] again,
    whatever wraps on the way. *)
Lemma sub_sub_add_back s o f :
  wrap (o + sub (sub (wrap s) o) f + f) = wrap s.
Proof.
  unfold sub.
  replace (o + wrap (wrap (wrap s - o) - f) + f)
    with (wrap (wrap (wrap s - o) - f) + (o + f)) by lia.
  rewrite wrap_add_l.
  replace (wrap (wrap s - o) - f + (o + f)) with (wrap (wrap s - o) + o) by lia.
  rewrite wrap_add_l, Z.sub_add. apply wrap_wrap.
Qed.

End Int64.

Arguments Int64.wrap : simpl never.
Arguments Int64.add : simpl never.
Arguments Int64.sub : simpl never.
Arguments Int64.mul : simpl never.

Definition CAmount : Type := Z.

(** [uint256] values (transaction hashes, token hashes) as naturals. *)
Definition uint256 : Type := N.

(* ===================================================================== *)
(** * Token identifiers and [std::map<TokenId, _>]                        *)
(* ===================================================================== *)

(** [TokenId] pairs the 256-bit token hash with a 64-bit sub-identifier; the
    default-constructed [TokenId()] is the chain's base token.  Keys are
    ordered on [token] first and [subid] second, which is the order in which
    a [std::map] keyed by [TokenId] is traversed. *)
Record TokenId : Type := mkTokenId { token : uint256; subid : N }.

Definition TokenId_default : TokenId := mkTokenId 0%N (2 ^ 64 - 1)%N.

Definition TokenId_compare (a b : TokenId) : comparison :=
  match N.compare (token a) (token b) with
  | Eq => N.compare (subid a) (subid b)
  | c => c
  end.

Definition TokenId_eqb (a b : TokenId) : bool :=
  match TokenId_compare a b with Eq => true | _ => false end.

Lemma TokenId_compare_eq a b : TokenId_compare a b = Eq <-> a = b.
Proof.
  unfold TokenId_compare. destruct a as [ta sa], b as [tb sb]; simpl.
  destruct (N.compare_spec ta tb) as [E | L | L].
  - rewrite N.compare_eq_iff. subst. split; [intros ->; reflexivity | congruence].
  - split; [discriminate | intros H; inversion H; lia].
  - split; [discriminate | intros H; inversion H; lia].
Qed.

Lemma TokenId_eqb_eq a b : TokenId_eqb a b = true <-> a = b.
Proof.
  unfold TokenId_eqb. rewrite <- TokenId_compare_eq.
  destruct (TokenId_compare a b); split; congruence.
Qed.

Lemma TokenId_eqb_refl a : TokenId_eqb a a = true.
Proof. apply TokenId_eqb_eq. reflexivity. Qed.

Lemma TokenId_eqb_neq a b : a <> b -> TokenId_eqb a b = false.
Proof.
  intros H. destruct (TokenId_eqb a b) eqn:E; [|reflexivity].
  apply TokenId_eqb_eq in E. contradiction.
Qed.

Lemma TokenId_compare_refl a : TokenId_compare a a = Eq.
Proof. apply TokenId_compare_eq. reflexivity. Qed.

Lemma TokenId_compare_lt a b :
  TokenId_compare a b = Lt <->
  (token a < token b \/ (token a = token b /\ subid a < subid b))%N.
Proof.
  unfold TokenId_compare.
  destruct (N.compare_spec (token a) (token b)) as [E | L | L].
  - rewrite N.compare_lt_iff. split; [intros H; right; split; assumption |].
    intros [H | [_ H]]; [lia | exact H].
  - split; [intros _; left; exact L | reflexivity].
  - split; [discriminate | intros [H | [H _]]; lia].
Qed.

Lemma TokenId_compare_gt a b :
  TokenId_compare a b = Gt <->
  (token b < token a \/ (token a = token b /\ subid b < subid a))%N.
Proof.
  unfold TokenId_compare.
  destruct (N.compare_spec (token a) (token b)) as [E | L | L].
  - rewrite N.compare_gt_iff. split; [intros H; right; split; assumption |].
    intros [H | [_ H]]; [lia | exact H].
  - split; [discriminate | intros [H | [H _]]; lia].
  - split; [intros _; left; exact L | reflexivity].
Qed.

Lemma TokenId_compare_lt_trans a b c :
  TokenId_compare a b = Lt -> TokenId_compare b c = Lt ->
  TokenId_compare a c = Lt.
Proof. rewrite !TokenId_compare_lt. lia. Qed.

Lemma TokenId_compare_gt_lt a b :
  TokenId_compare a b = Gt -> TokenId_compare b a = Lt.
Proof. rewrite TokenId_compare_gt, TokenId_compare_lt. lia. Qed.

(** [std::map<TokenId, V>]: entries sorted by key, at most one per key. *)
Module TokenMap.
Section WithValue.
Context {V : Type}.

Definition t : Type := list (TokenId * V).

Definition empty : t := [].

Fixpoint find (k : TokenId) (m : t) : option V :=
  match m with
  | [] => None
  | (k', v) :: rest => if TokenId_eqb k k' then Some v else find k rest
  end.

(** [m[k] = v]: overwrite the entry of [k] or insert it at its place. *)
Fixpoint set (k : TokenId) (v : V) (m : t) : t :=
  match m with
  | [] => [(k, v)]
  | (k', v') :: rest =>
      match TokenId_compare k k' with
      | Lt => (k, v) :: m
      | Eq => (k, v) :: rest
      | Gt => (k', v') :: set k v rest
      end
  end.

(** [count(k)] of the source, as a boolean. *)
Definition mem (k : TokenId) (m : t) : bool :=
  match find k m with Some _ => true | None => false end.

(** Reading through [operator[]] yields the value-initialised [d] for an
    absent key ... *)
Definition get (d : V) (k : TokenId) (m : t) : V :=
  match find k m with Some v => v | None => d end.

(** ... and leaves that entry behind in the map. *)
Definition touch (d : V) (k : TokenId) (m : t) : t :=
  match find k m with Some _ => m | None => set k d m end.

Lemma find_set_same k v m : find k (set k v m) = Some v.
Proof.
  induction m as [| [k' v'] rest IH]; simpl.
  - rewrite TokenId_eqb_refl. reflexivity.
  - destruct (TokenId_compare k k') eqn:C; simpl.
    + rewrite TokenId_eqb_refl. reflexivity.
    + rewrite TokenId_eqb_refl. reflexivity.
    + unfold TokenId_eqb at 1. rewrite C. exact IH.
Qed.

Lemma find_set_other k k1 v m :
  k1 <> k -> find k1 (set k v m) = find k1 m.
Proof.
  intros N. induction m as [| [k' v'] rest IH]; simpl.
  - rewrite TokenId_eqb_neq by assumption. reflexivity.
  - destruct (TokenId_compare k k') eqn:C; simpl.
    + apply TokenId_compare_eq in C. subst k'.
      rewrite TokenId_eqb_neq by assumption. reflexivity.
    + rewrite TokenId_eqb_neq by assumption. reflexivity.
    + rewrite IH. reflexivity.
Qed.

Lemma get_set_same d k v m : get d k (set k v m) = v.
Proof. unfold get. rewrite find_set_same. reflexivity. Qed.

Lemma get_set_other d k k1 v m :
  k1 <> k -> get d k1 (set k v m) = get d k1 m.
Proof. intros N. unfold get. rewrite find_set_other by assumption. reflexivity. Qed.

Lemma get_touch d k k1 m : get d k1 (touch d k m) = get d k1 m.
Proof.
  unfold touch. destruct (find k m) eqn:F; [reflexivity|].
  destruct (TokenId_eqb k1 k) eqn:E.
  - apply TokenId_eqb_eq in E. subst k1.
    rewrite get_set_same. unfold get. rewrite F. reflexivity.
  - apply get_set_other. intros ->. rewrite TokenId_eqb_refl in E. discriminate.
Qed.

Lemma find_touch_same d k m : find k (touch d k m) = Some (get d k m).
Proof.
  unfold touch, get. destruct (find k m) eqn:F.
  - exact F.
  - apply find_set_same.
Qed.

Lemma find_touch_other d k k1 m :
  k1 <> k -> find k1 (touch d k m) = find k1 m.
Proof.
  intros N. unfold touch. destruct (find k m); [reflexivity|].
  apply find_set_other. assumption.
Qed.

Lemma find_In k v m : find k m = Some v -> In (k, v) m.
Proof.
  induction m as [| [k' v'] rest IH]; simpl; [discriminate|].
  destruct (TokenId_eqb k k') eqn:E.
  - apply TokenId_eqb_eq in E. subst. intros H. inversion H. left. reflexivity.
  - intros H. right. apply IH. exact H.
Qed.

(** The invariant of a [std::map]: keys strictly increasing. *)
Inductive wf : t -> Prop :=
| wf_nil : wf []
| wf_cons k v m :
    (forall k' v', In (k', v') m -> TokenId_compare k k' = Lt) ->
    wf m -> wf ((k, v) :: m).

Lemma In_set x k v m : In x (set k v m) -> x = (k, v) \/ In x m.
Proof.
  induction m as [| [k' v'] rest IH]; simpl.
  - intros [H | []]. left. symmetry. exact H.
  - destruct (TokenId_compare k k'); simpl.
    + intros [H | H]; [left; symmetry; exact H | right; right; exact H].
    + intros [H | H]; [left; symmetry; exact H | right; exact H].
    + intros [H | H]; [right; left; exact H |].
      destruct (IH H) as [E | I]; [left; exact E | right; right; exact I].
Qed.

Lemma wf_set k v m : wf m -> wf (set k v m).
Proof.
  induction 1 as [| k' v' rest Hlt Hwf IH]; simpl.
  - constructor; [intros ? ? [] | constructor].
  - destruct (TokenId_compare k k') eqn:C.
    + apply TokenId_compare_eq in C. subst k'. constructor; assumption.
    + constructor.
      * intros k2 v2 [E | I].
        -- inversion E. subst. exact C.
        -- apply TokenId_compare_lt_trans with k'; [exact C | eapply Hlt; exact I].
      * constructor; assumption.
    + constructor; [| exact IH].
      intros k2 v2 I. apply In_set in I. destruct I as [E | I].
      * inversion E. subst. apply TokenId_compare_gt_lt. exact C.
      * eapply Hlt. exact I.
Qed.

Lemma wf_touch d k m : wf m -> wf (touch d k m).
Proof.
  intros H. unfold touch. destruct (find k m); [exact H | apply wf_set; exact H].
Qed.

Lemma wf_NoDup m : wf m -> NoDup (map fst m).
Proof.
  induction 1 as [| k v rest Hlt Hwf IH]; simpl; constructor; [| exact IH].
  intros I. apply in_map_iff in I. destruct I as [[k' v'] [E I]].
  simpl in E. subst k'. apply Hlt in I.
  rewrite TokenId_compare_refl in I. discriminate.
Qed.

Lemma find_touch_present d k k1 v m :
  find k1 m = Some v -> find k1 (touch d k m) = Some v.
Proof.
  intros F. destruct (TokenId_eqb k1 k) eqn:E.
  - apply TokenId_eqb_eq in E. subst k1. unfold touch. rewrite F. exact F.
  - rewrite find_touch_other; [exact F |].
    intros ->. rewrite TokenId_eqb_refl in E. discriminate.
Qed.

End WithValue.
Arguments t : clear implicits.
End TokenMap.


(* ===================================================================== *)
(** * Results of code that may throw or loop                              *)
(* ===================================================================== *)

(** A thrown [std::runtime_error] with its [what()] text. *)
Inductive Exception : Type := runtime_error (what : string).

(** The result of a call that either returns or throws. *)
Inductive Exc (A : Type) : Type :=
| Ok (a : A)
| Throw (e : Exception).
Arguments Ok {A} a.
Arguments Throw {A} e.

Definition bindExc {A B : Type} (c : Exc A) (k : A -> Exc B) : Exc B :=
  match c with
  | Ok a => k a
  | Throw e => Throw e
  end.

Declare Scope exc_scope.
Delimit Scope exc_scope with exc.
Notation "x <- c ;; k" := (bindExc c (fun x => k))
  (at level 61, c at next level, right associativity) : exc_scope.
Notation "' p <- c ;; k" := (bindExc c (fun x => let p := x in k))
  (at level 61, p pattern, c at next level, right associativity) : exc_scope.

Lemma bindExc_Ok {A B : Type} (c : Exc A) (k : A -> Exc B) (r : B) :
  bindExc c k = Ok r -> exists a, c = Ok a /\ k a = Ok r.
Proof.
  destruct c as [a | e]; cbn; [| discriminate].
  intros H. exists a. split; [reflexivity | exact H].
Qed.

(** A [for] loop whose body may throw. *)
Fixpoint foldExc {A S : Type} (body : S -> A -> Exc S) (l : list A) (s : S)
    : Exc S :=
  match l with
  | [] => Ok s
  | x :: rest => bindExc (body s x) (foldExc body rest)
  end.

(** [Elements<T>] is a vector; its [operator[]] checks the index and throws
    when it is out of range. *)
Definition index_error : Exception := runtime_error "index is out of range".

Definition Elements_at {A : Type} (l : list A) (i : nat) : Exc A :=
  match nth_error l i with
  | Some x => Ok x
  | None => Throw index_error
  end.

(** The result of a loop run with a bounded number of iterations. *)
Inductive Outcome (A : Type) : Type :=
| Done (a : A)
| OutOfFuel.
Arguments Done {A} a.
Arguments OutOfFuel {A}.

(* ===================================================================== *)
(** * The transaction factory                                             *)
(* ===================================================================== *)

Module TxFactory.

Inductive CreateTransactionType : Type :=
| NORMAL
| STAKED_COMMITMENT
| STAKED_COMMITMENT_UNSTAKE.

Definition CreateTransactionType_eqb (a b : CreateTransactionType) : bool :=
  match a, b with
  | NORMAL, NORMAL
  | STAKED_COMMITMENT, STAKED_COMMITMENT
  | STAKED_COMMITMENT_UNSTAKE, STAKED_COMMITMENT_UNSTAKE => true
  | _, _ => false
  end.

(** Scripts are byte strings; [CScript()] is empty and [CScript(OP_RETURN)]
    is the single opcode byte. *)
Definition CScript : Type := list Byte.byte.
Definition OP_RETURN : Byte.byte := Byte.x6a.

Record COutPoint : Type := mkCOutPoint { hash : uint256; n : Z }.

Record CTxIn : Type := mkCTxIn
  { prevout : COutPoint; scriptSig : CScript; nSequence : Z }.

Definition SEQUENCE_FINAL : Z := 0xffffffff.
Definition MAX_BIP125_RBF_SEQUENCE : Z := 0xfffffffd.

(** The cryptographic backend ([Mcl] scalars, BLS keys and signatures) and
    the transaction primitives are collaborators of [txfactory_base.cpp];
    they are taken as they are called. *)
Class Backend : Type :=
  { Scalar : Type;
    PrivateKey : Type;
    Signature : Type;
    CTxOut : Type;
    DoublePublicKey : Type;
    SubAddress : Type;
    (** The default-constructed [Scalar] and scalar arithmetic. *)
    Scalar_zero : Scalar;
    Scalar_add : Scalar -> Scalar -> Scalar;
    Scalar_sub : Scalar -> Scalar -> Scalar;
    (** The converting constructor [MclScalar(int64_t)] and [GetUint64()]. *)
    Scalar_of_int64 : CAmount -> Scalar;
    GetUint64 : Scalar -> Z;
    (** [Scalar::Rand()]: the [k]-th draw of the random source. *)
    Rand : nat -> Scalar;
    PrivateKey_of_Scalar : Scalar -> PrivateKey;
    Sign : PrivateKey -> uint256 -> Signature;
    SignBalance : PrivateKey -> Signature;
    Aggregate : list Signature -> Signature;
    Signature_default : Signature;
    CTxIn_GetHash : CTxIn -> uint256;
    CTxOut_GetHash : CTxOut -> uint256;
    (** [CTxOut{nValue, scriptPubKey}]. *)
    CTxOut_of : CAmount -> CScript -> CTxOut;
    GetKeys : SubAddress -> DoublePublicKey;
    CURRENT_VERSION : Z;
    BLSCT_MARKER : Z;
    BLSCT_DEFAULT_FEE : CAmount;
    GetTransactioOutputWeight : CTxOut -> Z;
    FormatMoney : CAmount -> string }.

Section WithBackend.

#[local] Set Default Proof Using "Type".

Context {backend : Backend}.

Record UnsignedInput : Type := mkUnsignedInput
  { ui_in : CTxIn;
    ui_value : Scalar;
    ui_gamma : Scalar;
    ui_sk : PrivateKey;
    ui_is_staked_commitment : bool }.

Record UnsignedOutput : Type := mkUnsignedOutput
  { uo_out : CTxOut;
    uo_blindingKey : Scalar;
    uo_gamma : Scalar }.

Record InputCandidates : Type := mkInputCandidates
  { ic_amount : CAmount;
    ic_gamma : Scalar;
    ic_spendingKey : PrivateKey;
    ic_token_id : TokenId;
    ic_outpoint : COutPoint;
    ic_is_staked_commitment : bool }.

Record Amounts : Type := mkAmounts
  { nFromInputs : CAmount;
    nFromOutputs : CAmount }.

Definition Amounts_zero : Amounts := mkAmounts 0 0.

Record CMutableTransaction : Type := mkCMutableTransaction
  { nVersion : Z;
    vin : list CTxIn;
    vout : list CTxOut;
    txSig : Signature }.

(** [CMutableTransaction()]. *)
Definition CMutableTransaction_default : CMutableTransaction :=
  mkCMutableTransaction CURRENT_VERSION [] [] Signature_default.

(** The output constructor and the weight function of a transaction. *)
Class Collaborators : Type :=
  { CreateOutput :
      DoublePublicKey -> CAmount -> string -> TokenId -> Scalar ->
      CreateTransactionType -> CAmount -> UnsignedOutput;
    GetTransactionWeight : CMutableTransaction -> Z }.

Context {collaborators : Collaborators}.

(** The members of [TxFactoryBase]. *)
Record TxFactoryBase : Type := mkTxFactoryBase
  { tx : CMutableTransaction;
    vOutputs : TokenMap.t (list UnsignedOutput);
    vInputs : TokenMap.t (list UnsignedInput);
    nAmounts : TokenMap.t Amounts }.

(** [blsct::TxFactoryBase()]. *)
Definition TxFactoryBase_new : TxFactoryBase :=
  mkTxFactoryBase CMutableTransaction_default TokenMap.empty TokenMap.empty
    TokenMap.empty.

(** ** [AddOutput] and [AddInput] *)

(** [AddOutput]; [rng] counts the draws already made from [Scalar::Rand()]. *)
Definition AddOutput (f : TxFactoryBase) (rng : nat)
    (destination : SubAddress) (nAmount : CAmount) (sMemo : string)
    (token_id : TokenId) (type : CreateTransactionType) (minStake : CAmount)
    (fSubtractFeeFromAmount : bool) : TxFactoryBase * nat :=
  let out0 :=
    CreateOutput (GetKeys destination) nAmount sMemo token_id (Rand rng)
      type minStake in
  let '(nFee, out, rng') :=
    if fSubtractFeeFromAmount then
      let nFee := Int64.mul (GetTransactioOutputWeight (uo_out out0))
                    BLSCT_DEFAULT_FEE in
      (nFee,
       CreateOutput (GetKeys destination) (Int64.sub nAmount nFee) sMemo
         token_id (Rand (S rng)) type minStake,
       S (S rng))
    else (0, out0, S rng) in
  let nAmounts1 :=
    if TokenMap.mem token_id (nAmounts f) then nAmounts f
    else TokenMap.set token_id Amounts_zero (nAmounts f) in
  let a := TokenMap.get Amounts_zero token_id nAmounts1 in
  let nAmounts2 :=
    TokenMap.set token_id
      (mkAmounts (nFromInputs a)
         (Int64.add (nFromOutputs a) (Int64.sub nAmount nFee)))
      (TokenMap.touch Amounts_zero token_id nAmounts1) in
  let vOutputs1 :=
    if TokenMap.mem token_id (vOutputs f) then vOutputs f
    else TokenMap.set token_id [] (vOutputs f) in
  let vOutputs2 :=
    TokenMap.set token_id (TokenMap.get [] token_id vOutputs1 ++ [out])
      (TokenMap.touch [] token_id vOutputs1) in
  (mkTxFactoryBase (tx f) vOutputs2 (vInputs f) nAmounts2, rng').

(** [AddInput]: the new factory state and the returned [bool]. *)
Definition AddInput (f : TxFactoryBase)
    (amount : CAmount) (gamma : Scalar) (spendingKey : PrivateKey)
    (token_id : TokenId) (outpoint : COutPoint) (stakedCommitment rbf : bool)
    : TxFactoryBase * bool :=
  let vInputs1 :=
    if TokenMap.mem token_id (vInputs f) then vInputs f
    else TokenMap.set token_id [] (vInputs f) in
  let input :=
    mkUnsignedInput
      (mkCTxIn outpoint []
         (if rbf then MAX_BIP125_RBF_SEQUENCE else SEQUENCE_FINAL))
      (Scalar_of_int64 amount) gamma spendingKey stakedCommitment in
  let vInputs2 :=
    TokenMap.set token_id (TokenMap.get [] token_id vInputs1 ++ [input])
      (TokenMap.touch [] token_id vInputs1) in
  let nAmounts1 :=
    if TokenMap.mem token_id (nAmounts f) then nAmounts f
    else TokenMap.set token_id Amounts_zero (nAmounts f) in
  let a := TokenMap.get Amounts_zero token_id nAmounts1 in
  let nAmounts2 :=
    TokenMap.set token_id
      (mkAmounts (Int64.add (nFromInputs a) amount) (nFromOutputs a))
      (TokenMap.touch Amounts_zero token_id nAmounts1) in
  (mkTxFactoryBase (tx f) (vOutputs f) vInputs2 nAmounts2, true).

(** ** [BuildTx] *)

(** Lines 65-71: every requested output enters [this->tx]; its blinding
    factor is subtracted from [outputGammas] and its signature recorded. *)
Definition emit_output
    (acc : CMutableTransaction * Scalar * list Signature)
    (o : UnsignedOutput) : CMutableTransaction * Scalar * list Signature :=
  let '(t, outputGammas, outputSignatures) := acc in
  (mkCMutableTransaction (nVersion t) (vin t) (vout t ++ [uo_out o]) (txSig t),
   Scalar_sub outputGammas (uo_gamma o),
   outputSignatures ++
     [Sign (PrivateKey_of_Scalar (uo_blindingKey o)) (CTxOut_GetHash (uo_out o))]).

Definition emit_outputs (outs : TokenMap.t (list UnsignedOutput))
    (acc : CMutableTransaction * Scalar * list Signature)
    : CMutableTransaction * Scalar * list Signature :=
  fold_left (fun acc entry => fold_left emit_output (snd entry) acc) outs acc.

(** The locals of one pass of the [while (true)] body while inputs are being
    selected, together with the [nAmounts] member, which [operator[]] may
    extend.  [ls_selected] is a specification-only trace of the inputs pushed
    into [tx.vin], in order, each with the token it was filed under. *)
Record LoopState : Type := mkLoopState
  { ls_tx : CMutableTransaction;
    ls_gammaAcc : Scalar;
    ls_txSigs : list Signature;
    ls_mapInputs : TokenMap.t CAmount;
    ls_nAmounts : TokenMap.t Amounts;
    ls_selected : list (TokenId * UnsignedInput) }.

(** The body of the inner [for] over one input that is not skipped; the
    boolean is the [break] test
    [mapInputs[k] > nAmounts[k].nFromOutputs + nFee]. *)
Definition take_input (nFee : CAmount) (k : TokenId) (i : UnsignedInput)
    (s : LoopState) : LoopState * bool :=
  let t := ls_tx s in
  let t' :=
    mkCMutableTransaction (nVersion t) (vin t ++ [ui_in i]) (vout t) (txSig t) in
  let gammaAcc' := Scalar_add (ls_gammaAcc s) (ui_gamma i) in
  let txSigs' := ls_txSigs s ++ [Sign (ui_sk i) (CTxIn_GetHash (ui_in i))] in
  let m1 := TokenMap.touch 0 k (ls_mapInputs s) in
  let m2 := if TokenMap.get 0 k m1 =? 0 then TokenMap.set k 0 m1 else m1 in
  let m3 :=
    TokenMap.set k (Int64.wrap (TokenMap.get 0 k m2 + GetUint64 (ui_value i)))
      m2 in
  let nAmounts' := TokenMap.touch Amounts_zero k (ls_nAmounts s) in
  let s' :=
    mkLoopState t' gammaAcc' txSigs' m3 nAmounts'
      (ls_selected s ++ [(k, i)]) in
  (s',
   TokenMap.get 0 k m3 >?
     Int64.add (nFromOutputs (TokenMap.get Amounts_zero k nAmounts')) nFee).

(** The inner [for] over the inputs of token [k].  The first pass
    ([staked = true]) skips the inputs that are not staked commitments, the
    second pass ([staked = false]) skips those that are. *)
Fixpoint consume_inputs (staked : bool) (nFee : CAmount) (k : TokenId)
    (ins : list UnsignedInput) (s : LoopState) : LoopState :=
  match ins with
  | [] => s
  | i :: rest =>
      if Bool.eqb (ui_is_staked_commitment i) staked then
        let '(s', stop) := take_input nFee k i s in
        if stop then s' else consume_inputs staked nFee k rest s'
      else consume_inputs staked nFee k rest s
  end.

(** The outer [for (auto& in_ : vInputs)]. *)
Definition select_inputs (staked : bool) (nFee : CAmount)
    (ins : TokenMap.t (list UnsignedInput)) (s : LoopState) : LoopState :=
  fold_left
    (fun s entry => consume_inputs staked nFee (fst entry) (snd entry) s)
    ins s.

(** [tokenFee]: the fee is charged to the base token only. *)
Definition tokenFee (k : TokenId) (nFee : CAmount) : CAmount :=
  if TokenId_eqb k TokenId_default then nFee else 0.

(** Lines 116-124: [None] is the [return std::nullopt]. *)
Fixpoint check_amounts (nFee : CAmount) (amounts : list (TokenId * Amounts))
    (mapInputs mapChange : TokenMap.t CAmount)
    : option (TokenMap.t CAmount * TokenMap.t CAmount) :=
  match amounts with
  | [] => Some (mapInputs, mapChange)
  | (k, a) :: rest =>
      let mapInputs' := TokenMap.touch 0 k mapInputs in
      let nFromInputs := TokenMap.get 0 k mapInputs' in
      if nFromInputs <? Int64.add (nFromOutputs a) (tokenFee k nFee) then None
      else
        check_amounts nFee rest mapInputs'
          (TokenMap.set k
             (Int64.sub (Int64.sub nFromInputs (nFromOutputs a))
                (tokenFee k nFee))
             mapChange)
  end.

(** Lines 126-135: one change output per token with a non-zero remainder. *)
Definition emit_change (changeDestination : DoublePublicKey)
    (minStake : CAmount)
    (acc : CMutableTransaction * Scalar * list Signature * nat)
    (change : TokenId * CAmount)
    : CMutableTransaction * Scalar * list Signature * nat :=
  let '(t, gammaAcc, txSigs, rng) := acc in
  if snd change =? 0 then acc
  else
    let changeOutput :=
      CreateOutput changeDestination (snd change) "Change" (fst change)
        (Rand rng) NORMAL minStake in
    (mkCMutableTransaction (nVersion t) (vin t)
       (vout t ++ [uo_out changeOutput]) (txSig t),
     Scalar_sub gammaAcc (uo_gamma changeOutput),
     txSigs ++
       [Sign (PrivateKey_of_Scalar (uo_blindingKey changeOutput))
          (CTxOut_GetHash (uo_out changeOutput))],
     S rng).

(** What a successful [BuildTx] leaves behind: the returned transaction and
    the last values of the locals that explain it. *)
Record Built : Type := mkBuilt
  { b_tx : CMutableTransaction;
    b_nFee : CAmount;
    b_mapInputs : TokenMap.t CAmount;
    b_mapChange : TokenMap.t CAmount;
    b_selected : list (TokenId * UnsignedInput);
    b_nAmounts : TokenMap.t Amounts }.

(** How one pass of the [while (true)] body ends. *)
Inductive IterResult : Type :=
| IterNullopt (nAmounts' : TokenMap.t Amounts)
| IterReturn (r : Built)
| IterAgain (nFee' : CAmount) (rng' : nat) (nAmounts' : TokenMap.t Amounts).

Definition fee_for (t : CMutableTransaction) : CAmount :=
  Int64.mul (GetTransactionWeight t) BLSCT_DEFAULT_FEE.

(** Lines 74-114 of a pass: the copy of [this->tx], and the selection of
    staked inputs (for the two staking types) and then of the others. *)
Definition BuildTx_select (this_tx : CMutableTransaction)
    (outputGammas : Scalar) (outputSignatures : list Signature)
    (ins : TokenMap.t (list UnsignedInput)) (type : CreateTransactionType)
    (amounts : TokenMap.t Amounts) (nFee : CAmount) : LoopState :=
  let t0 :=
    mkCMutableTransaction (Z.lor (nVersion this_tx) BLSCT_MARKER)
      (vin this_tx) (vout this_tx) (txSig this_tx) in
  let s0 := mkLoopState t0 outputGammas outputSignatures TokenMap.empty amounts [] in
  let s1 :=
    if CreateTransactionType_eqb type STAKED_COMMITMENT_UNSTAKE
       || CreateTransactionType_eqb type STAKED_COMMITMENT
    then select_inputs true nFee ins s0 else s0 in
  select_inputs false nFee ins s1.

(** One pass of the [while (true)] body (lines 74-147). *)
Definition BuildTx_iter (this_tx : CMutableTransaction)
    (outputGammas : Scalar) (outputSignatures : list Signature)
    (ins : TokenMap.t (list UnsignedInput))
    (changeDestination : DoublePublicKey) (minStake : CAmount)
    (type : CreateTransactionType)
    (amounts : TokenMap.t Amounts) (nFee : CAmount) (rng : nat)
    : IterResult :=
  let s2 :=
    BuildTx_select this_tx outputGammas outputSignatures ins type amounts nFee in
  match check_amounts nFee (ls_nAmounts s2) (ls_mapInputs s2) TokenMap.empty with
  | None => IterNullopt (ls_nAmounts s2)
  | Some (mapInputs, mapChange) =>
      let '(t, gammaAcc, txSigs, rng') :=
        fold_left (emit_change changeDestination minStake) mapChange
          (ls_tx s2, ls_gammaAcc s2, ls_txSigs s2, rng) in
      if nFee =? fee_for t then
        let fee_out := CTxOut_of nFee [OP_RETURN] in
        let txSigs' := txSigs ++ [SignBalance (PrivateKey_of_Scalar gammaAcc)] in
        IterReturn
          (mkBuilt
             (mkCMutableTransaction (nVersion t) (vin t) (vout t ++ [fee_out])
                (Aggregate txSigs'))
             nFee mapInputs mapChange (ls_selected s2) (ls_nAmounts s2))
      else IterAgain (fee_for t) rng' (ls_nAmounts s2)
  end.

(** The [while (true)] loop, run for at most [fuel] passes.  The result
    carries the final [nAmounts] member next to the returned optional. *)
Fixpoint BuildTx_loop (fuel : nat) (this_tx : CMutableTransaction)
    (outputGammas : Scalar) (outputSignatures : list Signature)
    (ins : TokenMap.t (list UnsignedInput))
    (changeDestination : DoublePublicKey) (minStake : CAmount)
    (type : CreateTransactionType)
    (amounts : TokenMap.t Amounts) (nFee : CAmount) (rng : nat)
    : Outcome (option Built * TokenMap.t Amounts) :=
  match fuel with
  | O => OutOfFuel
  | S fuel' =>
      match BuildTx_iter this_tx outputGammas outputSignatures ins
              changeDestination minStake type amounts nFee rng with
      | IterNullopt amounts' => Done (None, amounts')
      | IterReturn r => Done (Some r, b_nAmounts r)
      | IterAgain nFee' rng' amounts' =>
          BuildTx_loop fuel' this_tx outputGammas outputSignatures ins
            changeDestination minStake type amounts' nFee' rng'
      end
  end.

(** [BuildTx]: the optional result and the factory as the call leaves it. *)
Definition BuildTx (fuel : nat) (f : TxFactoryBase) (rng : nat)
    (changeDestination : DoublePublicKey) (minStake : CAmount)
    (type : CreateTransactionType) (fSubtractedFee : bool)
    : Outcome (option Built * TxFactoryBase) :=
  let '(this_tx, outputGammas, outputSignatures) :=
    emit_outputs (vOutputs f) (CMutableTransaction_default, Scalar_zero, []) in
  match BuildTx_loop fuel this_tx outputGammas outputSignatures (vInputs f)
          changeDestination minStake type (nAmounts f) 0 rng with
  | Done (r, amounts') =>
      Done (r, mkTxFactoryBase this_tx (vOutputs f) (vInputs f) amounts')
  | OutOfFuel => OutOfFuel
  end.


(** ** [CreateTransaction] *)

Definition minimum_stake_error (minStake : CAmount) : Exception :=
  runtime_error
    ("A minimum of " ++ FormatMoney minStake ++ " is required to stake")%string.

Definition not_enough_staked_error : Exception :=
  runtime_error "Not enough staked coins".

(** The call [tx.AddInput(output.amount, ..., output.is_staked_commitment)];
    the trailing [rbf] parameter takes its default. *)
Definition add_candidate (f : TxFactoryBase) (output : InputCandidates)
    : TxFactoryBase :=
  fst (AddInput f (ic_amount output) (ic_gamma output) (ic_spendingKey output)
         (ic_token_id output)
         (mkCOutPoint (hash (ic_outpoint output)) (n (ic_outpoint output)))
         (ic_is_staked_commitment output) false).

(** Body of the candidate loop of the [STAKED_COMMITMENT] branch. *)
Definition stake_candidate (acc : TxFactoryBase * CAmount)
    (output : InputCandidates) : TxFactoryBase * CAmount :=
  let '(f, inputFromStakedCommitments) := acc in
  (add_candidate f output,
   if ic_is_staked_commitment output
   then Int64.add inputFromStakedCommitments (ic_amount output)
   else inputFromStakedCommitments).

(** Body of the candidate loop of the other branch. *)
Definition other_candidate (type : CreateTransactionType)
    (acc : TxFactoryBase * CAmount) (output : InputCandidates)
    : TxFactoryBase * CAmount :=
  let '(f, inputFromStakedCommitments) := acc in
  if ic_is_staked_commitment output then
    if negb (CreateTransactionType_eqb type STAKED_COMMITMENT_UNSTAKE
             || CreateTransactionType_eqb type STAKED_COMMITMENT)
    then acc
    else (add_candidate f output,
          Int64.add inputFromStakedCommitments (ic_amount output))
  else (add_candidate f output, inputFromStakedCommitments).

(** [CreateTransaction]: it throws, or it returns what [BuildTx] returns. *)
Definition CreateTransaction (fuel : nat) (rng : nat)
    (inputCandidates : list InputCandidates)
    (changeDestination : DoublePublicKey) (destination : SubAddress)
    (nAmount : CAmount) (sMemo : string) (token_id : TokenId)
    (type : CreateTransactionType) (minStake : CAmount)
    : Exc (Outcome (option Built)) :=
  let finish (f : TxFactoryBase) (rng : nat) :=
    match BuildTx fuel f rng changeDestination minStake type false with
    | Done (r, _) => Done r
    | OutOfFuel => OutOfFuel
    end in
  if CreateTransactionType_eqb type STAKED_COMMITMENT then
    let '(f, inputFromStakedCommitments) :=
      fold_left stake_candidate inputCandidates (TxFactoryBase_new, 0) in
    if Int64.add nAmount inputFromStakedCommitments <? minStake then
      Throw (minimum_stake_error minStake)
    else
      let '(f, rng) :=
        AddOutput f rng destination
          (Int64.add nAmount inputFromStakedCommitments) sMemo token_id type
          minStake false in
      Ok (finish f rng)
  else
    let '(f, inputFromStakedCommitments) :=
      fold_left (other_candidate type) inputCandidates (TxFactoryBase_new, 0) in
    let rest := Int64.sub inputFromStakedCommitments nAmount in
    if CreateTransactionType_eqb type STAKED_COMMITMENT_UNSTAKE then
      if rest <? 0 then Throw not_enough_staked_error
      else if (rest <? minStake) && (rest >? 0) then
        Throw (minimum_stake_error minStake)
      else
        let '(f, rng) :=
          if rest >? 0 then
            AddOutput f rng destination rest sMemo token_id STAKED_COMMITMENT
              minStake false
          else (f, rng) in
        let '(f, rng) :=
          AddOutput f rng destination nAmount sMemo token_id type minStake
            false in
        Ok (finish f rng)
    else
      let '(f, rng) :=
        AddOutput f rng destination nAmount sMemo token_id type minStake false in
      Ok (finish f rng).

(* --------------------------------------------------------------------- *)
(** ** Properties of [AddInput]                                           *)
(* --------------------------------------------------------------------- *)

(** C10.  For every argument tuple [AddInput] returns [true]; afterwards the
    token's input list is the old list (empty if the token was unknown) with
    the new input appended, and the token's input total is the old total
    (zero if the token was unknown) plus the amount, as 64-bit integers.
    The token's output total is unchanged. *)
Theorem AddInput_appends_and_returns_true :
  forall (f : TxFactoryBase) (amount : CAmount) (gamma : Scalar)
         (spendingKey : PrivateKey) (token_id : TokenId)
         (outpoint : COutPoint) (stakedCommitment rbf : bool),
    let r := AddInput f amount gamma spendingKey token_id outpoint
               stakedCommitment rbf in
    snd r = true
    /\ TokenMap.find token_id (vInputs (fst r)) =
         Some (TokenMap.get [] token_id (vInputs f) ++
               [mkUnsignedInput
                  (mkCTxIn outpoint []
                     (if rbf then MAX_BIP125_RBF_SEQUENCE else SEQUENCE_FINAL))
                  (Scalar_of_int64 amount) gamma spendingKey stakedCommitment])
    /\ TokenMap.find token_id (nAmounts (fst r)) =
         Some (mkAmounts
                 (Int64.add
                    (nFromInputs (TokenMap.get Amounts_zero token_id (nAmounts f)))
                    amount)
                 (nFromOutputs (TokenMap.get Amounts_zero token_id (nAmounts f)))).
Proof.
  intros f amount gamma spendingKey token_id outpoint stakedCommitment rbf r.
  subst r. unfold AddInput. cbn [fst snd vInputs nAmounts].
  split; [reflexivity|]. split.
  - rewrite TokenMap.find_set_same. do 2 f_equal.
    unfold TokenMap.mem, TokenMap.get.
    destruct (TokenMap.find token_id (vInputs f)) eqn:F.
    + rewrite F. reflexivity.
    + rewrite TokenMap.find_set_same. reflexivity.
  - rewrite TokenMap.find_set_same. f_equal.
    unfold TokenMap.mem, TokenMap.get.
    destruct (TokenMap.find token_id (nAmounts f)) eqn:F.
    + rewrite F. reflexivity.
    + rewrite TokenMap.find_set_same. reflexivity.
Qed.

(** [AddInput] leaves the entries of every other token as they were. *)
Lemma AddInput_other_token :
  forall f amount gamma spendingKey token_id outpoint stakedCommitment rbf k,
    k <> token_id ->
    let f' := fst (AddInput f amount gamma spendingKey token_id outpoint
                     stakedCommitment rbf) in
    TokenMap.find k (vInputs f') = TokenMap.find k (vInputs f)
    /\ TokenMap.find k (nAmounts f') = TokenMap.find k (nAmounts f)
    /\ vOutputs f' = vOutputs f.
Proof.
  intros f amount gamma spendingKey token_id outpoint stakedCommitment rbf k N f'.
  subst f'. unfold AddInput. cbn [fst vInputs nAmounts vOutputs].
  repeat split.
  - rewrite TokenMap.find_set_other, TokenMap.find_touch_other by assumption.
    destruct (TokenMap.mem token_id (vInputs f)); [reflexivity|].
    apply TokenMap.find_set_other. assumption.
  - rewrite TokenMap.find_set_other, TokenMap.find_touch_other by assumption.
    destruct (TokenMap.mem token_id (nAmounts f)); [reflexivity|].
    apply TokenMap.find_set_other. assumption.
Qed.

(* --------------------------------------------------------------------- *)
(** ** Properties of [BuildTx]: the per-token balance                     *)
(* --------------------------------------------------------------------- *)

(** The sum of the values of the inputs selected for token [T]. *)
Fixpoint selected_value (T : TokenId) (sel : list (TokenId * UnsignedInput))
    : Z :=
  match sel with
  | [] => 0
  | (k, i) :: rest =>
      (if TokenId_eqb k T then GetUint64 (ui_value i) else 0)
      + selected_value T rest
  end.

Lemma selected_value_app T sel1 sel2 :
  selected_value T (sel1 ++ sel2) =
  selected_value T sel1 + selected_value T sel2.
Proof.
  induction sel1 as [| [k i] rest IH]; simpl; [reflexivity|].
  rewrite IH. lia.
Qed.

(** [mapInputs] holds, per token, the 64-bit sum of the selected values. *)
Definition sums_selected (s : LoopState) : Prop :=
  forall T,
    TokenMap.get 0 T (ls_mapInputs s) =
    Int64.wrap (selected_value T (ls_selected s)).

Lemma take_input_sums nFee k i s :
  sums_selected s -> sums_selected (fst (take_input nFee k i s)).
Proof.
  intros H T. unfold take_input. cbn [fst ls_mapInputs ls_selected].
  rewrite selected_value_app. cbn [selected_value].
  set (m1 := TokenMap.touch 0 k (ls_mapInputs s)).
  set (m2 := if TokenMap.get 0 k m1 =? 0 then TokenMap.set k 0 m1 else m1).
  assert (M2 : forall T', TokenMap.get 0 T' m2 = TokenMap.get 0 T' (ls_mapInputs s)).
  { intros T'. subst m2. rewrite <- (TokenMap.get_touch 0 k T' (ls_mapInputs s)).
    fold m1. destruct (TokenMap.get 0 k m1 =? 0) eqn:Z0; [| reflexivity].
    apply Z.eqb_eq in Z0.
    destruct (TokenId_eqb T' k) eqn:E.
    - apply TokenId_eqb_eq in E. subst T'.
      rewrite TokenMap.get_set_same. symmetry. exact Z0.
    - apply TokenMap.get_set_other. intros ->.
      rewrite TokenId_eqb_refl in E. discriminate. }
  destruct (TokenId_eqb k T) eqn:E.
  - apply TokenId_eqb_eq in E. subst T.
    rewrite TokenMap.get_set_same, M2, H, Int64.wrap_add_l.
    f_equal. lia.
  - rewrite TokenMap.get_set_other, M2, H.
    + f_equal. lia.
    + intros ->. rewrite TokenId_eqb_refl in E. discriminate.
Qed.

(** A property kept by every [take_input] on an input of the factory is kept
    by the whole selection. *)
Lemma select_inputs_preserves (P : LoopState -> Prop) staked nFee ins :
  (forall k l i s, In (k, l) ins -> In i l -> P s ->
                   P (fst (take_input nFee k i s))) ->
  forall s, P s -> P (select_inputs staked nFee ins s).
Proof.
  unfold select_inputs. induction ins as [| [k l] rest IH]; intros Hstep s Hs.
  - exact Hs.
  - cbn [fold_left fst snd]. apply IH.
    + intros k' l' i s' I. apply Hstep. right. exact I.
    + assert (Hk : forall i s', In i l -> P s' -> P (fst (take_input nFee k i s'))).
      { intros i s' I. apply (Hstep k l). left. reflexivity. exact I. }
      clear Hstep IH. revert s Hs.
      induction l as [| i l' IHl]; intros s Hs; cbn [consume_inputs];
        [exact Hs|].
      destruct (Bool.eqb (ui_is_staked_commitment i) staked).
      * specialize (Hk i s (or_introl eq_refl) Hs) as Hi.
        destruct (take_input nFee k i s) as [s' stop]. cbn [fst] in Hi.
        destruct stop; [exact Hi|].
        apply IHl; [| exact Hi].
        intros i' s'' I. apply Hk. right. exact I.
      * apply IHl; [| exact Hs].
        intros i' s'' I. apply Hk. right. exact I.
Qed.

(** What the selection of one pass maintains, relative to the factory's
    inputs [ins] and to the [nAmounts] the pass started from. *)
Definition selection_inv (ins : TokenMap.t (list UnsignedInput))
    (amounts0 : TokenMap.t Amounts) (vin0 : list CTxIn) (s : LoopState)
    : Prop :=
  sums_selected s
  /\ TokenMap.wf (ls_nAmounts s)
  /\ (forall T a, TokenMap.find T amounts0 = Some a ->
                  TokenMap.find T (ls_nAmounts s) = Some a)
  /\ vin (ls_tx s) = vin0 ++ map (fun p => ui_in (snd p)) (ls_selected s)
  /\ (forall T i, In (T, i) (ls_selected s) ->
                  exists l, In (T, l) ins /\ In i l).

Lemma take_input_selection_inv ins amounts0 vin0 nFee k l i s :
  In (k, l) ins -> In i l ->
  selection_inv ins amounts0 vin0 s ->
  selection_inv ins amounts0 vin0 (fst (take_input nFee k i s)).
Proof.
  intros Ik Ii (Hsum & Hwf & Hkeep & Hvin & Hfrom).
  split; [apply take_input_sums; exact Hsum|].
  unfold take_input. cbn [fst ls_nAmounts ls_tx ls_selected vin].
  split; [apply TokenMap.wf_touch; exact Hwf|].
  split; [intros T a F; apply TokenMap.find_touch_present, Hkeep, F|].
  split.
  - rewrite Hvin, map_app, <- app_assoc. reflexivity.
  - intros T i' I. apply in_app_or in I. destruct I as [I | [E | []]].
    + apply Hfrom. exact I.
    + inversion E. subst. exists l. split; assumption.
Qed.

Lemma select_inputs_selection_inv ins amounts0 vin0 staked nFee s :
  selection_inv ins amounts0 vin0 s ->
  selection_inv ins amounts0 vin0 (select_inputs staked nFee ins s).
Proof.
  apply select_inputs_preserves.
  intros k l i s'. apply take_input_selection_inv.
Qed.

Lemma BuildTx_select_inv this_tx og os ins type amounts nFee :
  TokenMap.wf amounts ->
  selection_inv ins amounts (vin this_tx)
    (BuildTx_select this_tx og os ins type amounts nFee).
Proof.
  intros Hwf. unfold BuildTx_select.
  set (t0 := mkCMutableTransaction _ _ _ _).
  set (s0 := mkLoopState t0 og os TokenMap.empty amounts []).
  assert (I0 : selection_inv ins amounts (vin this_tx) s0).
  { split; [intros T; reflexivity|].
    split; [exact Hwf|].
    split; [intros T a F; exact F|].
    split; [simpl; rewrite app_nil_r; reflexivity|].
    intros T i []. }
  apply select_inputs_selection_inv.
  destruct (_ || _); [apply select_inputs_selection_inv|]; exact I0.
Qed.

(** The amount check: it only reads [mapInputs], and it files under every
    key of [nAmounts] the remainder of that token. *)
Lemma check_amounts_spec nFee :
  forall l mi mc mi' mc',
    NoDup (map fst l) ->
    check_amounts nFee l mi mc = Some (mi', mc') ->
    (forall T, TokenMap.get 0 T mi' = TokenMap.get 0 T mi)
    /\ (forall T a, In (T, a) l ->
          (TokenMap.get 0 T mi <? Int64.add (nFromOutputs a) (tokenFee T nFee))
            = false
          /\ TokenMap.find T mc' =
               Some (Int64.sub (Int64.sub (TokenMap.get 0 T mi) (nFromOutputs a))
                       (tokenFee T nFee)))
    /\ (forall T, ~ In T (map fst l) -> TokenMap.find T mc' = TokenMap.find T mc).
Proof.
  induction l as [| [k a] rest IH]; intros mi mc mi' mc' ND C; simpl in C.
  - inversion C. subst. split; [reflexivity|]. split; [intros T a []|reflexivity].
  - inversion ND as [| ? ? Nk NDrest]. subst.
    rewrite TokenMap.get_touch in C.
    destruct (TokenMap.get 0 k mi <? Int64.add (nFromOutputs a) (tokenFee k nFee))
      eqn:Lt; [discriminate|].
    apply IH in C; [| exact NDrest].
    destruct C as (Hget & Hin & Hout).
    split; [intros T; rewrite Hget; apply TokenMap.get_touch|].
    split.
    + intros T a' [E | I].
      * inversion E. subst. split; [exact Lt|].
        rewrite Hout by exact Nk. apply TokenMap.find_set_same.
      * destruct (Hin T a' I) as [H1 H2].
        rewrite TokenMap.get_touch in H1, H2. split; assumption.
    + intros T NI. simpl in NI.
      rewrite Hout by (intros I; apply NI; right; exact I).
      apply TokenMap.find_set_other. intros ->. apply NI. left. reflexivity.
Qed.

Lemma emit_change_keeps_inputs changeDestination minStake l :
  forall t g sg rng t' g' sg' rng',
    fold_left (emit_change changeDestination minStake) l (t, g, sg, rng) =
      (t', g', sg', rng') ->
    vin t' = vin t /\ nVersion t' = nVersion t.
Proof.
  induction l as [| [k c] rest IH]; intros t g sg rng t' g' sg' rng' F;
    cbn [fold_left] in F.
  - inversion F. subst. split; reflexivity.
  - destruct (emit_change changeDestination minStake (t, g, sg, rng) (k, c))
      as [[[t1 g1] sg1] rng1] eqn:E.
    apply IH in F. destruct F as [F1 F2]. rewrite F1, F2.
    unfold emit_change in E. cbn [fst snd] in E.
    destruct (c =? 0); inversion E; subst; split; reflexivity.
Qed.

Lemma emit_outputs_keeps_inputs outs :
  forall acc, vin (fst (fst (emit_outputs outs acc))) = vin (fst (fst acc)).
Proof.
  unfold emit_outputs. induction outs as [| [k l] rest IH]; intros acc; simpl.
  - reflexivity.
  - rewrite IH. clear IH. revert acc.
    induction l as [| o l' IHl]; intros acc; simpl; [reflexivity|].
    rewrite IHl. destruct acc as [[t g] sg]. reflexivity.
Qed.

(** The facts about one returning pass. *)
Lemma BuildTx_iter_return this_tx og os ins cd minStake type amounts nFee rng r :
  TokenMap.wf amounts ->
  BuildTx_iter this_tx og os ins cd minStake type amounts nFee rng = IterReturn r ->
  b_nFee r = nFee
  /\ vin (b_tx r) = vin this_tx ++ map (fun p => ui_in (snd p)) (b_selected r)
  /\ (forall T i, In (T, i) (b_selected r) -> exists l, In (T, l) ins /\ In i l)
  /\ (forall T, TokenMap.get 0 T (b_mapInputs r) =
                Int64.wrap (selected_value T (b_selected r)))
  /\ (forall T a, TokenMap.find T amounts = Some a ->
        (TokenMap.get 0 T (b_mapInputs r) <?
           Int64.add (nFromOutputs a) (tokenFee T nFee)) = false
        /\ TokenMap.find T (b_mapChange r) =
             Some (Int64.sub
                     (Int64.sub (TokenMap.get 0 T (b_mapInputs r)) (nFromOutputs a))
                     (tokenFee T nFee))).
Proof.
  intros Hwf. unfold BuildTx_iter.
  pose proof (BuildTx_select_inv this_tx og os ins type amounts nFee Hwf) as I2.
  set (s2 := BuildTx_select this_tx og os ins type amounts nFee) in *.
  destruct I2 as (Hsum & Hwf2 & Hkeep & Hvin & Hfrom).
  destruct (check_amounts nFee (ls_nAmounts s2) (ls_mapInputs s2) TokenMap.empty)
    as [[mapInputs mapChange] |] eqn:C; [| discriminate].
  apply check_amounts_spec in C; [| apply TokenMap.wf_NoDup; exact Hwf2].
  destruct C as (Hget & Hin & _).
  destruct (fold_left _ mapChange _) as [[[t g] sg] rng'] eqn:F.
  apply emit_change_keeps_inputs in F. destruct F as [Fvin _].
  destruct (nFee =? fee_for t); [| discriminate].
  intros R. inversion R. subst r. clear R. cbn.
  split; [reflexivity|].
  split; [rewrite Fvin; exact Hvin|].
  split; [exact Hfrom|].
  split; [intros T; rewrite Hget; apply Hsum|].
  intros T a Fa. apply Hkeep, TokenMap.find_In, Hin in Fa.
  rewrite !Hget. exact Fa.
Qed.

(** The [nAmounts] a pass leaves behind. *)
Definition iter_amounts (res : IterResult) : TokenMap.t Amounts :=
  match res with
  | IterNullopt amounts' => amounts'
  | IterReturn r => b_nAmounts r
  | IterAgain _ _ amounts' => amounts'
  end.

(** A pass may add zero entries to [nAmounts]; it changes no entry. *)
Lemma BuildTx_iter_amounts this_tx og os ins cd minStake type amounts nFee rng :
  TokenMap.wf amounts ->
  TokenMap.wf
    (iter_amounts
       (BuildTx_iter this_tx og os ins cd minStake type amounts nFee rng))
  /\ (forall T a, TokenMap.find T amounts = Some a ->
        TokenMap.find T
          (iter_amounts
             (BuildTx_iter this_tx og os ins cd minStake type amounts nFee rng))
        = Some a).
Proof.
  intros Hwf. unfold BuildTx_iter.
  pose proof (BuildTx_select_inv this_tx og os ins type amounts nFee Hwf) as I2.
  set (s2 := BuildTx_select this_tx og os ins type amounts nFee) in *.
  destruct I2 as (_ & Hwf2 & Hkeep & _ & _).
  destruct (check_amounts nFee (ls_nAmounts s2) (ls_mapInputs s2) TokenMap.empty)
    as [[mapInputs mapChange] |]; [| split; assumption].
  destruct (fold_left _ mapChange _) as [[[t g] sg] rng'].
  destruct (nFee =? fee_for t); split; assumption.
Qed.

(** A loop that returns a transaction returned it from one of its passes,
    entered with a superset of the entries of the initial [nAmounts]. *)
Lemma BuildTx_loop_return this_tx og os ins cd minStake type amounts0 :
  forall fuel amounts nFee rng r amounts',
    TokenMap.wf amounts ->
    (forall T a, TokenMap.find T amounts0 = Some a ->
                 TokenMap.find T amounts = Some a) ->
    BuildTx_loop fuel this_tx og os ins cd minStake type amounts nFee rng =
      Done (Some r, amounts') ->
    exists amounts1 nFee1 rng1,
      TokenMap.wf amounts1
      /\ (forall T a, TokenMap.find T amounts0 = Some a ->
                      TokenMap.find T amounts1 = Some a)
      /\ BuildTx_iter this_tx og os ins cd minStake type amounts1 nFee1 rng1 =
           IterReturn r.
Proof.
  induction fuel as [| fuel IH]; intros amounts nFee rng r amounts' Hwf Hkeep L;
    cbn [BuildTx_loop] in L; [discriminate|].
  pose proof (BuildTx_iter_amounts this_tx og os ins cd minStake type amounts
                nFee rng Hwf) as [Hwf' Hkeep'].
  destruct (BuildTx_iter this_tx og os ins cd minStake type amounts nFee rng)
    as [am | r1 | nFee' rng' am] eqn:It.
  - discriminate.
  - inversion L. subst. exists amounts, nFee, rng. repeat split; assumption.
  - cbn [iter_amounts] in Hwf', Hkeep'.
    eapply IH; [exact Hwf' | | exact L].
    intros T a F. apply Hkeep', Hkeep, F.
Qed.

(** C1 (amended).  After a successful [BuildTx], for every token [T] of the
    factory's accumulator the sum of the input values consumed for [T]
    equals the output total requested for [T], plus the change computed for
    [T], plus the fee when [T] is the base token -- as 64-bit integers, and
    as plain integers when no 64-bit sum overflows, in which case the change
    is not negative.  The consumed inputs are those of [tx.vin], each taken
    from the inputs the factory holds under its token. *)
Theorem BuildTx_balance_with_change :
  forall (fuel : nat) (f : TxFactoryBase) (rng : nat)
         (changeDestination : DoublePublicKey) (minStake : CAmount)
         (type : CreateTransactionType) (fSubtractedFee : bool)
         (r : Built) (f' : TxFactoryBase),
    TokenMap.wf (nAmounts f) ->
    BuildTx fuel f rng changeDestination minStake type fSubtractedFee =
      Done (Some r, f') ->
    vin (b_tx r) = map (fun p => ui_in (snd p)) (b_selected r)
    /\ (forall T i, In (T, i) (b_selected r) ->
          exists l, In (T, l) (vInputs f) /\ In i l)
    /\ (forall T a, TokenMap.find T (nAmounts f) = Some a ->
          exists c,
            TokenMap.find T (b_mapChange r) = Some c
            /\ Int64.wrap (selected_value T (b_selected r)) =
                 Int64.wrap (nFromOutputs a + c + tokenFee T (b_nFee r))
            /\ (Int64.in_range (selected_value T (b_selected r)) ->
                0 <= nFromOutputs a -> 0 <= tokenFee T (b_nFee r) ->
                Int64.in_range (nFromOutputs a + tokenFee T (b_nFee r)) ->
                0 <= c
                /\ selected_value T (b_selected r) =
                     nFromOutputs a + c + tokenFee T (b_nFee r))).
Proof.
  intros fuel f rng cd minStake type fSub r f' Hwf B.
  unfold BuildTx in B.
  pose proof (emit_outputs_keeps_inputs (vOutputs f)
                (CMutableTransaction_default, Scalar_zero, [])) as Hvin0.
  destruct (emit_outputs (vOutputs f) (CMutableTransaction_default, Scalar_zero, []))
    as [[this_tx og] os].
  cbn [fst vin CMutableTransaction_default] in Hvin0.
  destruct (BuildTx_loop fuel this_tx og os (vInputs f) cd minStake type
              (nAmounts f) 0 rng) as [[r0 am] |] eqn:L; [| discriminate].
  inversion B. subst r0 f'. clear B.
  apply (BuildTx_loop_return this_tx og os (vInputs f) cd minStake type (nAmounts f))
    in L; [| exact Hwf | intros T a F; exact F].
  destruct L as (amounts1 & nFee1 & rng1 & Hwf1 & Hkeep1 & It).
  apply BuildTx_iter_return in It; [| exact Hwf1].
  destruct It as (Hfee & Hvin & Hfrom & Hsum & Hbal).
  split; [rewrite Hvin, Hvin0; reflexivity|].
  split; [exact Hfrom|].
  intros T a F. apply Hkeep1, Hbal in F. destruct F as [Hge Hc].
  rewrite Hsum in Hge, Hc. rewrite Hfee.
  eexists. split; [exact Hc|]. split.
  - symmetry. apply Int64.sub_sub_add_back.
  - intros Rsel Hout Hfee0 Rsum.
    unfold Int64.add in Hge. rewrite (Int64.wrap_small _ Rsel) in Hge |- *.
    rewrite (Int64.wrap_small _ Rsum) in Hge. apply Z.ltb_ge in Hge.
    unfold Int64.sub. rewrite Int64.wrap_sub_l.
    unfold Int64.in_range, Int64.half_modulus in *.
    rewrite Int64.wrap_small by (unfold Int64.in_range, Int64.half_modulus; lia).
    lia.
Qed.

(* --------------------------------------------------------------------- *)
(** ** How failures for lack of funds are reported                        *)
(* --------------------------------------------------------------------- *)



(** The staked amount [CreateTransaction] adds up over its candidates. *)
Definition staked_total (cands : list InputCandidates) : CAmount :=
  fold_left
    (fun acc c =>
       if ic_is_staked_commitment c then Int64.add acc (ic_amount c) else acc)
    cands 0.

Lemma stake_candidate_total cands :
  forall f acc,
    snd (fold_left stake_candidate cands (f, acc)) =
    fold_left
      (fun acc c =>
         if ic_is_staked_commitment c then Int64.add acc (ic_amount c) else acc)
      cands acc.
Proof.
  induction cands as [| c rest IH]; intros f acc; cbn [fold_left].
  - reflexivity.
  - unfold stake_candidate at 2. apply IH.
Qed.

Lemma unstake_candidate_total cands :
  forall f acc,
    snd (fold_left (other_candidate STAKED_COMMITMENT_UNSTAKE) cands (f, acc)) =
    fold_left
      (fun acc c =>
         if ic_is_staked_commitment c then Int64.add acc (ic_amount c) else acc)
      cands acc.
Proof.
  induction cands as [| c rest IH]; intros f acc; cbn [fold_left].
  - reflexivity.
  - unfold other_candidate at 2. cbn [CreateTransactionType_eqb orb negb].
    destruct (ic_is_staked_commitment c); apply IH.
Qed.


(* --------------------------------------------------------------------- *)
(** ** The fee loop need not terminate                                    *)
(* --------------------------------------------------------------------- *)

Section FeeOscillation.

Variables (destination : SubAddress) (changeDestination : DoublePublicKey).
Variables (a v minStake fA fB : CAmount) (gamma : Scalar).
Variables (spendingKey : PrivateKey) (outpoint : COutPoint) (sMemo : string).

(** A factory with one output of [a] and one input of [v], both of the base
    token, built through [AddOutput] and [AddInput]. *)
Definition oscillating_factory : TxFactoryBase :=
  fst (AddInput
         (fst (AddOutput TxFactoryBase_new 0 destination a sMemo
                 TokenId_default NORMAL minStake false))
         v gamma spendingKey TokenId_default outpoint false false).

Definition the_unsigned_output : UnsignedOutput :=
  CreateOutput (GetKeys destination) a sMemo TokenId_default (Rand 0) NORMAL
    minStake.

Definition the_output : CTxOut := uo_out the_unsigned_output.

Definition tx_shape (outs : list CTxOut) : CMutableTransaction :=
  mkCMutableTransaction (Z.lor CURRENT_VERSION BLSCT_MARKER)
    [mkCTxIn outpoint [] SEQUENCE_FINAL] outs Signature_default.

Hypothesis fee_without_change : fee_for (tx_shape [the_output]) = fA.
Hypothesis fee_with_change :
  forall c, fee_for (tx_shape [the_output; c]) = fB.
Hypothesis a_nonneg : 0 <= a.
Hypothesis fees_ordered : 0 <= fA < fB.
Hypothesis no_overflow : a + fB < 2 ^ 63.
Hypothesis v_exact : v = a + fB.
Hypothesis v_roundtrip : GetUint64 (Scalar_of_int64 v) = v.

Lemma oscillation_step :
  forall nFee rng,
    0 <= nFee <= fB ->
    exists nFee' rng',
      0 <= nFee' <= fB /\
      BuildTx_iter
        (mkCMutableTransaction CURRENT_VERSION [] [the_output] Signature_default)
        (Scalar_sub Scalar_zero (uo_gamma the_unsigned_output))
        [Sign (PrivateKey_of_Scalar (uo_blindingKey the_unsigned_output))
           (CTxOut_GetHash the_output)]
        (vInputs oscillating_factory) changeDestination minStake NORMAL
        (nAmounts oscillating_factory) nFee rng
      = IterAgain nFee' rng' (nAmounts oscillating_factory).
Proof using Type fee_without_change fee_with_change a_nonneg fees_ordered
  no_overflow v_exact v_roundtrip.
  intros nFee rng R.
  assert (Ra : Int64.in_range a)
    by (unfold Int64.in_range, Int64.half_modulus; lia).
  assert (Ha : Int64.add 0 (Int64.sub a 0) = a).
  { unfold Int64.add, Int64.sub.
    rewrite Z.sub_0_r, Z.add_0_l, Int64.wrap_wrap. apply Int64.wrap_small, Ra. }
  assert (Hv : Int64.wrap v = v).
  { apply Int64.wrap_small. unfold Int64.in_range, Int64.half_modulus. lia. }
  assert (Hadd : Int64.add a nFee = a + nFee).
  { apply Int64.wrap_small. unfold Int64.in_range, Int64.half_modulus. lia. }
  assert (Hsub : Int64.sub (Int64.sub v a) nFee = fB - nFee).
  { unfold Int64.sub. rewrite Int64.wrap_sub_l. subst v.
    replace (a + fB - a - nFee) with (fB - nFee) by lia.
    apply Int64.wrap_small. unfold Int64.in_range, Int64.half_modulus. lia. }
  unfold BuildTx_iter, BuildTx_select, oscillating_factory. cbn.
  rewrite v_roundtrip, Hv, Ha.
  unfold tx_shape in fee_without_change, fee_with_change.
  destruct (v >? Int64.add a nFee); cbn; rewrite Hadd, Hsub;
    (destruct (Z.ltb_spec v (a + nFee)); [lia|]);
    cbn [fold_left]; unfold emit_change; cbn [fst snd];
    (destruct (Z.eqb_spec (fB - nFee) 0) as [E | E];
     [ rewrite fee_without_change;
       destruct (Z.eqb_spec nFee fA); [lia|];
       exists fA, rng; split; [lia | reflexivity]
     | cbn [vout vin nVersion txSig app]; rewrite fee_with_change;
       destruct (Z.eqb_spec nFee fB); [lia|];
       exists fB, (S rng); split; [lia | reflexivity] ]).
Qed.

Lemma oscillation_loop :
  forall fuel nFee rng,
    0 <= nFee <= fB ->
    BuildTx_loop fuel
      (mkCMutableTransaction CURRENT_VERSION [] [the_output] Signature_default)
      (Scalar_sub Scalar_zero (uo_gamma the_unsigned_output))
      [Sign (PrivateKey_of_Scalar (uo_blindingKey the_unsigned_output))
         (CTxOut_GetHash the_output)]
      (vInputs oscillating_factory) changeDestination minStake NORMAL
      (nAmounts oscillating_factory) nFee rng
    = OutOfFuel.
Proof using Type fee_without_change fee_with_change a_nonneg fees_ordered
  no_overflow v_exact v_roundtrip.
  induction fuel as [| fuel IH]; intros nFee rng R; cbn [BuildTx_loop];
    [reflexivity|].
  destruct (oscillation_step nFee rng R) as (nFee' & rng' & R' & It).
  rewrite It. apply IH. exact R'.
Qed.

(** C9 (the failing input).  One base-token input worth exactly the requested
    output plus the fee of the transaction that carries a change output, when
    the transaction without the change output is cheaper: with the fee of the
    larger transaction nothing is left over, so no change output is made and
    the fee drops; with the lower fee there is a remainder, a change output is
    made and the fee rises again.  The loop alternates between the two fees
    and no number of passes ends it: [BuildTx] returns neither a transaction
    nor [std::nullopt]. *)
Theorem BuildTx_fee_loop_diverges :
  forall fuel : nat,
    BuildTx fuel oscillating_factory 1 changeDestination minStake NORMAL false
    = OutOfFuel.
Proof using Type fee_without_change fee_with_change a_nonneg fees_ordered
  no_overflow v_exact v_roundtrip.
  intros fuel. unfold BuildTx.
  change (emit_outputs (vOutputs oscillating_factory)
            (CMutableTransaction_default, Scalar_zero, []))
    with (mkCMutableTransaction CURRENT_VERSION [] [the_output] Signature_default,
          Scalar_sub Scalar_zero (uo_gamma the_unsigned_output),
          [Sign (PrivateKey_of_Scalar (uo_blindingKey the_unsigned_output))
             (CTxOut_GetHash the_output)]).
  cbv iota beta. rewrite oscillation_loop by lia. reflexivity.
Qed.

End FeeOscillation.

(* --------------------------------------------------------------------- *)
(** ** Properties of [AddOutput], and of sequences of calls               *)
(* --------------------------------------------------------------------- *)

(** The fee [AddOutput] takes off the amount: the weight of the output made
    for the whole amount times the fee rate, when the fee is to be
    subtracted, and nothing otherwise. *)
Definition output_fee (rng : nat) (destination : SubAddress)
    (nAmount : CAmount) (sMemo : string) (token_id : TokenId)
    (type : CreateTransactionType) (minStake : CAmount)
    (fSubtractFeeFromAmount : bool) : CAmount :=
  if fSubtractFeeFromAmount then
    Int64.mul
      (GetTransactioOutputWeight
         (uo_out (CreateOutput (GetKeys destination) nAmount sMemo token_id
                    (Rand rng) type minStake)))
      BLSCT_DEFAULT_FEE
  else 0.

(** The output [AddOutput] files. *)
Definition filed_output (rng : nat) (destination : SubAddress)
    (nAmount : CAmount) (sMemo : string) (token_id : TokenId)
    (type : CreateTransactionType) (minStake : CAmount)
    (fSubtractFeeFromAmount : bool) : UnsignedOutput :=
  if fSubtractFeeFromAmount then
    CreateOutput (GetKeys destination)
      (Int64.sub nAmount
         (output_fee rng destination nAmount sMemo token_id type minStake true))
      sMemo token_id (Rand (S rng)) type minStake
  else
    CreateOutput (GetKeys destination) nAmount sMemo token_id (Rand rng) type
      minStake.

Lemma AddOutput_same_token f rng destination nAmount sMemo token_id type
    minStake fSub :
  let r := AddOutput f rng destination nAmount sMemo token_id type minStake
             fSub in
  let a := TokenMap.get Amounts_zero token_id (nAmounts f) in
  TokenMap.find token_id (vOutputs (fst r)) =
    Some (TokenMap.get [] token_id (vOutputs f) ++
          [filed_output rng destination nAmount sMemo token_id type minStake fSub])
  /\ TokenMap.find token_id (nAmounts (fst r)) =
       Some (mkAmounts (nFromInputs a)
               (Int64.add (nFromOutputs a)
                  (Int64.sub nAmount
                     (output_fee rng destination nAmount sMemo token_id type
                        minStake fSub)))).
Proof.
  cbv zeta. unfold AddOutput, output_fee, filed_output, output_fee.
  destruct fSub; cbn [fst snd vOutputs vInputs nAmounts tx].
  all: split;
    [ rewrite TokenMap.find_set_same; do 2 f_equal;
      unfold TokenMap.mem, TokenMap.get;
      destruct (TokenMap.find token_id (vOutputs f)) eqn:F;
      [rewrite F; reflexivity | rewrite TokenMap.find_set_same; reflexivity]
    | rewrite TokenMap.find_set_same; f_equal;
      unfold TokenMap.mem, TokenMap.get;
      destruct (TokenMap.find token_id (nAmounts f)) eqn:F;
      [rewrite F; reflexivity | rewrite TokenMap.find_set_same; reflexivity] ].
Qed.

Lemma AddOutput_frame f rng destination nAmount sMemo token_id type minStake
    fSub :
  let r := AddOutput f rng destination nAmount sMemo token_id type minStake
             fSub in
  snd r = (if fSub then S (S rng) else S rng)
  /\ vInputs (fst r) = vInputs f
  /\ tx (fst r) = tx f
  /\ (forall k, k <> token_id ->
        TokenMap.find k (vOutputs (fst r)) = TokenMap.find k (vOutputs f)
        /\ TokenMap.find k (nAmounts (fst r)) = TokenMap.find k (nAmounts f)).
Proof.
  cbv zeta. unfold AddOutput.
  destruct fSub; cbn [fst snd vOutputs vInputs nAmounts tx].
  all: split; [reflexivity|]. all: split; [reflexivity|].
  all: split; [reflexivity|].
  all: intros k N; split;
    rewrite TokenMap.find_set_other, TokenMap.find_touch_other by assumption;
    [ destruct (TokenMap.mem token_id (vOutputs f)); [reflexivity|]
    | destruct (TokenMap.mem token_id (nAmounts f)); [reflexivity|] ];
    apply TokenMap.find_set_other; assumption.
Qed.

(** [AddOutput] files one more output under the token and adds the amount,
    less the fee when the fee is to be subtracted, to the token's output
    total.  With the fee subtracted, the output filed is a second one, made
    for the reduced amount with a fresh random scalar, so that the amount
    committed is the amount added to the total.  Inputs, the transaction
    and the entries of other tokens stay as they are. *)
Theorem AddOutput_files_output_and_adds_amount :
  forall (f : TxFactoryBase) (rng : nat) (destination : SubAddress)
         (nAmount : CAmount) (sMemo : string) (token_id : TokenId)
         (type : CreateTransactionType) (minStake : CAmount)
         (fSubtractFeeFromAmount : bool),
    let r := AddOutput f rng destination nAmount sMemo token_id type minStake
               fSubtractFeeFromAmount in
    let nFee := output_fee rng destination nAmount sMemo token_id type minStake
                  fSubtractFeeFromAmount in
    let out :=
      if fSubtractFeeFromAmount then
        CreateOutput (GetKeys destination) (Int64.sub nAmount nFee) sMemo
          token_id (Rand (S rng)) type minStake
      else
        CreateOutput (GetKeys destination) nAmount sMemo token_id (Rand rng)
          type minStake in
    let a := TokenMap.get Amounts_zero token_id (nAmounts f) in
    TokenMap.find token_id (vOutputs (fst r)) =
      Some (TokenMap.get [] token_id (vOutputs f) ++ [out])
    /\ TokenMap.find token_id (nAmounts (fst r)) =
         Some (mkAmounts (nFromInputs a)
                 (Int64.add (nFromOutputs a) (Int64.sub nAmount nFee)))
    /\ snd r = (if fSubtractFeeFromAmount then S (S rng) else S rng)
    /\ vInputs (fst r) = vInputs f
    /\ tx (fst r) = tx f
    /\ (forall k, k <> token_id ->
          TokenMap.find k (vOutputs (fst r)) = TokenMap.find k (vOutputs f)
          /\ TokenMap.find k (nAmounts (fst r)) = TokenMap.find k (nAmounts f)).
Proof.
  intros f rng destination nAmount sMemo token_id type minStake fSub r nFee out a.
  destruct (AddOutput_same_token f rng destination nAmount sMemo token_id type
              minStake fSub) as (Fo & Fa).
  destruct (AddOutput_frame f rng destination nAmount sMemo token_id type
              minStake fSub) as (Er & Ei & Et & Other).
  subst r nFee out a.
  split; [rewrite Fo; destruct fSub; reflexivity|].
  split; [exact Fa|]. split; [exact Er|]. split; [exact Ei|].
  split; [exact Et | exact Other].
Qed.

(** A call of one of the two methods that fill a factory. *)
Inductive FactoryCall : Type :=
| CallAddInput (amount : CAmount) (gamma : Scalar) (spendingKey : PrivateKey)
    (token_id : TokenId) (outpoint : COutPoint) (stakedCommitment rbf : bool)
| CallAddOutput (destination : SubAddress) (nAmount : CAmount)
    (sMemo : string) (token_id : TokenId) (type : CreateTransactionType)
    (minStake : CAmount) (fSubtractFeeFromAmount : bool).

(** What a sequence of calls has added so far (specification only): per
    call, the token and the amount that went into the input totals or into
    the output totals. *)
Record Filled : Type := mkFilled
  { fl_factory : TxFactoryBase;
    fl_rng : nat;
    fl_inputs : list (TokenId * CAmount);
    fl_outputs : list (TokenId * CAmount) }.

Definition run_call (s : Filled) (c : FactoryCall) : Filled :=
  match c with
  | CallAddInput amount gamma spendingKey token_id outpoint staked rbf =>
      mkFilled
        (fst (AddInput (fl_factory s) amount gamma spendingKey token_id
                outpoint staked rbf))
        (fl_rng s) (fl_inputs s ++ [(token_id, amount)]) (fl_outputs s)
  | CallAddOutput destination nAmount sMemo token_id type minStake fSub =>
      let r := AddOutput (fl_factory s) (fl_rng s) destination nAmount sMemo
                 token_id type minStake fSub in
      mkFilled (fst r) (snd r) (fl_inputs s)
        (fl_outputs s ++
           [(token_id,
             Int64.sub nAmount
               (output_fee (fl_rng s) destination nAmount sMemo token_id type
                  minStake fSub))])
  end.

(** A fresh factory after the calls. *)
Definition run_calls (rng : nat) (calls : list FactoryCall) : Filled :=
  fold_left run_call calls (mkFilled TxFactoryBase_new rng [] []).

(** The sum, and the number, of the amounts filed under token [T]. *)
Fixpoint total_of (T : TokenId) (l : list (TokenId * CAmount)) : Z :=
  match l with
  | [] => 0
  | (k, a) :: rest => (if TokenId_eqb k T then a else 0) + total_of T rest
  end.

Fixpoint count_of (T : TokenId) (l : list (TokenId * CAmount)) : nat :=
  match l with
  | [] => 0
  | (k, a) :: rest => (if TokenId_eqb k T then 1 else 0) + count_of T rest
  end.

Lemma total_of_app T l1 l2 :
  total_of T (l1 ++ l2) = total_of T l1 + total_of T l2.
Proof.
  induction l1 as [| [k a] rest IH]; cbn [app total_of]; [reflexivity|].
  rewrite IH. lia.
Qed.

Lemma count_of_app T l1 l2 :
  (count_of T (l1 ++ l2) = count_of T l1 + count_of T l2)%nat.
Proof.
  induction l1 as [| [k a] rest IH]; cbn [app count_of]; [reflexivity|].
  rewrite IH. lia.
Qed.

(** What every factory filled through [AddInput] and [AddOutput] satisfies. *)
Definition filled_inv (s : Filled) : Prop :=
  let f := fl_factory s in
  TokenMap.wf (vInputs f) /\ TokenMap.wf (vOutputs f) /\ TokenMap.wf (nAmounts f)
  /\ tx f = CMutableTransaction_default
  /\ forall T,
       nFromInputs (TokenMap.get Amounts_zero T (nAmounts f)) =
         Int64.wrap (total_of T (fl_inputs s))
       /\ nFromOutputs (TokenMap.get Amounts_zero T (nAmounts f)) =
            Int64.wrap (total_of T (fl_outputs s))
       /\ List.length (TokenMap.get [] T (vInputs f)) = count_of T (fl_inputs s)
       /\ List.length (TokenMap.get [] T (vOutputs f)) = count_of T (fl_outputs s)
       /\ (TokenMap.mem T (vInputs f) = true <->
           (0 < count_of T (fl_inputs s))%nat)
       /\ (TokenMap.mem T (vOutputs f) = true <->
           (0 < count_of T (fl_outputs s))%nat)
       /\ (TokenMap.mem T (nAmounts f) = true <->
           (0 < count_of T (fl_inputs s) + count_of T (fl_outputs s))%nat).

Lemma mem_set_same {V : Type} k (v : V) m :
  TokenMap.mem k (TokenMap.set k v m) = true.
Proof. unfold TokenMap.mem. rewrite TokenMap.find_set_same. reflexivity. Qed.

Lemma mem_set_other {V : Type} k k1 (v : V) m :
  k1 <> k -> TokenMap.mem k1 (TokenMap.set k v m) = TokenMap.mem k1 m.
Proof.
  intros N. unfold TokenMap.mem. rewrite TokenMap.find_set_other by assumption.
  reflexivity.
Qed.

Lemma mem_touch_other {V : Type} (d : V) k k1 m :
  k1 <> k -> TokenMap.mem k1 (TokenMap.touch d k m) = TokenMap.mem k1 m.
Proof.
  intros N. unfold TokenMap.mem. rewrite TokenMap.find_touch_other by assumption.
  reflexivity.
Qed.

(** The entry made for an unknown key reads like the absent entry. *)
Lemma get_ensure {V : Type} (d : V) k k1 m :
  TokenMap.get d k1
    (if TokenMap.mem k m then m else TokenMap.set k d m) =
  TokenMap.get d k1 m.
Proof.
  unfold TokenMap.mem. destruct (TokenMap.find k m) eqn:F; [reflexivity|].
  destruct (TokenId_eqb k1 k) eqn:E.
  - apply TokenId_eqb_eq in E. subst k1. rewrite TokenMap.get_set_same.
    unfold TokenMap.get. rewrite F. reflexivity.
  - apply TokenMap.get_set_other. intros ->.
    rewrite TokenId_eqb_refl in E. discriminate.
Qed.

Lemma wf_ensure {V : Type} (d : V) k m :
  TokenMap.wf m ->
  TokenMap.wf (if TokenMap.mem k m then m else TokenMap.set k d m).
Proof.
  intros H. destruct (TokenMap.mem k m); [exact H | apply TokenMap.wf_set, H].
Qed.

Lemma mem_ensure_other {V : Type} (d : V) k k1 m :
  k1 <> k ->
  TokenMap.mem k1 (if TokenMap.mem k m then m else TokenMap.set k d m) =
  TokenMap.mem k1 m.
Proof.
  intros N. destruct (TokenMap.mem k m); [reflexivity|].
  apply mem_set_other. exact N.
Qed.

Lemma TokenId_eqb_sym a b : TokenId_eqb a b = TokenId_eqb b a.
Proof.
  destruct (TokenId_eqb a b) eqn:E.
  - apply TokenId_eqb_eq in E. subst. symmetry. apply TokenId_eqb_refl.
  - destruct (TokenId_eqb b a) eqn:E'; [| reflexivity].
    apply TokenId_eqb_eq in E'. subst. rewrite TokenId_eqb_refl in E.
    discriminate.
Qed.

Lemma run_call_inv s c : filled_inv s -> filled_inv (run_call s c).
Proof.
  intros (Wi & Wo & Wa & Tx & H).
  destruct c as [amount gamma sk token_id outpoint staked rbf
                | dest nAmount sMemo token_id type minStake fSub];
    unfold filled_inv, run_call;
    cbn [fl_factory fl_inputs fl_outputs].
  - unfold AddInput. cbn [fst vInputs vOutputs nAmounts tx].
    split; [apply TokenMap.wf_set, TokenMap.wf_touch, wf_ensure, Wi|].
    split; [exact Wo|].
    split; [apply TokenMap.wf_set, TokenMap.wf_touch, wf_ensure, Wa|].
    split; [exact Tx|].
    intros T. destruct (H T) as (Hi & Ho & Li & Lo & Mi & Mo & Ma).
    rewrite total_of_app, count_of_app. cbn [total_of count_of].
    rewrite (TokenId_eqb_sym token_id T).
    destruct (TokenId_eqb T token_id) eqn:E.
    + apply TokenId_eqb_eq in E. subst T.
      rewrite !TokenMap.get_set_same, !get_ensure, !mem_set_same.
      cbn [nFromInputs nFromOutputs]. rewrite length_app. cbn [List.length].
      destruct (H token_id) as (Hi' & _).
      split; [unfold Int64.add; rewrite Hi, Int64.wrap_add_l; f_equal; lia|].
      split; [exact Ho|]. split; [rewrite Li; lia|]. split; [exact Lo|].
      split; [split; [lia | reflexivity]|]. split; [exact Mo|].
      split; [lia | reflexivity].
    + assert (N : T <> token_id)
        by (intros ->; rewrite TokenId_eqb_refl in E; discriminate).
      rewrite !TokenMap.get_set_other, !TokenMap.get_touch, !get_ensure
        by exact N.
      rewrite !mem_set_other, !mem_touch_other, !mem_ensure_other by exact N.
      rewrite !Z.add_0_r, !Nat.add_0_r.
      repeat split; try assumption; try apply Mi; try apply Mo; try apply Ma.
  - destruct (AddOutput_same_token (fl_factory s) (fl_rng s) dest nAmount sMemo
                token_id type minStake fSub) as (Fo & Fa).
    destruct (AddOutput_frame (fl_factory s) (fl_rng s) dest nAmount sMemo
                token_id type minStake fSub) as (_ & Ei & Et & Other).
    cbv zeta in Fo, Fa, Ei, Et, Other.
    set (r := AddOutput _ _ _ _ _ _ _ _ _) in *.
    assert (W : TokenMap.wf (vOutputs (fst r)) /\ TokenMap.wf (nAmounts (fst r))).
    { subst r. unfold AddOutput. destruct fSub; cbn [fst vOutputs nAmounts];
        split; apply TokenMap.wf_set, TokenMap.wf_touch, wf_ensure; assumption. }
    rewrite Ei, Et.
    split; [exact Wi|]. split; [apply W|]. split; [apply W|]. split; [exact Tx|].
    intros T. destruct (H T) as (Hi & Ho & Li & Lo & Mi & Mo & Ma).
    rewrite total_of_app, count_of_app. cbn [total_of count_of].
    rewrite (TokenId_eqb_sym token_id T).
    destruct (TokenId_eqb T token_id) eqn:E.
    + apply TokenId_eqb_eq in E. subst T.
      unfold TokenMap.get at 1 2 4, TokenMap.mem at 2 3. rewrite Fo, Fa.
      cbn [nFromInputs nFromOutputs]. rewrite length_app. cbn [List.length].
      split; [exact Hi|].
      split; [unfold Int64.add; rewrite Ho, Int64.wrap_add_l; f_equal; lia|].
      split; [exact Li|]. split; [rewrite Lo; lia|].
      split; [exact Mi|]. split; [split; [lia | reflexivity]|].
      split; [lia | reflexivity].
    + assert (N : T <> token_id)
        by (intros ->; rewrite TokenId_eqb_refl in E; discriminate).
      destruct (Other T N) as (Oo & Oa).
      unfold TokenMap.get at 1 2 4, TokenMap.mem at 2 3. rewrite Oo, Oa.
      rewrite !Z.add_0_r, !Nat.add_0_r.
      repeat split; try assumption; try apply Mi; try apply Mo; try apply Ma.
Qed.

(** A factory filled by calls of [AddInput] and [AddOutput], starting from a
    fresh one, keeps its books: for every token the input total and the
    output total are the 64-bit sums of the amounts the calls added (for an
    output, the amount less the subtracted fee), the lists hold one entry per
    call, and a token has an accumulator entry exactly when a call named it.
    The three maps stay sorted by token and the transaction stays empty. *)
Theorem filled_factory_keeps_its_books :
  forall (rng : nat) (calls : list FactoryCall),
    let s := run_calls rng calls in
    let f := fl_factory s in
    TokenMap.wf (vInputs f) /\ TokenMap.wf (vOutputs f)
    /\ TokenMap.wf (nAmounts f)
    /\ tx f = CMutableTransaction_default
    /\ forall T,
         nFromInputs (TokenMap.get Amounts_zero T (nAmounts f)) =
           Int64.wrap (total_of T (fl_inputs s))
         /\ nFromOutputs (TokenMap.get Amounts_zero T (nAmounts f)) =
              Int64.wrap (total_of T (fl_outputs s))
         /\ List.length (TokenMap.get [] T (vInputs f)) =
              count_of T (fl_inputs s)
         /\ List.length (TokenMap.get [] T (vOutputs f)) =
              count_of T (fl_outputs s)
         /\ (TokenMap.mem T (vInputs f) = true <->
             (0 < count_of T (fl_inputs s))%nat)
         /\ (TokenMap.mem T (vOutputs f) = true <->
             (0 < count_of T (fl_outputs s))%nat)
         /\ (TokenMap.mem T (nAmounts f) = true <->
             (0 < count_of T (fl_inputs s) + count_of T (fl_outputs s))%nat).
Proof.
  intros rng calls. change (filled_inv (run_calls rng calls)). unfold run_calls.
  assert (G : forall s, filled_inv s -> filled_inv (fold_left run_call calls s)).
  { induction calls as [| c rest IH]; intros s Hs; cbn [fold_left];
      [exact Hs | apply IH, run_call_inv, Hs]. }
  apply G. unfold filled_inv. cbn.
  split; [constructor|]. split; [constructor|]. split; [constructor|].
  split; [reflexivity|]. intros T.
  repeat split; try reflexivity; try discriminate; try lia.
Qed.

(* --------------------------------------------------------------------- *)
(** ** The transaction [BuildTx] returns                                  *)
(* --------------------------------------------------------------------- *)

(** The signature of an output, by its blinding key over its hash, and of an
    input, by its spending key over its hash. *)
Definition output_signature (o : UnsignedOutput) : Signature :=
  Sign (PrivateKey_of_Scalar (uo_blindingKey o)) (CTxOut_GetHash (uo_out o)).

Definition input_signature (i : UnsignedInput) : Signature :=
  Sign (ui_sk i) (CTxIn_GetHash (ui_in i)).

(** The requested outputs in the order [BuildTx] walks them: by token, and
    for a token in the order they were added. *)
Definition requested_outputs (f : TxFactoryBase) : list UnsignedOutput :=
  List.concat (map snd (vOutputs f)).

(** The change outputs made for the non-zero entries of [mapChange], each
    with the next random scalar (specification only). *)
Fixpoint change_outputs (changeDestination : DoublePublicKey)
    (minStake : CAmount) (mapChange : list (TokenId * CAmount)) (rng : nat)
    : list UnsignedOutput :=
  match mapChange with
  | [] => []
  | (k, c) :: rest =>
      if c =? 0 then change_outputs changeDestination minStake rest rng
      else
        CreateOutput changeDestination c "Change" k (Rand rng) NORMAL minStake
        :: change_outputs changeDestination minStake rest (S rng)
  end.

Definition sub_gamma (g : Scalar) (o : UnsignedOutput) : Scalar :=
  Scalar_sub g (uo_gamma o).

Definition add_gamma (g : Scalar) (i : UnsignedInput) : Scalar :=
  Scalar_add g (ui_gamma i).

Lemma emit_output_fold l :
  forall t g sg,
    fold_left emit_output l (t, g, sg) =
    (mkCMutableTransaction (nVersion t) (vin t) (vout t ++ map uo_out l) (txSig t),
     fold_left sub_gamma l g,
     sg ++ map output_signature l).
Proof.
  induction l as [| o rest IH]; intros t g sg; cbn [fold_left map].
  - rewrite !app_nil_r. destruct t. reflexivity.
  - cbn [emit_output]. rewrite IH. cbn [nVersion vin vout txSig].
    rewrite <- !app_assoc. reflexivity.
Qed.

Lemma emit_outputs_spec outs :
  forall t g sg,
    emit_outputs outs (t, g, sg) =
    (mkCMutableTransaction (nVersion t) (vin t)
       (vout t ++ map uo_out (List.concat (map snd outs))) (txSig t),
     fold_left sub_gamma (List.concat (map snd outs)) g,
     sg ++ map output_signature (List.concat (map snd outs))).
Proof.
  unfold emit_outputs.
  induction outs as [| [k l] rest IH]; intros t g sg; cbn [fold_left map List.concat snd].
  - rewrite !app_nil_r. destruct t. reflexivity.
  - rewrite emit_output_fold, IH. cbn [nVersion vin vout txSig].
    rewrite !map_app, !fold_left_app, <- !app_assoc. reflexivity.
Qed.

Lemma emit_change_fold changeDestination minStake l :
  forall t g sg rng,
    fold_left (emit_change changeDestination minStake) l (t, g, sg, rng) =
    let changes := change_outputs changeDestination minStake l rng in
    (mkCMutableTransaction (nVersion t) (vin t) (vout t ++ map uo_out changes)
       (txSig t),
     fold_left sub_gamma changes g,
     sg ++ map output_signature changes,
     (rng + List.length changes)%nat).
Proof.
  induction l as [| [k c] rest IH]; intros t g sg rng;
    cbn [fold_left change_outputs].
  - cbn. rewrite !app_nil_r, Nat.add_0_r. destruct t. reflexivity.
  - unfold emit_change at 2. cbn [fst snd].
    destruct (c =? 0); [apply IH|].
    rewrite IH. cbv zeta. cbn [nVersion vin vout txSig map fold_left List.length].
    rewrite <- !app_assoc, Nat.add_succ_r. reflexivity.
Qed.

(** What the selection adds to the transaction, besides the inputs. *)
Definition selection_trace (version : Z) (outs : list CTxOut) (sig : Signature)
    (g0 : Scalar) (sg0 : list Signature) (s : LoopState) : Prop :=
  nVersion (ls_tx s) = version
  /\ vout (ls_tx s) = outs
  /\ txSig (ls_tx s) = sig
  /\ ls_gammaAcc s = fold_left add_gamma (map snd (ls_selected s)) g0
  /\ ls_txSigs s = sg0 ++ map input_signature (map snd (ls_selected s)).

Lemma take_input_trace version outs sig g0 sg0 nFee k i s :
  selection_trace version outs sig g0 sg0 s ->
  selection_trace version outs sig g0 sg0 (fst (take_input nFee k i s)).
Proof.
  intros (Hv & Ho & Hs & Hg & Hsg). unfold take_input, selection_trace.
  cbn [fst ls_tx ls_gammaAcc ls_txSigs ls_selected nVersion vout txSig].
  rewrite !map_app, fold_left_app, <- Hg, Hsg, <- app_assoc.
  repeat split; assumption.
Qed.

Lemma BuildTx_select_trace this_tx og os ins type amounts nFee :
  selection_trace (Z.lor (nVersion this_tx) BLSCT_MARKER) (vout this_tx)
    (txSig this_tx) og os
    (BuildTx_select this_tx og os ins type amounts nFee).
Proof.
  unfold BuildTx_select.
  set (s0 := mkLoopState _ og os TokenMap.empty amounts []).
  assert (T0 : selection_trace (Z.lor (nVersion this_tx) BLSCT_MARKER)
                 (vout this_tx) (txSig this_tx) og os s0).
  { unfold selection_trace. cbn. rewrite app_nil_r. repeat split. }
  apply select_inputs_preserves;
    [intros k l i s _ _; apply take_input_trace|].
  destruct (_ || _); [| exact T0].
  apply select_inputs_preserves; [| exact T0].
  intros k l i s _ _. apply take_input_trace.
Qed.

(** A loop that returns a transaction returned it from one of its passes. *)
Lemma BuildTx_loop_last_pass this_tx og os ins cd minStake type :
  forall fuel amounts nFee rng r amounts',
    BuildTx_loop fuel this_tx og os ins cd minStake type amounts nFee rng =
      Done (Some r, amounts') ->
    amounts' = b_nAmounts r
    /\ exists amounts1 nFee1 rng1,
         (rng <= rng1)%nat
         /\ BuildTx_iter this_tx og os ins cd minStake type amounts1 nFee1 rng1 =
              IterReturn r.
Proof.
  induction fuel as [| fuel IH]; intros amounts nFee rng r amounts' L;
    cbn [BuildTx_loop] in L; [discriminate|].
  destruct (BuildTx_iter this_tx og os ins cd minStake type amounts nFee rng)
    as [am | r1 | nFee' rng' am] eqn:It.
  - discriminate.
  - inversion L. subst. split; [reflexivity|].
    exists amounts, nFee, rng. split; [apply Nat.le_refl | exact It].
  - assert (Le : (rng <= rng')%nat).
    { unfold BuildTx_iter in It.
      destruct (check_amounts _ _ _ _) as [[mi mc] |]; [| discriminate].
      rewrite emit_change_fold in It. cbv beta iota zeta in It.
      destruct (nFee =? fee_for _); [discriminate|].
      inversion It. lia. }
    apply IH in L. destruct L as (E & am1 & nFee1 & rng1 & Le1 & It1).
    split; [exact E|]. exists am1, nFee1, rng1. split; [lia | exact It1].
Qed.

(** The transaction a returning pass hands out. *)
Lemma BuildTx_iter_returned this_tx og os ins cd minStake type amounts nFee rng r :
  BuildTx_iter this_tx og os ins cd minStake type amounts nFee rng = IterReturn r ->
  let sel := map snd (b_selected r) in
  let changes := change_outputs cd minStake (b_mapChange r) rng in
  let unsigned :=
    mkCMutableTransaction (Z.lor (nVersion this_tx) BLSCT_MARKER)
      (vin this_tx ++ map ui_in sel) (vout this_tx ++ map uo_out changes)
      (txSig this_tx) in
  b_nFee r = fee_for unsigned
  /\ b_nAmounts r = iter_amounts (IterReturn r)
  /\ b_tx r =
       mkCMutableTransaction (nVersion unsigned) (vin unsigned)
         (vout unsigned ++ [CTxOut_of (b_nFee r) [OP_RETURN]])
         (Aggregate
            (os ++ map input_signature sel ++ map output_signature changes
             ++ [SignBalance
                   (PrivateKey_of_Scalar
                      (fold_left sub_gamma changes
                         (fold_left add_gamma sel og)))])).
Proof.
  intros It. cbv zeta. unfold BuildTx_iter in It.
  pose proof (BuildTx_select_trace this_tx og os ins type amounts nFee) as Tr.
  assert (Vin : vin (ls_tx (BuildTx_select this_tx og os ins type amounts nFee)) =
                vin this_tx ++
                map ui_in
                  (map snd
                     (ls_selected
                        (BuildTx_select this_tx og os ins type amounts nFee)))).
  { unfold BuildTx_select.
    set (s0 := mkLoopState _ _ _ TokenMap.empty amounts []).
    assert (P0 : vin (ls_tx s0) =
                 vin this_tx ++ map ui_in (map snd (ls_selected s0)))
      by (cbn; rewrite app_nil_r; reflexivity).
    assert (Step : forall k l i s,
               In (k, l) ins -> In i l ->
               vin (ls_tx s) = vin this_tx ++ map ui_in (map snd (ls_selected s)) ->
               vin (ls_tx (fst (take_input nFee k i s))) =
               vin this_tx ++
               map ui_in (map snd (ls_selected (fst (take_input nFee k i s))))).
    { intros k l i s _ _ E. unfold take_input.
      cbn [fst ls_tx ls_selected vin]. rewrite !map_app, E, <- app_assoc.
      reflexivity. }
    apply (select_inputs_preserves
             (fun s => vin (ls_tx s) =
                       vin this_tx ++ map ui_in (map snd (ls_selected s))));
      [exact Step|].
    destruct (_ || _); [| exact P0].
    apply (select_inputs_preserves
             (fun s => vin (ls_tx s) =
                       vin this_tx ++ map ui_in (map snd (ls_selected s))));
      [exact Step | exact P0]. }
  set (s2 := BuildTx_select _ _ _ _ _ _ _) in *.
  destruct Tr as (Hv & Ho & Hs & Hg & Hsg).
  destruct (check_amounts _ _ _ _) as [[mi mc] |] eqn:C; [| discriminate].
  rewrite emit_change_fold in It. cbv beta iota zeta in It.
  destruct (nFee =? fee_for _) eqn:Fee; [| discriminate].
  inversion It. subst r. clear It.
  cbn [b_nFee b_tx b_selected b_mapChange b_nAmounts iter_amounts].
  cbn [nVersion vin vout txSig] in *.
  apply Z.eqb_eq in Fee.
  rewrite Hv, Ho, Hs, Vin in Fee. rewrite Hv, Ho, Vin.
  split; [exact Fee|]. split; [reflexivity|].
  rewrite Hg, Hsg, <- !app_assoc. reflexivity.
Qed.

(** The outputs of the transaction of a successful [BuildTx]. *)
Lemma BuildTx_vout fuel f rng cd minStake type fSub r f' :
  BuildTx fuel f rng cd minStake type fSub = Done (Some r, f') ->
  exists changes,
    vout (b_tx r) =
      map uo_out (requested_outputs f) ++ map uo_out changes
      ++ [CTxOut_of (b_nFee r) [OP_RETURN]].
Proof.
  intros B. unfold BuildTx in B. rewrite emit_outputs_spec in B.
  cbn [CMutableTransaction_default nVersion vin vout txSig app] in B.
  fold (requested_outputs f) in B.
  destruct (BuildTx_loop _ _ _ _ _ _ _ _ _ _ _) as [[r0 am] |] eqn:L;
    [| discriminate].
  inversion B. subst r0 f'. clear B.
  apply BuildTx_loop_last_pass in L.
  destruct L as (_ & am1 & nFee1 & rng1 & _ & It).
  apply BuildTx_iter_returned in It. destruct It as (_ & _ & Tx).
  exists (change_outputs cd minStake (b_mapChange r) rng1).
  rewrite Tx. cbn [vout]. rewrite <- app_assoc. reflexivity.
Qed.

(** The transaction of a successful [BuildTx].  Its outputs are the requested
    outputs, then one change output per token with a non-zero remainder, and
    last the fee output [CTxOut(nFee, OP_RETURN)]; its inputs are the
    selected ones; its version carries the BLSCT marker.  The fee is the
    weight of the transaction without the fee output, and not yet signed,
    times the fee rate.  The signature aggregates one signature per requested
    output, per input and per change output, and the balance signature by
    the key made of the blinding factors: those of the inputs added, those
    of all outputs subtracted.  The factory keeps its inputs and outputs;
    its transaction member holds the requested outputs. *)
Theorem BuildTx_returned_transaction :
  forall (fuel : nat) (f : TxFactoryBase) (rng : nat)
         (changeDestination : DoublePublicKey) (minStake : CAmount)
         (type : CreateTransactionType) (fSubtractedFee : bool)
         (r : Built) (f' : TxFactoryBase),
    BuildTx fuel f rng changeDestination minStake type fSubtractedFee =
      Done (Some r, f') ->
    exists rng' : nat,
      let outs := requested_outputs f in
      let ins := map snd (b_selected r) in
      let changes :=
        change_outputs changeDestination minStake (b_mapChange r) rng' in
      let unsigned :=
        mkCMutableTransaction (Z.lor CURRENT_VERSION BLSCT_MARKER)
          (map ui_in ins) (map uo_out outs ++ map uo_out changes)
          Signature_default in
      let gammaAcc :=
        fold_left sub_gamma changes
          (fold_left add_gamma ins (fold_left sub_gamma outs Scalar_zero)) in
      (rng <= rng')%nat
      /\ b_nFee r = fee_for unsigned
      /\ b_tx r =
           mkCMutableTransaction (nVersion unsigned) (vin unsigned)
             (vout unsigned ++ [CTxOut_of (b_nFee r) [OP_RETURN]])
             (Aggregate
                (map output_signature outs ++ map input_signature ins
                 ++ map output_signature changes
                 ++ [SignBalance (PrivateKey_of_Scalar gammaAcc)]))
      /\ f' =
           mkTxFactoryBase
             (mkCMutableTransaction CURRENT_VERSION [] (map uo_out outs)
                Signature_default)
             (vOutputs f) (vInputs f) (b_nAmounts r).
Proof.
  intros fuel f rng cd minStake type fSub r f' B.
  unfold BuildTx in B. rewrite emit_outputs_spec in B.
  cbn [CMutableTransaction_default nVersion vin vout txSig app] in B.
  fold (requested_outputs f) in B.
  destruct (BuildTx_loop _ _ _ _ _ _ _ _ _ _ _) as [[r0 am] |] eqn:L;
    [| discriminate].
  inversion B. subst r0 f'. clear B.
  apply BuildTx_loop_last_pass in L.
  destruct L as (-> & am1 & nFee1 & rng1 & Le & It).
  apply BuildTx_iter_returned in It. destruct It as (Fee & _ & Tx).
  exists rng1. cbv zeta. split; [exact Le|].
  split; [exact Fee|]. split; [exact Tx | reflexivity].
Qed.

(* --------------------------------------------------------------------- *)
(** ** Which inputs [BuildTx] spends                                      *)
(* --------------------------------------------------------------------- *)

(** The inputs selected for token [T], in the order of their selection. *)
Definition token_inputs (T : TokenId) (sel : list (TokenId * UnsignedInput))
    : list UnsignedInput :=
  map snd (filter (fun p => TokenId_eqb (fst p) T) sel).

(** The 64-bit sum of the values of some inputs. *)
Definition value_of (l : list UnsignedInput) : CAmount :=
  Int64.wrap (fold_right (fun i acc => GetUint64 (ui_value i) + acc) 0 l).

Lemma token_inputs_app T sel1 sel2 :
  token_inputs T (sel1 ++ sel2) = token_inputs T sel1 ++ token_inputs T sel2.
Proof. unfold token_inputs. rewrite filter_app, map_app. reflexivity. Qed.

Lemma token_inputs_same T l :
  token_inputs T (map (pair T) l) = l.
Proof.
  unfold token_inputs. induction l as [| i l IH]; cbn; [reflexivity|].
  rewrite TokenId_eqb_refl. cbn. rewrite IH. reflexivity.
Qed.

Lemma token_inputs_other T k l :
  k <> T -> token_inputs T (map (pair k) l) = [].
Proof.
  intros N. unfold token_inputs. induction l as [| i l IH]; cbn; [reflexivity|].
  rewrite TokenId_eqb_neq by exact N. exact IH.
Qed.

Lemma selected_value_token_inputs T sel :
  Int64.wrap (selected_value T sel) = value_of (token_inputs T sel).
Proof.
  unfold value_of, token_inputs. f_equal.
  induction sel as [| [k i] rest IH]; cbn [selected_value filter map fst];
    [reflexivity|].
  destruct (TokenId_eqb k T); cbn [map snd fold_right]; rewrite IH; lia.
Qed.

(** Where one walk over the inputs of a token stops: [taken] were spent,
    [rest] were left, given the inputs [base] of the token spent before and
    the amount [need] that ends the walk once exceeded. *)
Definition stops_at (need : CAmount) (base eligible taken rest : list UnsignedInput)
    : Prop :=
  eligible = taken ++ rest
  /\ (taken = [] -> rest = [])
  /\ (rest <> [] -> value_of (base ++ taken) > need)
  /\ (forall p i q, taken = p ++ i :: q -> p <> [] ->
        value_of (base ++ p) <= need).

(** The state facts the selection keeps, for a token [T] and the [nAmounts]
    the pass started from. *)
Definition pass_inv (amounts0 : TokenMap.t Amounts) (s : LoopState) : Prop :=
  sums_selected s
  /\ forall T, TokenMap.get Amounts_zero T (ls_nAmounts s) =
               TokenMap.get Amounts_zero T amounts0.

Lemma take_input_pass_inv amounts0 nFee k i s :
  pass_inv amounts0 s -> pass_inv amounts0 (fst (take_input nFee k i s)).
Proof.
  intros [Hs Ha]. split; [apply take_input_sums, Hs|].
  intros T. unfold take_input. cbn [fst ls_nAmounts].
  rewrite TokenMap.get_touch. apply Ha.
Qed.

Lemma take_input_selected nFee k i s :
  ls_selected (fst (take_input nFee k i s)) = ls_selected s ++ [(k, i)].
Proof. reflexivity. Qed.

Lemma take_input_break amounts0 nFee k i s :
  pass_inv amounts0 s ->
  snd (take_input nFee k i s) =
    (value_of (token_inputs k (ls_selected s) ++ [i]) >?
     Int64.add (nFromOutputs (TokenMap.get Amounts_zero k amounts0)) nFee).
Proof.
  intros I. pose proof (take_input_pass_inv amounts0 nFee k i s I) as [Hs Ha].
  specialize (Hs k). specialize (Ha k).
  assert (E : snd (take_input nFee k i s) =
              (TokenMap.get 0 k (ls_mapInputs (fst (take_input nFee k i s))) >?
               Int64.add
                 (nFromOutputs
                    (TokenMap.get Amounts_zero k
                       (ls_nAmounts (fst (take_input nFee k i s)))))
                 nFee)) by reflexivity.
  rewrite E, Hs, Ha, selected_value_token_inputs, take_input_selected,
    token_inputs_app.
  cbn [token_inputs filter map fst snd app]. rewrite TokenId_eqb_refl.
  reflexivity.
Qed.

(** One walk over the inputs of token [k]. *)
Lemma consume_inputs_stops amounts0 staked nFee k :
  forall ins s,
    pass_inv amounts0 s ->
    let s' := consume_inputs staked nFee k ins s in
    pass_inv amounts0 s'
    /\ exists taken rest,
         ls_selected s' = ls_selected s ++ map (pair k) taken
         /\ stops_at
              (Int64.add (nFromOutputs (TokenMap.get Amounts_zero k amounts0)) nFee)
              (token_inputs k (ls_selected s))
              (filter (fun i => Bool.eqb (ui_is_staked_commitment i) staked) ins)
              taken rest.
Proof.
  induction ins as [| i ins IH]; intros s I; cbn [consume_inputs filter].
  - split; [exact I|]. exists [], []. cbn. rewrite app_nil_r.
    split; [reflexivity|]. split; [reflexivity|]. split; [reflexivity|].
    split; [intros H; contradiction|].
    intros p i q E. destruct p; discriminate E.
  - cbv zeta. destruct (Bool.eqb (ui_is_staked_commitment i) staked) eqn:El.
    + pose proof (take_input_pass_inv amounts0 nFee k i s I) as I1.
      pose proof (take_input_break amounts0 nFee k i s I) as Br.
      pose proof (take_input_selected nFee k i s) as Sel.
      destruct (take_input nFee k i s) as [s1 stop]. cbn [fst snd] in *.
      destruct stop.
      * split; [exact I1|]. exists [i], (filter (fun i => Bool.eqb (ui_is_staked_commitment i) staked) ins).
        split; [exact Sel|]. split; [reflexivity|].
        split; [discriminate|].
        split; [intros _; symmetry in Br; apply Z.gtb_lt in Br; lia|].
        intros p i' q E Np. destruct p as [| x [| y p]]; [contradiction | |];
          cbn in E; inversion E.
      * destruct (IH s1 I1) as (I2 & taken & rest & Sel2 & E & Fst & Stop & Go).
        cbv zeta in I2, Sel2. split; [exact I2|].
        rewrite Sel, token_inputs_app in *.
        cbn [token_inputs filter map fst snd] in *.
        rewrite TokenId_eqb_refl in *. cbn [map snd] in *.
        exists (i :: taken), rest.
        split; [rewrite Sel2, <- app_assoc; reflexivity|].
        split; [cbn; rewrite E; reflexivity|].
        split; [discriminate|].
        split.
        -- intros Nr. destruct taken as [| j taken].
           ++ specialize (Fst eq_refl). contradiction.
           ++ specialize (Stop Nr). rewrite <- app_assoc in Stop. exact Stop.
        -- intros p i' q Ep Np. destruct p as [| x p]; [contradiction|].
           cbn in Ep. inversion Ep. subst x.
           destruct p as [| y p].
           ++ symmetry in Br. rewrite Z.gtb_ltb in Br. apply Z.ltb_ge in Br.
              exact Br.
           ++ specialize (Go (y :: p) i' q H1 ltac:(discriminate)).
              rewrite <- app_assoc in Go. exact Go.
    + apply IH. exact I.
Qed.

Lemma select_inputs_elsewhere amounts0 staked nFee T :
  forall ins s,
    ~ In T (map fst ins) ->
    pass_inv amounts0 s ->
    pass_inv amounts0 (select_inputs staked nFee ins s)
    /\ token_inputs T (ls_selected (select_inputs staked nFee ins s)) =
       token_inputs T (ls_selected s).
Proof.
  unfold select_inputs.
  induction ins as [| [k l] rest IH]; intros s NI I; cbn [fold_left fst snd].
  - split; [exact I | reflexivity].
  - cbn [map fst] in NI.
    destruct (consume_inputs_stops amounts0 staked nFee k l s I)
      as (I1 & taken & lrest & Sel & _).
    cbv zeta in I1, Sel.
    destruct (IH (consume_inputs staked nFee k l s)
                ltac:(intros H; apply NI; right; exact H) I1) as (I2 & E).
    split; [exact I2|]. rewrite E, Sel, token_inputs_app, token_inputs_other.
    + apply app_nil_r.
    + intros ->. apply NI. left. reflexivity.
Qed.

(** One pass over all tokens, seen from token [T]. *)
Lemma select_inputs_stops amounts0 staked nFee T :
  forall ins s,
    NoDup (map fst ins) ->
    pass_inv amounts0 s ->
    pass_inv amounts0 (select_inputs staked nFee ins s)
    /\ exists taken rest,
         token_inputs T (ls_selected (select_inputs staked nFee ins s)) =
           token_inputs T (ls_selected s) ++ taken
         /\ stops_at
              (Int64.add (nFromOutputs (TokenMap.get Amounts_zero T amounts0)) nFee)
              (token_inputs T (ls_selected s))
              (filter (fun i => Bool.eqb (ui_is_staked_commitment i) staked)
                 (TokenMap.get [] T ins))
              taken rest.
Proof.
  induction ins as [| [k l] rest IH]; intros s ND I.
  - split; [exact I|]. exists [], []. cbn. rewrite app_nil_r.
    split; [reflexivity|]. split; [reflexivity|]. split; [reflexivity|].
    split; [intros H; contradiction|].
    intros p i q E. destruct p; discriminate E.
  - inversion ND as [| ? ? NI ND']. subst.
    destruct (consume_inputs_stops amounts0 staked nFee k l s I)
      as (I1 & taken & lrest & Sel & St).
    cbv zeta in I1, Sel.
    change (select_inputs staked nFee ((k, l) :: rest) s)
      with (select_inputs staked nFee rest (consume_inputs staked nFee k l s)).
    unfold TokenMap.get. cbn [TokenMap.find].
    destruct (TokenId_eqb T k) eqn:E.
    + apply TokenId_eqb_eq in E. subst k.
      destruct (select_inputs_elsewhere amounts0 staked nFee T rest _ NI I1)
        as (I2 & Et).
      split; [exact I2|]. exists taken, lrest.
      rewrite Et, Sel, token_inputs_app, token_inputs_same.
      split; [reflexivity | exact St].
    + destruct (IH _ ND' I1) as (I2 & taken' & rest' & Et & St').
      split; [exact I2|].
      assert (Eb : token_inputs T (ls_selected (consume_inputs staked nFee k l s)) =
                   token_inputs T (ls_selected s)).
      { rewrite Sel, token_inputs_app, token_inputs_other; [apply app_nil_r|].
        intros ->. rewrite TokenId_eqb_refl in E. discriminate. }
      rewrite Eb in Et, St'. exists taken', rest'.
      split; [exact Et | exact St'].
Qed.

Lemma filter_staked (l : list UnsignedInput) :
  filter (fun i => Bool.eqb (ui_is_staked_commitment i) true) l =
  filter ui_is_staked_commitment l.
Proof.
  apply filter_ext. intros i. destruct (ui_is_staked_commitment i); reflexivity.
Qed.

Lemma filter_not_staked (l : list UnsignedInput) :
  filter (fun i => Bool.eqb (ui_is_staked_commitment i) false) l =
  filter (fun i => negb (ui_is_staked_commitment i)) l.
Proof.
  apply filter_ext. intros i. destruct (ui_is_staked_commitment i); reflexivity.
Qed.

(** The selection of one pass of the loop, seen from token [T]. *)
Definition spends_in_order (type : CreateTransactionType) (need : CAmount)
    (mine spent : list UnsignedInput) : Prop :=
  exists staked_taken staked_rest other_taken other_rest,
    spent = staked_taken ++ other_taken
    /\ match type with
       | NORMAL => staked_taken = []
       | _ =>
           stops_at need [] (filter ui_is_staked_commitment mine)
             staked_taken staked_rest
       end
    /\ stops_at need staked_taken
         (filter (fun i => negb (ui_is_staked_commitment i)) mine)
         other_taken other_rest.

Lemma BuildTx_select_stops this_tx og os ins type amounts nFee T :
  TokenMap.wf ins ->
  pass_inv amounts (BuildTx_select this_tx og os ins type amounts nFee)
  /\ spends_in_order type
       (Int64.add (nFromOutputs (TokenMap.get Amounts_zero T amounts)) nFee)
       (TokenMap.get [] T ins)
       (token_inputs T
          (ls_selected (BuildTx_select this_tx og os ins type amounts nFee))).
Proof.
  intros W. apply TokenMap.wf_NoDup in W. unfold BuildTx_select.
  set (s0 := mkLoopState _ og os TokenMap.empty amounts []).
  assert (I0 : pass_inv amounts s0)
    by (split; intros T'; reflexivity).
  assert (Staking :
            CreateTransactionType_eqb type STAKED_COMMITMENT_UNSTAKE
            || CreateTransactionType_eqb type STAKED_COMMITMENT =
            match type with NORMAL => false | _ => true end)
    by (destruct type; reflexivity).
  rewrite Staking. unfold spends_in_order.
  destruct type.
  - destruct (select_inputs_stops amounts false nFee T ins s0 W I0)
      as (I2 & taken & rest & Et & St).
    split; [exact I2|]. rewrite filter_not_staked in St.
    exists [], [], taken, rest.
    split; [exact Et|]. split; [reflexivity | exact St].
  - destruct (select_inputs_stops amounts true nFee T ins s0 W I0)
      as (I1 & st & sr & Et1 & St1).
    destruct (select_inputs_stops amounts false nFee T ins _ W I1)
      as (I2 & ot & or_ & Et2 & St2).
    split; [exact I2|]. rewrite filter_staked in St1.
    rewrite filter_not_staked in St2. rewrite Et1 in Et2, St2.
    exists st, sr, ot, or_.
    split; [exact Et2|]. split; [exact St1 | exact St2].
  - destruct (select_inputs_stops amounts true nFee T ins s0 W I0)
      as (I1 & st & sr & Et1 & St1).
    destruct (select_inputs_stops amounts false nFee T ins _ W I1)
      as (I2 & ot & or_ & Et2 & St2).
    split; [exact I2|]. rewrite filter_staked in St1.
    rewrite filter_not_staked in St2. rewrite Et1 in Et2, St2.
    exists st, sr, ot, or_.
    split; [exact Et2|]. split; [exact St1 | exact St2].
Qed.

(** A pass reads the totals of [nAmounts] as it found them. *)
Lemma BuildTx_iter_reads_amounts this_tx og os ins cd minStake type amounts nFee rng :
  TokenMap.wf ins ->
  forall T,
    TokenMap.get Amounts_zero T
      (iter_amounts
         (BuildTx_iter this_tx og os ins cd minStake type amounts nFee rng)) =
    TokenMap.get Amounts_zero T amounts.
Proof.
  intros W T.
  destruct (BuildTx_select_stops this_tx og os ins type amounts nFee T W)
    as ([_ Ha] & _).
  unfold BuildTx_iter.
  destruct (check_amounts _ _ _ _) as [[mi mc] |]; [| apply Ha].
  destruct (fold_left _ mc _) as [[[t g] sg] rng'].
  destruct (nFee =? fee_for t); apply Ha.
Qed.

Lemma BuildTx_loop_last_pass_amounts this_tx og os ins cd minStake type amounts0 :
  TokenMap.wf ins ->
  forall fuel amounts nFee rng r amounts',
    (forall T, TokenMap.get Amounts_zero T amounts =
               TokenMap.get Amounts_zero T amounts0) ->
    BuildTx_loop fuel this_tx og os ins cd minStake type amounts nFee rng =
      Done (Some r, amounts') ->
    exists amounts1 nFee1 rng1,
      (forall T, TokenMap.get Amounts_zero T amounts1 =
                 TokenMap.get Amounts_zero T amounts0)
      /\ BuildTx_iter this_tx og os ins cd minStake type amounts1 nFee1 rng1 =
           IterReturn r.
Proof.
  intros W.
  induction fuel as [| fuel IH]; intros amounts nFee rng r amounts' Ha L;
    cbn [BuildTx_loop] in L; [discriminate|].
  pose proof (BuildTx_iter_reads_amounts this_tx og os ins cd minStake type
                amounts nFee rng W) as Hr.
  destruct (BuildTx_iter this_tx og os ins cd minStake type amounts nFee rng)
    as [am | r1 | nFee' rng' am] eqn:It.
  - discriminate.
  - inversion L. subst. exists amounts, nFee, rng. split; [exact Ha | exact It].
  - cbn [iter_amounts] in Hr. eapply IH; [| exact L].
    intros T. rewrite Hr. apply Ha.
Qed.

(** [BuildTx] spends the inputs of a token in the order in which they were
    added.  For the two staking types it first walks the token's
    staked-commitment inputs and then its other inputs; for [NORMAL] it walks
    the other inputs only, so a [NORMAL] transaction spends no staked
    commitment.  Each walk takes its first input in any case, and goes on to
    the next one only while the 64-bit sum of the token's inputs taken so far
    (in both walks) does not exceed the token's output total plus the fee;
    it leaves inputs behind only once that sum exceeds it. *)
Theorem BuildTx_spends_inputs_in_order :
  forall (fuel : nat) (f : TxFactoryBase) (rng : nat)
         (changeDestination : DoublePublicKey) (minStake : CAmount)
         (type : CreateTransactionType) (fSubtractedFee : bool)
         (r : Built) (f' : TxFactoryBase),
    TokenMap.wf (vInputs f) ->
    BuildTx fuel f rng changeDestination minStake type fSubtractedFee =
      Done (Some r, f') ->
    (forall T,
        spends_in_order type
          (Int64.add
             (nFromOutputs (TokenMap.get Amounts_zero T (nAmounts f)))
             (b_nFee r))
          (TokenMap.get [] T (vInputs f))
          (token_inputs T (b_selected r)))
    /\ (type = NORMAL ->
        forall T i, In (T, i) (b_selected r) ->
                    ui_is_staked_commitment i = false).
Proof.
  intros fuel f rng cd minStake type fSub r f' W B.
  unfold BuildTx in B.
  destruct (emit_outputs (vOutputs f) (CMutableTransaction_default, Scalar_zero, []))
    as [[this_tx og] os].
  destruct (BuildTx_loop fuel this_tx og os (vInputs f) cd minStake type
              (nAmounts f) 0 rng) as [[r0 am] |] eqn:L; [| discriminate].
  inversion B. subst r0 f'. clear B.
  apply (BuildTx_loop_last_pass_amounts this_tx og os (vInputs f) cd minStake
           type (nAmounts f) W) in L; [| reflexivity].
  destruct L as (am1 & nFee1 & rng1 & Ha & It).
  assert (Each : forall T,
             spends_in_order type
               (Int64.add
                  (nFromOutputs (TokenMap.get Amounts_zero T (nAmounts f)))
                  (b_nFee r))
               (TokenMap.get [] T (vInputs f))
               (token_inputs T (b_selected r))).
  { intros T.
    destruct (BuildTx_select_stops this_tx og os (vInputs f) type am1 nFee1 T W)
      as (_ & Sp).
    unfold BuildTx_iter in It.
    destruct (check_amounts _ _ _ _) as [[mi mc] |]; [| discriminate].
    destruct (fold_left _ mc _) as [[[t g] sg] rng'].
    destruct (nFee1 =? fee_for t); [| discriminate].
    inversion It. subst r. cbn [b_nFee b_selected]. rewrite <- Ha. exact Sp. }
  split; [exact Each|].
  intros -> T i I.
  destruct (Each T) as (st & sr & ot & or_ & E & -> & (Eo & _)).
  assert (Ii : In i (token_inputs T (b_selected r))).
  { unfold token_inputs. apply in_map_iff. exists (T, i).
    split; [reflexivity|]. apply filter_In. split; [exact I|].
    apply TokenId_eqb_refl. }
  rewrite E in Ii. cbn [app] in Ii.
  assert (If : In i (filter (fun i => negb (ui_is_staked_commitment i))
                       (TokenMap.get [] T (vInputs f))))
    by (rewrite Eo; apply in_or_app; left; exact Ii).
  apply filter_In in If. destruct If as [_ Hn].
  apply negb_true_iff in Hn. exact Hn.
Qed.

(* --------------------------------------------------------------------- *)
(** ** What [CreateTransaction] hands to [BuildTx]                        *)
(* --------------------------------------------------------------------- *)

(** The input [CreateTransaction] makes of a candidate. *)
Definition input_of_candidate (c : InputCandidates) : UnsignedInput :=
  mkUnsignedInput (mkCTxIn (ic_outpoint c) [] SEQUENCE_FINAL)
    (Scalar_of_int64 (ic_amount c)) (ic_gamma c) (ic_spendingKey c)
    (ic_is_staked_commitment c).

(** The candidates [CreateTransaction] passes on to [AddInput]: all of them
    for the two staking types, those that are no staked commitment for
    [NORMAL]. *)
Definition candidate_is_used (type : CreateTransactionType)
    (c : InputCandidates) : bool :=
  match type with
  | NORMAL => negb (ic_is_staked_commitment c)
  | _ => true
  end.

Lemma In_ensure {V : Type} (d : V) k x m :
  In x (if TokenMap.mem k m then m else TokenMap.set k d m) ->
  x = (k, d) \/ In x m.
Proof.
  destruct (TokenMap.mem k m); [right; assumption | apply TokenMap.In_set].
Qed.

Lemma In_touch {V : Type} (d : V) k x m :
  In x (TokenMap.touch d k m) -> x = (k, d) \/ In x m.
Proof.
  unfold TokenMap.touch.
  destruct (TokenMap.find k m); [right; assumption | apply TokenMap.In_set].
Qed.

Lemma add_candidate_inputs f c T l i :
  In (T, l) (vInputs (add_candidate f c)) -> In i l ->
  (T = ic_token_id c /\ i = input_of_candidate c)
  \/ exists l0, In (T, l0) (vInputs f) /\ In i l0.
Proof.
  unfold add_candidate, AddInput. cbn [fst vInputs]. intros I Ii.
  apply TokenMap.In_set in I. destruct I as [E | I].
  - inversion E. subst T l. clear E. apply in_app_or in Ii.
    destruct Ii as [Ii | [E | []]].
    + right. rewrite get_ensure in Ii. unfold TokenMap.get in Ii.
      destruct (TokenMap.find (ic_token_id c) (vInputs f)) as [l0 |] eqn:F;
        [| destruct Ii].
      exists l0. split; [apply TokenMap.find_In, F | exact Ii].
    + left. split; [reflexivity|]. subst i. unfold input_of_candidate.
      destruct (ic_outpoint c). reflexivity.
  - apply In_touch in I. destruct I as [E | I];
      [inversion E; subst; destruct Ii|].
    apply In_ensure in I. destruct I as [E | I];
      [inversion E; subst; destruct Ii|].
    right. exists l. split; assumption.
Qed.

Lemma add_candidate_frame f c :
  vOutputs (add_candidate f c) = vOutputs f
  /\ tx (add_candidate f c) = tx f.
Proof. split; reflexivity. Qed.

(** The factory the candidate loop fills holds only inputs made of used
    candidates, and no output. *)
Definition holds_candidates (type : CreateTransactionType)
    (cands : list InputCandidates) (f : TxFactoryBase) : Prop :=
  vOutputs f = []
  /\ forall T l i,
       In (T, l) (vInputs f) -> In i l ->
       exists c,
         In c cands /\ candidate_is_used type c = true
         /\ T = ic_token_id c /\ i = input_of_candidate c.

Lemma stake_candidates_hold all :
  forall cands f acc,
    (forall c, In c cands -> In c all) ->
    holds_candidates STAKED_COMMITMENT all f ->
    holds_candidates STAKED_COMMITMENT all
      (fst (fold_left stake_candidate cands (f, acc))).
Proof.
  induction cands as [| c rest IH]; intros f acc Sub H; cbn [fold_left];
    [exact H|].
  unfold stake_candidate at 2. apply IH.
  - intros c' I. apply Sub. right. exact I.
  - destruct H as (Ho & Hi). split; [exact Ho|].
    intros T l i I Ii.
    destruct (add_candidate_inputs _ _ _ _ _ I Ii) as [[-> ->] | (l0 & I0 & Ii0)].
    + exists c. split; [apply Sub; left; reflexivity|].
      split; [reflexivity|]. split; reflexivity.
    + exact (Hi T l0 i I0 Ii0).
Qed.

Lemma other_candidates_hold type all :
  type <> STAKED_COMMITMENT ->
  forall cands f acc,
    (forall c, In c cands -> In c all) ->
    holds_candidates type all f ->
    holds_candidates type all
      (fst (fold_left (other_candidate type) cands (f, acc))).
Proof.
  intros Nt.
  induction cands as [| c rest IH]; intros f acc Sub H; cbn [fold_left];
    [exact H|].
  assert (Step : forall acc',
             holds_candidates type all (add_candidate f c) ->
             holds_candidates type all
               (fst (fold_left (other_candidate type) rest
                       (add_candidate f c, acc')))).
  { intros acc' H'. apply IH; [| exact H'].
    intros c' I. apply Sub. right. exact I. }
  assert (Added : candidate_is_used type c = true ->
                  holds_candidates type all (add_candidate f c)).
  { intros U. destruct H as (Ho & Hi). split; [exact Ho|].
    intros T l i I Ii.
    destruct (add_candidate_inputs _ _ _ _ _ I Ii) as [[-> ->] | (l0 & I0 & Ii0)].
    - exists c. split; [apply Sub; left; reflexivity|].
      split; [exact U|]. split; reflexivity.
    - exact (Hi T l0 i I0 Ii0). }
  unfold other_candidate at 2.
  destruct (ic_is_staked_commitment c) eqn:St.
  - destruct type; cbn [CreateTransactionType_eqb orb negb].
    + apply IH; [| exact H]. intros c' I. apply Sub. right. exact I.
    + contradiction.
    + apply Step, Added. reflexivity.
  - apply Step, Added. destruct type; cbn; rewrite ?St; reflexivity.
Qed.

(** The inputs of a returning pass are inputs of the factory. *)
Lemma BuildTx_selected_from_inputs fuel f rng cd minStake type fSub r f' :
  BuildTx fuel f rng cd minStake type fSub = Done (Some r, f') ->
  vin (b_tx r) = map ui_in (map snd (b_selected r))
  /\ forall T i, In (T, i) (b_selected r) ->
                 exists l, In (T, l) (vInputs f) /\ In i l.
Proof.
  intros B. unfold BuildTx in B. rewrite emit_outputs_spec in B.
  cbn [CMutableTransaction_default nVersion vin vout txSig app] in B.
  destruct (BuildTx_loop _ _ _ _ _ _ _ _ _ _ _) as [[r0 am] |] eqn:L;
    [| discriminate].
  inversion B. subst r0 f'. clear B.
  apply BuildTx_loop_last_pass in L.
  destruct L as (_ & am1 & nFee1 & rng1 & _ & It).
  pose proof (BuildTx_iter_returned _ _ _ _ _ _ _ _ _ _ _ It) as (_ & _ & Tx).
  split; [rewrite Tx; reflexivity|].
  unfold BuildTx_iter in It.
  set (s2 := BuildTx_select _ _ _ _ _ _ _) in *.
  assert (From : forall T i, In (T, i) (ls_selected s2) ->
                             exists l, In (T, l) (vInputs f) /\ In i l).
  { subst s2. unfold BuildTx_select.
    set (s0 := mkLoopState _ _ _ TokenMap.empty am1 []).
    set (P := fun s : LoopState =>
                forall T i, In (T, i) (ls_selected s) ->
                            exists l, In (T, l) (vInputs f) /\ In i l).
    assert (P0 : P s0) by (intros T i []).
    assert (Step : forall k l i s,
               In (k, l) (vInputs f) -> In i l -> P s ->
               P (fst (take_input nFee1 k i s))).
    { intros k l i s Ik Ii Ps T i' I. unfold take_input in I.
      cbn [fst ls_selected] in I. apply in_app_or in I.
      destruct I as [I | [E | []]]; [exact (Ps T i' I)|].
      inversion E. subst. exists l. split; assumption. }
    apply (select_inputs_preserves P); [exact Step|].
    destruct (_ || _); [| exact P0].
    apply (select_inputs_preserves P); [exact Step | exact P0]. }
  destruct (check_amounts _ _ _ _) as [[mi mc] |]; [| discriminate].
  destruct (fold_left _ mc _) as [[[t g] sg] rng'].
  destruct (nFee1 =? fee_for t); [| discriminate].
  inversion It. subst r. exact From.
Qed.

(** The factory [CreateTransaction] builds from (specification only): the
    candidates it passes on are filed as inputs, then the outputs are
    added. *)
Definition staking_outputs (rng : nat) (cands : list InputCandidates)
    (destination : SubAddress) (nAmount : CAmount) (sMemo : string)
    (token_id : TokenId) (type : CreateTransactionType) (minStake : CAmount)
    : list UnsignedOutput :=
  let make amount rng type :=
    CreateOutput (GetKeys destination) amount sMemo token_id (Rand rng) type
      minStake in
  match type with
  | STAKED_COMMITMENT =>
      [make (Int64.add nAmount (staked_total cands)) rng STAKED_COMMITMENT]
  | STAKED_COMMITMENT_UNSTAKE =>
      let rest := Int64.sub (staked_total cands) nAmount in
      if rest >? 0 then
        [make rest rng STAKED_COMMITMENT;
         make nAmount (S rng) STAKED_COMMITMENT_UNSTAKE]
      else [make nAmount rng STAKED_COMMITMENT_UNSTAKE]
  | NORMAL => [make nAmount rng NORMAL]
  end.

Lemma AddOutput_first f rng destination nAmount sMemo token_id type minStake :
  vOutputs f = [] ->
  let r := AddOutput f rng destination nAmount sMemo token_id type minStake
             false in
  vOutputs (fst r) =
    [(token_id,
      [CreateOutput (GetKeys destination) nAmount sMemo token_id (Rand rng)
         type minStake])]
  /\ snd r = S rng /\ vInputs (fst r) = vInputs f.
Proof.
  intros E. cbv zeta. unfold AddOutput. cbn [fst snd vOutputs vInputs].
  rewrite E. unfold TokenMap.mem, TokenMap.get, TokenMap.touch.
  cbn [TokenMap.find TokenMap.set]. rewrite ?TokenId_eqb_refl.
  cbn [TokenMap.find TokenMap.set app]. rewrite ?TokenId_eqb_refl.
  cbn [TokenMap.set]. rewrite ?TokenId_compare_refl.
  split; [reflexivity|]. split; reflexivity.
Qed.

Lemma AddOutput_second f rng destination nAmount sMemo token_id type minStake l :
  vOutputs f = [(token_id, l)] ->
  let r := AddOutput f rng destination nAmount sMemo token_id type minStake
             false in
  vOutputs (fst r) =
    [(token_id,
      l ++ [CreateOutput (GetKeys destination) nAmount sMemo token_id (Rand rng)
              type minStake])]
  /\ snd r = S rng /\ vInputs (fst r) = vInputs f.
Proof.
  intros E. cbv zeta. unfold AddOutput. cbn [fst snd vOutputs vInputs].
  rewrite E. unfold TokenMap.mem, TokenMap.get, TokenMap.touch.
  cbn [TokenMap.find TokenMap.set]. rewrite ?TokenId_eqb_refl.
  cbn [TokenMap.find TokenMap.set app]. rewrite ?TokenId_eqb_refl.
  cbn [TokenMap.set]. rewrite ?TokenId_compare_refl.
  split; [reflexivity|]. split; reflexivity.
Qed.

(** The call of [BuildTx] that ends [CreateTransaction]. *)
Lemma CreateTransaction_builds fuel rng cands cd destination nAmount sMemo
    token_id type minStake r :
  CreateTransaction fuel rng cands cd destination nAmount sMemo token_id type
    minStake = Ok (Done (Some r)) ->
  exists f rng' f',
    holds_candidates type cands
      (mkTxFactoryBase (tx f) [] (vInputs f) (nAmounts f))
    /\ requested_outputs f =
         staking_outputs rng cands destination nAmount sMemo token_id type
           minStake
    /\ BuildTx fuel f rng' cd minStake type false = Done (Some r, f').
Proof.
  intros C. unfold CreateTransaction in C.
  assert (H0 : forall t, holds_candidates t cands TxFactoryBase_new).
  { intros t. split; [reflexivity|]. intros T l i []. }
  destruct type; cbn [CreateTransactionType_eqb] in C.
  - pose proof (other_candidates_hold NORMAL cands ltac:(discriminate) cands
                  TxFactoryBase_new 0 (fun c I => I) (H0 NORMAL)) as H.
    unfold CAmount in *.
    match type of H with
    | holds_candidates _ _ (fst ?p) => destruct p as [f tot]
    end. cbn [fst] in H.
    destruct H as (Ho & Hi).
    destruct (AddOutput_first f rng destination nAmount sMemo token_id NORMAL
                minStake Ho) as (Eo & Er & Ei).
    destruct (AddOutput f rng destination nAmount sMemo token_id NORMAL minStake
                false) as [f1 rng1]. cbn [fst snd] in *.
    destruct (BuildTx fuel f1 rng1 cd minStake NORMAL false) as [[r0 f'] |] eqn:B;
      [| discriminate].
    inversion C. subst r0. exists f1, rng1, f'.
    split; [split; [reflexivity | rewrite Ei; exact Hi]|].
    split; [| exact B].
    unfold requested_outputs. rewrite Eo. reflexivity.
  - pose proof (stake_candidates_hold cands cands TxFactoryBase_new 0
                  (fun c I => I) (H0 STAKED_COMMITMENT)) as H.
    pose proof (stake_candidate_total cands TxFactoryBase_new 0) as T.
    fold (staked_total cands) in T. unfold CAmount in *.
    match type of H with
    | holds_candidates _ _ (fst ?p) => destruct p as [f tot]
    end. cbn [fst snd] in H, T. subst tot.
    destruct (Int64.add nAmount (staked_total cands) <? minStake);
      [discriminate|].
    destruct H as (Ho & Hi).
    destruct (AddOutput_first f rng destination
                (Int64.add nAmount (staked_total cands)) sMemo token_id
                STAKED_COMMITMENT minStake Ho) as (Eo & Er & Ei).
    destruct (AddOutput f rng destination _ sMemo token_id STAKED_COMMITMENT
                minStake false) as [f1 rng1]. cbn [fst snd] in *.
    destruct (BuildTx fuel f1 rng1 cd minStake STAKED_COMMITMENT false)
      as [[r0 f'] |] eqn:B; [| discriminate].
    inversion C. subst r0. exists f1, rng1, f'.
    split; [split; [reflexivity | rewrite Ei; exact Hi]|].
    split; [| exact B].
    unfold requested_outputs. rewrite Eo. reflexivity.
  - pose proof (other_candidates_hold STAKED_COMMITMENT_UNSTAKE cands
                  ltac:(discriminate) cands TxFactoryBase_new 0 (fun c I => I)
                  (H0 STAKED_COMMITMENT_UNSTAKE)) as H.
    pose proof (unstake_candidate_total cands TxFactoryBase_new 0) as T.
    fold (staked_total cands) in T. unfold CAmount in *.
    match type of H with
    | holds_candidates _ _ (fst ?p) => destruct p as [f tot]
    end. cbn [fst snd] in H, T. subst tot.
    destruct (Int64.sub (staked_total cands) nAmount <? 0); [discriminate|].
    destruct ((Int64.sub (staked_total cands) nAmount <? minStake)
              && (Int64.sub (staked_total cands) nAmount >? 0));
      [discriminate|].
    destruct H as (Ho & Hi).
    unfold staking_outputs.
    destruct (Int64.sub (staked_total cands) nAmount >? 0).
    + destruct (AddOutput_first f rng destination
                  (Int64.sub (staked_total cands) nAmount) sMemo token_id
                  STAKED_COMMITMENT minStake Ho) as (Eo & Er & Ei).
      destruct (AddOutput f rng destination _ sMemo token_id STAKED_COMMITMENT
                  minStake false) as [f1 rng1]. cbn [fst snd] in *.
      destruct (AddOutput_second f1 rng1 destination nAmount sMemo token_id
                  STAKED_COMMITMENT_UNSTAKE minStake _ Eo) as (Eo2 & Er2 & Ei2).
      destruct (AddOutput f1 rng1 destination nAmount sMemo token_id
                  STAKED_COMMITMENT_UNSTAKE minStake false) as [f2 rng2].
      cbn [fst snd] in *.
      destruct (BuildTx fuel f2 rng2 cd minStake STAKED_COMMITMENT_UNSTAKE false)
        as [[r0 f'] |] eqn:B; [| discriminate].
      inversion C. subst r0. exists f2, rng2, f'.
      split; [split; [reflexivity | rewrite Ei2, Ei; exact Hi]|].
      split; [| exact B].
      unfold requested_outputs. rewrite Eo2, Er. reflexivity.
    + destruct (AddOutput_first f rng destination nAmount sMemo token_id
                  STAKED_COMMITMENT_UNSTAKE minStake Ho) as (Eo & Er & Ei).
      destruct (AddOutput f rng destination nAmount sMemo token_id
                  STAKED_COMMITMENT_UNSTAKE minStake false) as [f1 rng1].
      cbn [fst snd] in *.
      destruct (BuildTx fuel f1 rng1 cd minStake STAKED_COMMITMENT_UNSTAKE false)
        as [[r0 f'] |] eqn:B; [| discriminate].
      inversion C. subst r0. exists f1, rng1, f'.
      split; [split; [reflexivity | rewrite Ei; exact Hi]|].
      split; [| exact B].
      unfold requested_outputs. rewrite Eo. reflexivity.
Qed.

(** Every input of a transaction [CreateTransaction] returns is made of one
    of the candidates, with an empty script and the final sequence number;
    for [NORMAL] that candidate is no staked commitment. *)
Theorem CreateTransaction_spends_candidates_only :
  forall (fuel rng : nat) (inputCandidates : list InputCandidates)
         (changeDestination : DoublePublicKey) (destination : SubAddress)
         (nAmount : CAmount) (sMemo : string) (token_id : TokenId)
         (type : CreateTransactionType) (minStake : CAmount) (r : Built),
    CreateTransaction fuel rng inputCandidates changeDestination destination
      nAmount sMemo token_id type minStake = Ok (Done (Some r)) ->
    forall txin,
      In txin (vin (b_tx r)) ->
      exists c,
        In c inputCandidates
        /\ txin = mkCTxIn (ic_outpoint c) [] SEQUENCE_FINAL
        /\ (type = NORMAL -> ic_is_staked_commitment c = false).
Proof.
  intros fuel rng cands cd destination nAmount sMemo token_id type minStake r C
         txin I.
  apply CreateTransaction_builds in C.
  destruct C as (f & rng' & f' & (_ & Hi) & _ & B). cbn [vInputs] in Hi.
  apply BuildTx_selected_from_inputs in B. destruct B as (Vin & From).
  rewrite Vin in I. apply in_map_iff in I. destruct I as (i & <- & I).
  apply in_map_iff in I. destruct I as ([T i'] & E & I). cbn in E. subst i'.
  destruct (From T i I) as (l & Il & Ii).
  destruct (Hi T l i Il Ii) as (c & Ic & U & _ & ->).
  exists c. split; [exact Ic|]. split; [reflexivity|].
  intros ->. cbn in U. apply negb_true_iff in U. exact U.
Qed.

(** The outputs of a transaction [CreateTransaction] returns start with the
    outputs it asked for: for [NORMAL], one output of [nAmount]; for
    [STAKED_COMMITMENT], one staked output of [nAmount] plus everything the
    candidates had staked; for [STAKED_COMMITMENT_UNSTAKE], a staked output
    of what stays staked, when that is positive, and then the output of
    [nAmount].  Change outputs follow, and the fee output is the last. *)
Theorem CreateTransaction_requested_outputs :
  forall (fuel rng : nat) (inputCandidates : list InputCandidates)
         (changeDestination : DoublePublicKey) (destination : SubAddress)
         (nAmount : CAmount) (sMemo : string) (token_id : TokenId)
         (type : CreateTransactionType) (minStake : CAmount) (r : Built),
    CreateTransaction fuel rng inputCandidates changeDestination destination
      nAmount sMemo token_id type minStake = Ok (Done (Some r)) ->
    exists changes,
      vout (b_tx r) =
        map uo_out
          (staking_outputs rng inputCandidates destination nAmount sMemo
             token_id type minStake)
        ++ map uo_out changes ++ [CTxOut_of (b_nFee r) [OP_RETURN]].
Proof.
  intros fuel rng cands cd destination nAmount sMemo token_id type minStake r C.
  apply CreateTransaction_builds in C.
  destruct C as (f & rng' & f' & _ & Eo & B).
  apply BuildTx_vout in B. rewrite Eo in B. exact B.
Qed.

End WithBackend.
End TxFactory.

(* ===================================================================== *)
(** * The transaction factory on a concrete backend                       *)
(* ===================================================================== *)

Module TxFactoryExamples.
Import TxFactory.

(** The order of the scalar field of BLS12-381. *)
Definition Fr_order : Z :=
  0x73eda753299d7d483339d80809a1d80553bda402fffe5bfeffffffff00000001.

(** An output that shows what it commits to. *)
Record SampleOut : Type := mkSampleOut
  { so_nValue : CAmount;
    so_scriptPubKey : CScript;
    so_tokenId : TokenId;
    so_commitment : option (CAmount * Z)%type }.

(** Scalars are integers modulo the field order; a signature is the list of
    the (key, message) pairs it signs; amounts are printed in decimal. *)
#[local] Instance sample_backend : Backend :=
  {| Scalar := Z;
     PrivateKey := Z;
     Signature := list (Z * uint256)%type;
     CTxOut := SampleOut;
     DoublePublicKey := Z;
     SubAddress := Z;
     Scalar_zero := 0;
     Scalar_add := fun x y => (x + y) mod Fr_order;
     Scalar_sub := fun x y => (x - y) mod Fr_order;
     Scalar_of_int64 := fun x => x mod Fr_order;
     GetUint64 := fun x => x mod 2 ^ 64;
     Rand := fun k => 1000 + Z.of_nat k;
     PrivateKey_of_Scalar := fun x => x;
     Sign := fun sk m => [(sk, m)];
     SignBalance := fun sk => [(sk, 0%N)];
     Aggregate := @List.concat (Z * uint256)%type;
     Signature_default := [];
     CTxIn_GetHash :=
       fun i => (hash (prevout i) * 2 ^ 32 + Z.to_N (n (prevout i)))%N;
     CTxOut_GetHash := fun o => Z.to_N (so_nValue o);
     CTxOut_of := fun v s => mkSampleOut v s TokenId_default None;
     GetKeys := fun x => x;
     CURRENT_VERSION := 2;
     BLSCT_MARKER := 32;
     BLSCT_DEFAULT_FEE := 125;
     GetTransactioOutputWeight := fun _ => 1000;
     FormatMoney := fun z => DecimalString.NilZero.string_of_int (Z.to_int z) |}.

(** Every output weighs 1000 and every input 160, on top of 40. *)
#[local] Instance sample_collaborators : Collaborators :=
  {| CreateOutput :=
       fun dest amount memo tok gamma type minStake =>
         mkUnsignedOutput (mkSampleOut 0 [] tok (Some (amount, gamma)))
           ((gamma + dest) mod Fr_order) gamma;
     GetTransactionWeight :=
       fun t =>
         40 + 160 * Z.of_nat (List.length (vin t))
         + 1000 * Z.of_nat (List.length (vout t)) |}.

(** One output of 300000 and one input of 1000000 of the base token. *)
Definition sample_factory : TxFactoryBase :=
  fst (AddInput
         (fst (AddOutput TxFactoryBase_new 0 7 300000 "memo" TokenId_default
                 NORMAL 0 false))
         1000000 11 5 TokenId_default (mkCOutPoint 1%N 0) false false).

Definition sample_amounts : Amounts := mkAmounts 1000000 300000.


(** A staked coin of 500 offered to [CreateTransaction]. *)
Definition staked_coin : InputCandidates :=
  mkInputCandidates 500 11 5 TokenId_default (mkCOutPoint 1%N 0) true.

Example sample_factory_wf : TokenMap.wf (nAmounts sample_factory).
Proof. constructor; [intros k' v' [] | constructor]. Qed.

(** What [BuildTx] returns for [sample_factory], and the factory it leaves. *)
Definition sample_built : Built.
Proof.
  let v := eval vm_compute in (BuildTx 3 sample_factory 1 9 0 NORMAL false) in
  match v with Done (Some ?r, _) => exact r end.
Defined.

Definition sample_after : TxFactoryBase.
Proof.
  let v := eval vm_compute in (BuildTx 3 sample_factory 1 9 0 NORMAL false) in
  match v with Done (_, ?f) => exact f end.
Defined.

(** The build of [sample_factory] settles in its second pass: fee 275000
    and a change of 425000. *)
Example sample_build :
  BuildTx 3 sample_factory 1 9 0 NORMAL false = Done (Some sample_built, sample_after)
  /\ BuildTx 1 sample_factory 1 9 0 NORMAL false = OutOfFuel
  /\ b_nFee sample_built = 275000
  /\ b_mapChange sample_built = [(TokenId_default, 425000)]
  /\ List.length (vout (b_tx sample_built)) = 3%nat.
Proof. repeat split; reflexivity. Qed.

(** C1, as stated, fails: the build of [sample_factory] consumes 1000000 of
    the base token, while the requested outputs and the fee add up to
    575000. *)
Lemma BuildTx_consumed_exceeds_outputs_plus_fee :
  BuildTx 3 sample_factory 1 9 0 NORMAL false = Done (Some sample_built, sample_after)
  /\ TokenMap.find TokenId_default (nAmounts sample_factory) =
       Some sample_amounts
  /\ selected_value TokenId_default (b_selected sample_built) = 1000000
  /\ nFromOutputs sample_amounts
     + tokenFee TokenId_default (b_nFee sample_built) = 575000.
Proof. repeat split; reflexivity. Qed.

(** [BuildTx_balance_with_change] at [sample_factory]. *)
Lemma BuildTx_balance_with_change_witness :
  TokenMap.wf (nAmounts sample_factory)
  /\ BuildTx 3 sample_factory 1 9 0 NORMAL false =
       Done (Some sample_built, sample_after)
  /\ exists c,
       TokenMap.find TokenId_default (b_mapChange sample_built) = Some c
       /\ Int64.wrap (selected_value TokenId_default (b_selected sample_built)) =
            Int64.wrap
              (nFromOutputs sample_amounts + c
               + tokenFee TokenId_default (b_nFee sample_built)).
Proof.
  assert (W : TokenMap.wf (nAmounts sample_factory))
    by (constructor; [intros k' v' [] | constructor]).
  assert (B : BuildTx 3 sample_factory 1 9 0 NORMAL false =
              Done (Some sample_built, sample_after))
    by reflexivity.
  split; [exact W|]. split; [exact B|].
  destruct (BuildTx_balance_with_change (backend := sample_backend) 3
              sample_factory 1 9 0 NORMAL false
              sample_built sample_after W B) as (_ & _ & H).
  destruct (H TokenId_default sample_amounts eq_refl) as (c & Hc & Hw & _).
  exists c. split; assumption.
Defined.



(** [BuildTx_fee_loop_diverges] for an output of 300000 and an input of
    575000: the fee is 150000 without and 275000 with a change output, and
    575000 = 300000 + 275000.  A thousand passes do not end the loop. *)
Lemma BuildTx_fee_loop_diverges_witness :
  BuildTx 1000 (oscillating_factory 7 300000 575000 0 11 5 (mkCOutPoint 1%N 0) "memo")
    1 9 0 NORMAL false
  = OutOfFuel.
Proof.
  apply (BuildTx_fee_loop_diverges (backend := sample_backend) 7 9 300000 575000 0 150000 275000 11 5
           (mkCOutPoint 1%N 0) "memo").
  - reflexivity.
  - intros c. reflexivity.
  - lia.
  - lia.
  - lia.
  - reflexivity.
  - reflexivity.
Defined.

(** Three inputs of 200000, 500000 and 400000 for an output of 300000. *)
Definition three_inputs_factory : TxFactoryBase :=
  fst (AddInput
         (fst (AddInput
                 (fst (AddInput
                         (fst (AddOutput TxFactoryBase_new 0 7 300000 "memo"
                                 TokenId_default NORMAL 0 false))
                         200000 11 5 TokenId_default (mkCOutPoint 1%N 0) false
                         false))
                 500000 12 5 TokenId_default (mkCOutPoint 2%N 0) false false))
         400000 13 5 TokenId_default (mkCOutPoint 3%N 0) false false).

Definition three_inputs_built : Built.
Proof.
  let v := eval vm_compute in
    (BuildTx 3 three_inputs_factory 1 9 0 NORMAL false) in
  match v with Done (Some ?r, _) => exact r end.
Defined.

Definition three_inputs_after : TxFactoryBase.
Proof.
  let v := eval vm_compute in
    (BuildTx 3 three_inputs_factory 1 9 0 NORMAL false) in
  match v with Done (_, ?f) => exact f end.
Defined.

(** The build spends the first two inputs: 200000 does not exceed the
    output plus the fee of 295000, 700000 does. *)
Example three_inputs_build :
  BuildTx 3 three_inputs_factory 1 9 0 NORMAL false =
    Done (Some three_inputs_built, three_inputs_after)
  /\ b_nFee three_inputs_built = 295000
  /\ map prevout (vin (b_tx three_inputs_built)) =
       [mkCOutPoint 1%N 0; mkCOutPoint 2%N 0]
  /\ b_mapChange three_inputs_built = [(TokenId_default, 105000)].
Proof. repeat split; reflexivity. Qed.

(** [BuildTx_returned_transaction] at [three_inputs_factory]. *)
Lemma BuildTx_returned_transaction_witness :
  exists rng' : nat,
    (1 <= rng')%nat
    /\ b_nFee three_inputs_built =
         fee_for
           (mkCMutableTransaction (Z.lor CURRENT_VERSION BLSCT_MARKER)
              (map ui_in (map snd (b_selected three_inputs_built)))
              (map uo_out (requested_outputs three_inputs_factory)
               ++ map uo_out
                    (change_outputs 9 0 (b_mapChange three_inputs_built) rng'))
              Signature_default)
    /\ vout (b_tx three_inputs_built) =
         (map uo_out (requested_outputs three_inputs_factory)
          ++ map uo_out
               (change_outputs 9 0 (b_mapChange three_inputs_built) rng'))
         ++ [CTxOut_of (b_nFee three_inputs_built) [OP_RETURN]].
Proof.
  assert (B : BuildTx 3 three_inputs_factory 1 9 0 NORMAL false =
              Done (Some three_inputs_built, three_inputs_after))
    by reflexivity.
  destruct (BuildTx_returned_transaction _ _ _ _ _ _ _ _ _ B)
    as (rng' & Le & Fee & Tx & _).
  exists rng'. split; [exact Le|]. split; [exact Fee|].
  rewrite Tx. reflexivity.
Defined.

(** [BuildTx_spends_inputs_in_order] at [three_inputs_factory]. *)
Lemma BuildTx_spends_inputs_in_order_witness :
  spends_in_order NORMAL (Int64.add 300000 295000)
    (TokenMap.get [] TokenId_default (vInputs three_inputs_factory))
    (token_inputs TokenId_default (b_selected three_inputs_built)).
Proof.
  assert (W : TokenMap.wf (vInputs three_inputs_factory))
    by (constructor; [intros k' v' [] | constructor]).
  assert (B : BuildTx 3 three_inputs_factory 1 9 0 NORMAL false =
              Done (Some three_inputs_built, three_inputs_after))
    by reflexivity.
  exact (proj1 (BuildTx_spends_inputs_in_order _ _ _ _ _ _ _ _ _ W B)
           TokenId_default).
Defined.

(** A coin that is no staked commitment. *)
Definition plain_coin : InputCandidates :=
  mkInputCandidates 1000000 12 6 TokenId_default (mkCOutPoint 2%N 0) false.

Definition paid : Built.
Proof.
  let v := eval vm_compute in
    (CreateTransaction 3 0 [staked_coin; plain_coin] 9 7 300000 ""
       TokenId_default NORMAL 0) in
  match v with Ok (Done (Some ?r)) => exact r end.
Defined.

Definition unstaked : Built.
Proof.
  let v := eval vm_compute in
    (CreateTransaction 3 0 [staked_coin; plain_coin] 9 7 100 ""
       TokenId_default STAKED_COMMITMENT_UNSTAKE 10) in
  match v with Ok (Done (Some ?r)) => exact r end.
Defined.

(** [CreateTransaction_spends_candidates_only] for a payment of 300000 out
    of a staked coin and a plain one: the one input is the plain coin. *)
Lemma CreateTransaction_spends_candidates_only_witness :
  vin (b_tx paid) = [mkCTxIn (mkCOutPoint 2%N 0) [] SEQUENCE_FINAL]
  /\ exists c,
       In c [staked_coin; plain_coin]
       /\ mkCTxIn (mkCOutPoint 2%N 0) [] SEQUENCE_FINAL =
            mkCTxIn (ic_outpoint c) [] SEQUENCE_FINAL
       /\ (NORMAL = NORMAL -> ic_is_staked_commitment c = false).
Proof.
  assert (C : CreateTransaction 3 0 [staked_coin; plain_coin] 9 7 300000 ""
                TokenId_default NORMAL 0 = Ok (Done (Some paid)))
    by reflexivity.
  split; [reflexivity|].
  exact (CreateTransaction_spends_candidates_only _ _ _ _ _ _ _ _ _ _ _ C
           (mkCTxIn (mkCOutPoint 2%N 0) [] SEQUENCE_FINAL)
           (or_introl eq_refl)).
Defined.

(** [CreateTransaction_requested_outputs] for unstaking 100 of a staked 500:
    400 are staked again, 100 are paid out. *)
Lemma CreateTransaction_requested_outputs_witness :
  staking_outputs 0 [staked_coin; plain_coin] 7 100 "" TokenId_default
    STAKED_COMMITMENT_UNSTAKE 10 =
    [CreateOutput (GetKeys 7) 400 "" TokenId_default (Rand 0)
       STAKED_COMMITMENT 10;
     CreateOutput (GetKeys 7) 100 "" TokenId_default (Rand 1)
       STAKED_COMMITMENT_UNSTAKE 10]
  /\ exists changes,
       vout (b_tx unstaked) =
         map uo_out
           (staking_outputs 0 [staked_coin; plain_coin] 7 100 ""
              TokenId_default STAKED_COMMITMENT_UNSTAKE 10)
         ++ map uo_out changes ++ [CTxOut_of (b_nFee unstaked) [OP_RETURN]].
Proof.
  assert (C : CreateTransaction 3 0 [staked_coin; plain_coin] 9 7 100 ""
                TokenId_default STAKED_COMMITMENT_UNSTAKE 10 =
              Ok (Done (Some unstaked)))
    by reflexivity.
  split; [reflexivity|].
  exact (CreateTransaction_requested_outputs _ _ _ _ _ _ _ _ _ _ _ C).
Defined.

(** The books of a factory after two inputs and an output with the fee
    subtracted. *)
Example books_after_three_calls :
  let s :=
    run_calls 0
      [CallAddInput 200000 11 5 TokenId_default (mkCOutPoint 1%N 0) false false;
       CallAddOutput 7 300000 "memo" TokenId_default NORMAL 0 true;
       CallAddInput 500000 12 5 TokenId_default (mkCOutPoint 2%N 0) false false]
  in
  fl_inputs s = [(TokenId_default, 200000); (TokenId_default, 500000)]
  /\ fl_outputs s = [(TokenId_default, 175000)]
  /\ TokenMap.find TokenId_default (nAmounts (fl_factory s)) =
       Some (mkAmounts 700000 175000).
Proof. repeat split; reflexivity. Qed.

End TxFactoryExamples.

(* ===================================================================== *)
(** * The transaction verifier                                            *)
(* ===================================================================== *)

Module Verification.

(** [TxValidationResult]: the two values [VerifyTx] reports, and the initial
    one. *)
Inductive TxValidationResult : Type :=
| TX_RESULT_UNSET
| TX_CONSENSUS
| TX_MISSING_INPUTS.

Inductive ModeState : Type := M_VALID | M_INVALID | M_ERROR.

(** [TxValidationState], with [ValidationState::Invalid]: it records the
    result and the reject reason, leaves an error state in error, and
    returns [false]. *)
Record TxValidationState : Type := mkTxValidationState
  { m_mode : ModeState;
    m_result : TxValidationResult;
    m_reject_reason : string }.

Definition Invalid (state : TxValidationState) (result : TxValidationResult)
    (reject_reason : string) : TxValidationState * bool :=
  (mkTxValidationState
     (match m_mode state with M_ERROR => M_ERROR | _ => M_INVALID end)
     result reject_reason,
   false).


(** How a step of the verifier ends: it goes on, it rejects the transaction
    through [state.Invalid] (the view [V] is what the step leaves of the
    coins view), or an exception leaves [VerifyTx]. *)
Inductive Step (V A : Type) : Type :=
| Continue (a : A)
| Reject (result : TxValidationResult) (reject_reason : string) (view : V)
| Raise (e : Exception).
Arguments Continue {V A} a.
Arguments Reject {V A} result reject_reason view.
Arguments Raise {V A} e.

Definition bindStep {V A B : Type} (c : Step V A) (k : A -> Step V B)
    : Step V B :=
  match c with
  | Continue a => k a
  | Reject result reason view => Reject result reason view
  | Raise e => Raise e
  end.

Definition liftExc {V A : Type} (c : Exc A) : Step V A :=
  match c with
  | Ok a => Continue a
  | Throw e => Raise e
  end.

(** The chain state, the transaction format, the predicate interpreter and
    the cryptography are collaborators of [verification.cpp]. *)
Class Env : Type :=
  { Point : Type;
    Scalar : Type;
    PublicKey : Type;
    Message : Type;
    Signature : Type;
    CTxIn : Type;
    CTxOut : Type;
    CTransaction : Type;
    COutPoint : Type;
    CCoinsViewCache : Type;
    ParsedPredicate : Type;
    ProofBody : Type;
    (** group and field *)
    Point_zero : Point;
    Point_add : Point -> Point -> Point;
    Point_sub : Point -> Point -> Point;
    Point_mul : Point -> Scalar -> Point;
    Scalar_of_int64 : CAmount -> Scalar;
    Generators_G : TokenId -> Point;
    (** keys, messages, signatures *)
    PublicKey_of_Point : Point -> PublicKey;
    PublicKey_GetHash : PublicKey -> uint256;
    Message_of_hash : uint256 -> Message;
    BLSCTFEE : Message;
    BLSCTBALANCE : Message;
    VerifyBatch : list PublicKey -> list Message -> Signature -> bool -> bool;
    (** the transaction *)
    vin : CTransaction -> list CTxIn;
    vout : CTransaction -> list CTxOut;
    txSig : CTransaction -> Signature;
    IsCoinBase : CTransaction -> bool;
    prevout : CTxIn -> COutPoint;
    CTxIn_GetHash : CTxIn -> uint256;
    CTxOut_GetHash : CTxOut -> uint256;
    nValue : CTxOut -> CAmount;
    tokenId : CTxOut -> TokenId;
    predicate_size : CTxOut -> nat;
    IsFee : CTxOut -> bool;
    IsUnspendable : CTxOut -> bool;
    IsBLSCT : CTxOut -> bool;
    spendingKey : CTxOut -> PublicKey;
    ephemeralKey : CTxOut -> PublicKey;
    rangeProof_Vs : CTxOut -> list Point;
    rangeProof_body : CTxOut -> ProofBody;
    GetStakedCommitmentRangeProof : CTxOut -> option ProofBody;
    MoneyRange : CAmount -> bool;
    (** the view of unspent outputs *)
    HaveInputs : CCoinsViewCache -> CTransaction -> bool;
    GetCoin : CCoinsViewCache -> COutPoint -> option CTxOut;
    (** predicates *)
    ParsedPredicate_default : ParsedPredicate;
    ParsePredicate : CTxOut -> ParsedPredicate;
    IsMintTokenPredicate : ParsedPredicate -> bool;
    IsCreateTokenPredicate : ParsedPredicate -> bool;
    IsMintNftPredicate : ParsedPredicate -> bool;
    IsPayFeePredicate : ParsedPredicate -> bool;
    GetPublicKey : ParsedPredicate -> PublicKey;
    GetAmount : ParsedPredicate -> CAmount;
    GetNftId : ParsedPredicate -> N;
    ExecutePredicate :
      ParsedPredicate -> CCoinsViewCache -> bool * CCoinsViewCache }.

Section WithEnv.

#[local] Set Default Proof Using "Type".

Context {env : Env}.

(** [RangeProofWithSeed]: the commitments and the rest of a range proof,
    the seed that selects the generators, and the minimum value. *)
Record RangeProofWithSeed : Type := mkRangeProofWithSeed
  { rp_Vs : list Point;
    rp_body : ProofBody;
    rp_seed : TokenId;
    rp_min_value : CAmount }.

(** [RangeProofLogic::Verify] over the collected proofs. *)
Variable RangeProofLogic_Verify : list RangeProofWithSeed -> Exc bool.

(** The locals [VerifyTx] fills while it walks the transaction. *)
Record Collected : Type := mkCollected
  { vProofs : list RangeProofWithSeed;
    vMessages : list Message;
    vPubKeys : list PublicKey;
    balanceKey : Point;
    nFee : CAmount;
    view : CCoinsViewCache }.

(** Lines 51-63: one input. *)
Definition verify_input (c : Collected) (i : CTxIn)
    : Step CCoinsViewCache Collected :=
  match GetCoin (view c) (prevout i) with
  | None => Reject TX_MISSING_INPUTS "bad-input-unknown" (view c)
  | Some coin_out =>
      bindStep (liftExc (Elements_at (rangeProof_Vs coin_out) 0)) (fun v0 =>
      Continue
        (mkCollected (vProofs c)
           (vMessages c ++ [Message_of_hash (CTxIn_GetHash i)])
           (vPubKeys c ++ [spendingKey coin_out])
           (Point_add (balanceKey c) v0)
           (nFee c) (view c)))
  end.

(** Lines 73-96: the predicate of an output, if it has one. *)
Definition verify_predicate (c : Collected) (out : CTxOut)
    : Step CCoinsViewCache (Collected * ParsedPredicate) :=
  if (0 <? predicate_size out)%nat then
    let parsedPredicate := ParsePredicate out in
    let msg := Message_of_hash (CTxOut_GetHash out) in
    let key := GetPublicKey parsedPredicate in
    let c1 :=
      if IsMintTokenPredicate parsedPredicate then
        mkCollected (vProofs c) (vMessages c ++ [msg]) (vPubKeys c ++ [key])
          (Point_add (balanceKey c)
             (Point_mul
                (Generators_G
                   (mkTokenId (PublicKey_GetHash key) (subid TokenId_default)))
                (Scalar_of_int64 (GetAmount parsedPredicate))))
          (nFee c) (view c)
      else if IsCreateTokenPredicate parsedPredicate then
        mkCollected (vProofs c) (vMessages c ++ [msg]) (vPubKeys c ++ [key])
          (balanceKey c) (nFee c) (view c)
      else if IsMintNftPredicate parsedPredicate then
        mkCollected (vProofs c) (vMessages c ++ [msg]) (vPubKeys c ++ [key])
          (Point_add (balanceKey c)
             (Point_mul
                (Generators_G
                   (mkTokenId (PublicKey_GetHash key) (GetNftId parsedPredicate)))
                (Scalar_of_int64 1)))
          (nFee c) (view c)
      else if IsFee out && IsPayFeePredicate parsedPredicate then
        mkCollected (vProofs c) (vMessages c ++ [BLSCTFEE]) (vPubKeys c ++ [key])
          (balanceKey c) (nFee c) (view c)
      else c in
    let '(ok, view') := ExecutePredicate parsedPredicate (view c1) in
    if ok then
      Continue
        (mkCollected (vProofs c1) (vMessages c1) (vPubKeys c1) (balanceKey c1)
           (nFee c1) view',
         parsedPredicate)
    else Reject TX_CONSENSUS "failed-to-execute-predicate" view'
  else Continue (c, ParsedPredicate_default).

(** Lines 98-127: the value of an output, confidential or public. *)
Definition verify_value (minStake : CAmount) (c : Collected) (out : CTxOut)
    (parsedPredicate : ParsedPredicate) : Step CCoinsViewCache Collected :=
  if IsBLSCT out then
    let proof :=
      mkRangeProofWithSeed (rangeProof_Vs out) (rangeProof_body out)
        (tokenId out) 0 in
    bindStep (liftExc (Elements_at (rangeProof_Vs out) 0)) (fun v0 =>
    let proofs := vProofs c ++ [proof] in
    let proofs' :=
      match GetStakedCommitmentRangeProof out with
      | Some staked =>
          proofs ++ [mkRangeProofWithSeed [v0] staked TokenId_default minStake]
      | None => proofs
      end in
    Continue
      (mkCollected proofs'
         (vMessages c ++ [Message_of_hash (CTxOut_GetHash out)])
         (vPubKeys c ++ [ephemeralKey out])
         (Point_sub (balanceKey c) v0)
         (nFee c) (view c)))
  else if negb (IsUnspendable out) && (nValue out >? 0) then
    Reject TX_CONSENSUS "spendable-output-with-public-value" (view c)
  else if (nFee c >? 0) || negb (MoneyRange (nValue out)) then
    Reject TX_CONSENSUS "more-than-one-fee-output" (view c)
  else if nValue out =? 0 then Continue c
  else
    Continue
      (mkCollected (vProofs c) (vMessages c) (vPubKeys c)
         (Point_sub (balanceKey c)
            (Point_mul (Generators_G (tokenId out))
               (Scalar_of_int64 (nValue out))))
         (if IsPayFeePredicate parsedPredicate then nValue out else nFee c)
         (view c)).

(** Lines 69-128: one output. *)
Definition verify_output (minStake : CAmount) (c : Collected) (out : CTxOut)
    : Step CCoinsViewCache Collected :=
  bindStep (verify_predicate c out) (fun cp =>
  verify_value minStake (fst cp) out (snd cp)).

(** A [for] loop whose body may reject or throw. *)
Fixpoint for_each {V A S : Type} (body : S -> A -> Step V S) (l : list A)
    (s : S) : Step V S :=
  match l with
  | [] => Continue s
  | x :: rest => bindStep (body s x) (for_each body rest)
  end.

(** Lines 38-128 after the [HaveInputs] test: what the walk collects. *)
Definition collect (tx : CTransaction) (view0 : CCoinsViewCache)
    (blockReward minStake : CAmount) : Step CCoinsViewCache Collected :=
  let balanceKey0 :=
    if blockReward >? 0 then
      Point_mul (Generators_G TokenId_default) (Scalar_of_int64 blockReward)
    else Point_zero in
  let c0 := mkCollected [] [] [] balanceKey0 0 view0 in
  bindStep
    (if IsCoinBase tx then Continue c0 else for_each verify_input (vin tx) c0)
    (fun c1 => for_each (verify_output minStake) (vout tx) c1).

(** Lines 130-133: the batch the signature check runs on. *)
Definition signature_check (tx : CTransaction) (c : Collected) : bool :=
  VerifyBatch (vPubKeys c ++ [PublicKey_of_Point (balanceKey c)])
    (vMessages c ++ [BLSCTBALANCE]) (txSig tx) true.

(** [VerifyTx]: the returned [bool] with the validation state and the view
    as the call leaves them, unless an exception leaves the call. *)
Definition VerifyTx (tx : CTransaction) (view0 : CCoinsViewCache)
    (state : TxValidationState) (blockReward minStake : CAmount)
    : Exc (bool * TxValidationState * CCoinsViewCache) :=
  if negb (HaveInputs view0 tx) then
    let '(state', b) := Invalid state TX_MISSING_INPUTS "bad-inputs-unknown" in
    Ok (b, state', view0)
  else
    match collect tx view0 blockReward minStake with
    | Raise e => Throw e
    | Reject result reason view' =>
        let '(state', b) := Invalid state result reason in
        Ok (b, state', view')
    | Continue c =>
        if negb (signature_check tx c) then
          let '(state', b) := Invalid state TX_CONSENSUS "failed-signature-check" in
          Ok (b, state', view c)
        else
          match RangeProofLogic_Verify (vProofs c) with
          | Throw e => Throw e
          | Ok rpCheck =>
              if negb rpCheck then
                let '(state', b) :=
                  Invalid state TX_CONSENSUS "failed-rangeproof-check" in
                Ok (b, state', view c)
              else Ok (true, state, view c)
          end
    end.

(* --------------------------------------------------------------------- *)
(** ** What an accepted transaction looks like                            *)
(* --------------------------------------------------------------------- *)

(** The predicate [VerifyTx] holds for an output when it comes to its
    value: the parsed one, or the default-constructed one when the output
    has none. *)
Definition predicate_of (out : CTxOut) : ParsedPredicate :=
  if (0 <? predicate_size out)%nat then ParsePredicate out
  else ParsedPredicate_default.

(** Whether the predicate of an output comes with a key that has to sign. *)
Definition has_signing_predicate (out : CTxOut) : bool :=
  (0 <? predicate_size out)%nat
  && (IsMintTokenPredicate (ParsePredicate out)
      || IsCreateTokenPredicate (ParsePredicate out)
      || IsMintNftPredicate (ParsePredicate out)
      || (IsFee out && IsPayFeePredicate (ParsePredicate out))).

(** The keys an output contributes to the signature batch. *)
Definition keys_of (out : CTxOut) : nat :=
  (if has_signing_predicate out then 1 else 0)
  + (if IsBLSCT out then 1 else 0).

(** A predicate contributes as many keys as messages, and touches neither
    the proofs nor the fee. *)
Lemma verify_predicate_continue c out c' p :
  verify_predicate c out = Continue (c', p) ->
  p = predicate_of out
  /\ nFee c' = nFee c
  /\ vProofs c' = vProofs c
  /\ List.length (vPubKeys c') =
       (List.length (vPubKeys c)
        + (if has_signing_predicate out then 1 else 0))%nat
  /\ List.length (vMessages c') =
       (List.length (vMessages c)
        + (if has_signing_predicate out then 1 else 0))%nat.
Proof.
  unfold verify_predicate, predicate_of, has_signing_predicate.
  destruct (0 <? predicate_size out)%nat; cbn [andb].
  - set (c1 := if IsMintTokenPredicate (ParsePredicate out) then _ else _).
    set (k := if _ || _ then 1%nat else 0%nat).
    assert (K : nFee c1 = nFee c /\ vProofs c1 = vProofs c
                /\ List.length (vPubKeys c1) = (List.length (vPubKeys c) + k)%nat
                /\ List.length (vMessages c1) =
                     (List.length (vMessages c) + k)%nat).
    { subst c1 k.
      destruct (IsMintTokenPredicate (ParsePredicate out));
        [cbn; rewrite !length_app; cbn; repeat split; lia|].
      destruct (IsCreateTokenPredicate (ParsePredicate out));
        [cbn; rewrite !length_app; cbn; repeat split; lia|].
      destruct (IsMintNftPredicate (ParsePredicate out));
        [cbn; rewrite !length_app; cbn; repeat split; lia|].
      destruct (IsFee out && IsPayFeePredicate (ParsePredicate out));
        [cbn; rewrite !length_app; cbn; repeat split; lia|].
      cbn. repeat split; lia. }
    destruct (ExecutePredicate (ParsePredicate out) (view c1)) as [ok v1].
    destruct ok; [| discriminate].
    intros H. inversion H. subst. cbn. split; [reflexivity | exact K].
  - intros H. inversion H. subst. repeat split; lia.
Qed.

(** The proofs an output contributes. *)
Definition proofs_of (out : CTxOut) : nat :=
  if IsBLSCT out then
    match GetStakedCommitmentRangeProof out with
    | Some _ => 2
    | None => 1
    end
  else 0.

(** The fee [VerifyTx] remembers after an output that is not confidential
    and is not rejected. *)
Definition fee_after (nFee : CAmount) (out : CTxOut) : CAmount :=
  if nValue out =? 0 then nFee
  else if IsPayFeePredicate (predicate_of out) then nValue out
  else nFee.

Lemma verify_output_continue minStake c out c' :
  verify_output minStake c out = Continue c' ->
  (List.length (vProofs c') = List.length (vProofs c) + proofs_of out)%nat
  /\ (List.length (vPubKeys c') = List.length (vPubKeys c) + keys_of out)%nat
  /\ (List.length (vMessages c') = List.length (vMessages c) + keys_of out)%nat
  /\ (if IsBLSCT out then nFee c' = nFee c
      else
        nFee c <= 0
        /\ MoneyRange (nValue out) = true
        /\ (IsUnspendable out = true \/ nValue out <= 0)
        /\ nFee c' = fee_after (nFee c) out).
Proof.
  unfold verify_output. intros V.
  destruct (verify_predicate c out) as [[c1 p] | r1 m1 v1 | e] eqn:P;
    cbn [bindStep fst snd] in V; try discriminate.
  apply verify_predicate_continue in P.
  destruct P as (-> & N1 & P1 & K1 & M1).
  unfold verify_value, proofs_of, fee_after, keys_of in *.
  destruct (IsBLSCT out).
  - destruct (Elements_at (rangeProof_Vs out) 0) as [v0 | e];
      cbn [liftExc bindStep] in V; [| discriminate].
    inversion V. subst c'. clear V. cbn [vProofs vPubKeys vMessages nFee].
    rewrite !length_app. cbn [List.length]. rewrite P1.
    split; [destruct (GetStakedCommitmentRangeProof out);
            rewrite ?length_app; cbn [List.length]; lia|].
    split; [lia|]. split; [lia | exact N1].
  - destruct (negb (IsUnspendable out) && (nValue out >? 0)) eqn:U;
      [discriminate|].
    destruct ((nFee c1 >? 0) || negb (MoneyRange (nValue out))) eqn:M;
      [discriminate|].
    apply orb_false_elim in M. destruct M as [F1 M2].
    apply negb_false_iff in M2. rewrite Z.gtb_ltb in F1. apply Z.ltb_ge in F1.
    assert (Sp : IsUnspendable out = true \/ nValue out <= 0).
    { apply andb_false_elim in U. destruct U as [U | U].
      - left. apply negb_false_iff in U. exact U.
      - right. rewrite Z.gtb_ltb in U. apply Z.ltb_ge in U. exact U. }
    rewrite N1 in F1.
    destruct (nValue out =? 0).
    + inversion V. subst c'. rewrite P1, N1. split; [lia|]. split; [lia|].
      split; [lia|]. repeat split; assumption.
    + inversion V. subst c'. cbn [vProofs vPubKeys vMessages nFee].
      rewrite P1, N1. split; [lia|]. split; [lia|].
      split; [lia|]. repeat split; assumption.
Qed.

Lemma for_each_continue_app {V A S : Type} (body : S -> A -> Step V S) l1 l2 :
  forall s s',
    for_each body (l1 ++ l2) s = Continue s' ->
    exists s1,
      for_each body l1 s = Continue s1 /\ for_each body l2 s1 = Continue s'.
Proof.
  induction l1 as [| x l1 IH]; intros s s' F; cbn [app for_each] in *.
  - exists s. split; [reflexivity | exact F].
  - destruct (body s x) as [s1 | r m v | e]; cbn [bindStep] in *;
      try discriminate.
    apply IH. exact F.
Qed.

(** The sum of a count over the outputs. *)
Definition total (count : CTxOut -> nat) (outs : list CTxOut) : nat :=
  fold_right (fun out acc => (count out + acc)%nat) 0%nat outs.

(** The walk over the outputs, when it rejects none. *)
Lemma outputs_walk minStake :
  forall outs c c',
    for_each (verify_output minStake) outs c = Continue c' ->
    (List.length (vProofs c') = List.length (vProofs c) + total proofs_of outs)%nat
    /\ (List.length (vPubKeys c') = List.length (vPubKeys c) + total keys_of outs)%nat
    /\ (List.length (vMessages c') =
        List.length (vMessages c) + total keys_of outs)%nat
    /\ (forall out, In out outs -> IsBLSCT out = false ->
          MoneyRange (nValue out) = true
          /\ (IsUnspendable out = true \/ nValue out <= 0))
    /\ (0 < nFee c ->
        nFee c' = nFee c /\ forall out, In out outs -> IsBLSCT out = true).
Proof.
  induction outs as [| out outs IH]; intros c c' F; cbn [for_each] in F.
  - inversion F. subst. cbn. repeat split; try lia; intros out [].
  - destruct (verify_output minStake c out) as [c1 | r m v | e] eqn:V;
      cbn [bindStep] in F; try discriminate.
    apply verify_output_continue in V. destruct V as (P1 & K1 & M1 & B1).
    apply IH in F. destruct F as (P2 & K2 & M2 & T2 & F2).
    cbn [total fold_right]. fold (total proofs_of outs) (total keys_of outs).
    split; [lia|]. split; [lia|]. split; [lia|]. split.
    + intros o [<- | I] Nb; [| exact (T2 o I Nb)].
      rewrite Nb in B1. destruct B1 as (_ & Mr & Sp & _). split; assumption.
    + intros Pos. destruct (IsBLSCT out) eqn:B.
      * rewrite <- B1 in Pos. destruct (F2 Pos) as (E & All).
        split; [rewrite E; exact B1|].
        intros o [<- | I]; [exact B | exact (All o I)].
      * destruct B1 as (Le & _). lia.
Qed.

(** The walk over the inputs, when it rejects none. *)
Lemma inputs_walk :
  forall ins c c',
    for_each verify_input ins c = Continue c' ->
    vProofs c' = vProofs c /\ nFee c' = nFee c
    /\ (List.length (vPubKeys c') = List.length (vPubKeys c) + List.length ins)%nat
    /\ (List.length (vMessages c') =
        List.length (vMessages c) + List.length ins)%nat.
Proof.
  induction ins as [| i ins IH]; intros c c' F; cbn [for_each] in F.
  - inversion F. subst. cbn. repeat split; lia.
  - unfold verify_input at 1 in F.
    destruct (GetCoin (view c) (prevout i)) as [o |]; [| discriminate].
    destruct (Elements_at (rangeProof_Vs o) 0); cbn [liftExc bindStep] in F;
      [| discriminate].
    apply IH in F. cbn [vProofs nFee vPubKeys vMessages] in F.
    rewrite !length_app in F. cbn [List.length] in *.
    destruct F as (P & N & K & M). repeat split; try assumption; lia.
Qed.

(** What the walk starts the outputs from. *)
Lemma collect_continue tx view0 blockReward minStake c :
  collect tx view0 blockReward minStake = Continue c ->
  exists c1,
    for_each (verify_output minStake) (vout tx) c1 = Continue c
    /\ vProofs c1 = [] /\ nFee c1 = 0
    /\ List.length (vPubKeys c1) =
         (if IsCoinBase tx then 0%nat else List.length (vin tx))
    /\ List.length (vMessages c1) = List.length (vPubKeys c1).
Proof.
  unfold collect. set (c0 := mkCollected [] [] [] _ 0 view0).
  destruct (IsCoinBase tx).
  - cbn [bindStep]. intros F. exists c0. repeat split; assumption.
  - destruct (for_each verify_input (vin tx) c0) as [c1 | r m v | e] eqn:I;
      cbn [bindStep]; try discriminate.
    intros F. exists c1. apply inputs_walk in I.
    destruct I as (P & N & K & M). cbn in P, N, K, M.
    repeat split; try assumption. lia.
Qed.

(** The batches [VerifyTx] hands to the two checks.  When the walk over the
    transaction rejects nothing, it has collected as many public keys as
    messages: one pair per input (none for a coinbase transaction), one per
    output with a token, NFT or fee predicate, and one per confidential
    output; the signature check runs on these and the balance pair.  The
    range-proof batch holds one proof per confidential output and one more
    for each of them that carries a staked-commitment proof. *)
Theorem VerifyTx_batches_pair_up :
  forall (tx : CTransaction) (view0 : CCoinsViewCache)
         (blockReward minStake : CAmount) (c : Collected),
    collect tx view0 blockReward minStake = Continue c ->
    List.length (vPubKeys c) =
      ((if IsCoinBase tx then 0 else List.length (vin tx))
       + total keys_of (vout tx))%nat
    /\ List.length (vMessages c) = List.length (vPubKeys c)
    /\ List.length (vProofs c) = total proofs_of (vout tx)
    /\ signature_check tx c =
         VerifyBatch (vPubKeys c ++ [PublicKey_of_Point (balanceKey c)])
           (vMessages c ++ [BLSCTBALANCE]) (txSig tx) true.
Proof.
  intros tx view0 blockReward minStake c C.
  apply collect_continue in C. destruct C as (c1 & F & P1 & _ & K1 & M1).
  apply outputs_walk in F. destruct F as (P & K & M & _ & _).
  rewrite P1 in P. cbn [List.length] in P.
  split; [lia|]. split; [lia|]. split; [exact P | reflexivity].
Qed.

(** An accepted transaction went through every check. *)
Lemma VerifyTx_true tx view0 state blockReward minStake state' view' :
  VerifyTx tx view0 state blockReward minStake =
    Ok (true, state', view') ->
  exists c, collect tx view0 blockReward minStake = Continue c.
Proof.
  unfold VerifyTx. destruct (negb (HaveInputs view0 tx)); [discriminate|].
  destruct (collect tx view0 blockReward minStake) as [c | r m v | e];
    [| discriminate | discriminate].
  intros _. exists c. reflexivity.
Qed.

(** The outputs of an accepted transaction that are not confidential.  Each
    has a value in the money range and is unspendable unless its value is
    not positive.  At most one of them pays a fee: after an output of
    positive value with a fee predicate, every further output is
    confidential. *)
Theorem VerifyTx_accepts_one_fee_output :
  forall (tx : CTransaction) (view0 : CCoinsViewCache)
         (state : TxValidationState) (blockReward minStake : CAmount)
         (state' : TxValidationState) (view' : CCoinsViewCache),
    VerifyTx tx view0 state blockReward minStake =
      Ok (true, state', view') ->
    (forall out, In out (vout tx) -> IsBLSCT out = false ->
       MoneyRange (nValue out) = true
       /\ (IsUnspendable out = true \/ nValue out <= 0))
    /\ (forall pre out post,
          vout tx = pre ++ out :: post ->
          IsBLSCT out = false -> 0 < nValue out ->
          IsPayFeePredicate (predicate_of out) = true ->
          forall later, In later post -> IsBLSCT later = true).
Proof.
  intros tx view0 state blockReward minStake state' view' V.
  apply VerifyTx_true in V. destruct V as (c & C).
  apply collect_continue in C. destruct C as (c1 & F & _).
  split.
  - apply outputs_walk in F. destruct F as (_ & _ & _ & T & _). exact T.
  - intros pre out post E Nb Pos Fee later I. rewrite E in F.
    apply for_each_continue_app in F. destruct F as (c2 & _ & F).
    cbn [for_each] in F.
    destruct (verify_output minStake c2 out) as [c3 | r m v | e] eqn:O;
      cbn [bindStep] in F; try discriminate.
    apply verify_output_continue in O. destruct O as (_ & _ & _ & B).
    rewrite Nb in B. destruct B as (_ & _ & _ & N3).
    unfold fee_after in N3. rewrite Fee in N3.
    destruct (Z.eqb_spec (nValue out) 0) as [Z0 | _]; [lia|].
    apply outputs_walk in F. destruct F as (_ & _ & _ & _ & After).
    destruct (After ltac:(lia)) as (_ & All). exact (All later I).
Qed.

(* --------------------------------------------------------------------- *)
(** ** The balance key                                                    *)
(* --------------------------------------------------------------------- *)

(** What the code relies on: points form a commutative group, written with
    [+] and [-]. *)
Record PointLaws : Prop := mkPointLaws
  { Point_add_assoc :
      forall a b c,
        Point_add (Point_add a b) c = Point_add a (Point_add b c);
    Point_add_zero : forall a, Point_add a Point_zero = a;
    Point_sub_zero : forall a, Point_sub a Point_zero = a;
    Point_sub_add :
      forall a b c,
        Point_sub a (Point_add b c) = Point_sub (Point_sub a b) c;
    Point_add_sub :
      forall a b c,
        Point_sub (Point_add a b) c = Point_add (Point_sub a c) b }.

Definition Point_sum (ps : list Point) : Point :=
  fold_right Point_add Point_zero ps.

(** The commitment an input spends: the first commitment of the coin the
    view holds for its outpoint. *)
Definition input_commitment (view0 : CCoinsViewCache) (i : CTxIn)
    : option Point :=
  match GetCoin view0 (prevout i) with
  | Some coin_out => nth_error (rangeProof_Vs coin_out) 0
  | None => None
  end.

(** What the predicate of an output mints: the amount of a mint-token
    predicate on the generator of its token, one on the generator of the NFT
    of a mint-NFT predicate. *)
Definition minted (out : CTxOut) : Point :=
  if (0 <? predicate_size out)%nat then
    let parsedPredicate := ParsePredicate out in
    let key := GetPublicKey parsedPredicate in
    if IsMintTokenPredicate parsedPredicate then
      Point_mul
        (Generators_G (mkTokenId (PublicKey_GetHash key) (subid TokenId_default)))
        (Scalar_of_int64 (GetAmount parsedPredicate))
    else if IsCreateTokenPredicate parsedPredicate then Point_zero
    else if IsMintNftPredicate parsedPredicate then
      Point_mul
        (Generators_G
           (mkTokenId (PublicKey_GetHash key) (GetNftId parsedPredicate)))
        (Scalar_of_int64 1)
    else Point_zero
  else Point_zero.

(** What an output takes: its first commitment when it is confidential, and
    otherwise its public value on the generator of its token. *)
Definition taken (out : CTxOut) : Point :=
  if IsBLSCT out then nth 0 (rangeProof_Vs out) Point_zero
  else if nValue out =? 0 then Point_zero
  else Point_mul (Generators_G (tokenId out)) (Scalar_of_int64 (nValue out)).

Lemma verify_input_balance c i c' :
  verify_input c i = Continue c' ->
  view c' = view c
  /\ exists v,
       input_commitment (view c) i = Some v
       /\ balanceKey c' = Point_add (balanceKey c) v.
Proof.
  unfold verify_input, input_commitment, Elements_at.
  destruct (GetCoin (view c) (prevout i)) as [o |]; [| discriminate].
  destruct (nth_error (rangeProof_Vs o) 0) as [v |];
    cbn [liftExc bindStep]; [| discriminate].
  intros H. inversion H. subst c'. cbn [view balanceKey].
  split; [reflexivity|]. exists v. split; reflexivity.
Qed.

Lemma inputs_balance (laws : PointLaws) :
  forall ins c c',
    for_each verify_input ins c = Continue c' ->
    exists vs,
      Forall2 (fun i v => input_commitment (view c) i = Some v) ins vs
      /\ balanceKey c' = Point_add (balanceKey c) (Point_sum vs).
Proof.
  induction ins as [| i ins IH]; intros c c' F; cbn [for_each] in F.
  - inversion F. subst c'. exists []. split; [constructor|].
    cbn [Point_sum fold_right]. rewrite Point_add_zero by exact laws.
    reflexivity.
  - destruct (verify_input c i) as [c1 | r m v | e] eqn:V;
      cbn [bindStep] in F; try discriminate.
    apply verify_input_balance in V. destruct V as (Vw & v & Ev & Bv).
    apply IH in F. destruct F as (vs & All & Bs).
    exists (v :: vs). split.
    + constructor; [exact Ev|]. rewrite Vw in All. exact All.
    + rewrite Bs, Bv. cbn [Point_sum fold_right].
      apply Point_add_assoc. exact laws.
Qed.

Lemma verify_predicate_balance (laws : PointLaws) c out c' p :
  verify_predicate c out = Continue (c', p) ->
  balanceKey c' = Point_add (balanceKey c) (minted out).
Proof.
  unfold verify_predicate, minted.
  destruct (0 <? predicate_size out)%nat.
  - set (c1 := if IsMintTokenPredicate (ParsePredicate out) then _ else _).
    assert (B : balanceKey c1 =
                Point_add (balanceKey c)
                  (if IsMintTokenPredicate (ParsePredicate out)
                   then
                     Point_mul
                       (Generators_G
                          (mkTokenId
                             (PublicKey_GetHash
                                (GetPublicKey (ParsePredicate out)))
                             (subid TokenId_default)))
                       (Scalar_of_int64 (GetAmount (ParsePredicate out)))
                   else if IsCreateTokenPredicate (ParsePredicate out)
                   then Point_zero
                   else if IsMintNftPredicate (ParsePredicate out)
                   then
                     Point_mul
                       (Generators_G
                          (mkTokenId
                             (PublicKey_GetHash
                                (GetPublicKey (ParsePredicate out)))
                             (GetNftId (ParsePredicate out))))
                       (Scalar_of_int64 1)
                   else Point_zero)).
    { subst c1.
      destruct (IsMintTokenPredicate (ParsePredicate out)); [reflexivity|].
      destruct (IsCreateTokenPredicate (ParsePredicate out));
        [cbn [balanceKey]; rewrite Point_add_zero by exact laws; reflexivity|].
      destruct (IsMintNftPredicate (ParsePredicate out)); [reflexivity|].
      destruct (IsFee out && IsPayFeePredicate (ParsePredicate out));
        cbn [balanceKey]; rewrite Point_add_zero by exact laws; reflexivity. }
    destruct (ExecutePredicate (ParsePredicate out) (view c1)) as [ok v1].
    destruct ok; [| discriminate].
    intros H. inversion H. subst c' p. cbn [balanceKey]. exact B.
  - intros H. inversion H. subst c' p.
    rewrite Point_add_zero by exact laws. reflexivity.
Qed.

Lemma verify_output_balance (laws : PointLaws) minStake c out c' :
  verify_output minStake c out = Continue c' ->
  balanceKey c' =
    Point_sub (Point_add (balanceKey c) (minted out)) (taken out).
Proof.
  unfold verify_output. intros V.
  destruct (verify_predicate c out) as [[c1 p] | r1 m1 v1 | e] eqn:P;
    cbn [bindStep fst snd] in V; try discriminate.
  apply (verify_predicate_balance laws) in P. rewrite <- P.
  unfold verify_value, taken, Elements_at in *.
  destruct (IsBLSCT out).
  - destruct (rangeProof_Vs out) as [| v0 vs];
      cbn [nth_error liftExc bindStep] in V; [discriminate|].
    inversion V. reflexivity.
  - destruct (negb (IsUnspendable out) && (nValue out >? 0)); [discriminate|].
    destruct ((nFee c1 >? 0) || negb (MoneyRange (nValue out)));
      [discriminate|].
    destruct (nValue out =? 0); inversion V; subst c'.
    + rewrite Point_sub_zero by exact laws. reflexivity.
    + reflexivity.
Qed.

Lemma outputs_balance (laws : PointLaws) minStake :
  forall outs c c',
    for_each (verify_output minStake) outs c = Continue c' ->
    balanceKey c' =
      Point_sub (Point_add (balanceKey c) (Point_sum (map minted outs)))
        (Point_sum (map taken outs)).
Proof.
  induction outs as [| out outs IH]; intros c c' F; cbn [for_each] in F.
  - inversion F. subst c'. cbn [map Point_sum fold_right].
    rewrite Point_add_zero, Point_sub_zero by exact laws. reflexivity.
  - destruct (verify_output minStake c out) as [c1 | r m v | e] eqn:V;
      cbn [bindStep] in F; try discriminate.
    apply (verify_output_balance laws) in V. apply IH in F.
    rewrite F, V. cbn [map Point_sum fold_right].
    fold (Point_sum (map minted outs)) (Point_sum (map taken outs)).
    rewrite (Point_sub_add laws).
    rewrite <- (Point_add_sub laws).
    rewrite (Point_add_assoc laws). reflexivity.
Qed.

(** The balance key.  When the walk over the transaction rejects nothing,
    the key that must have signed [BLSCTBALANCE] is what goes in less what
    goes out: the block reward on the default generator (if positive), plus
    the first commitment of the coin of every input (none for a coinbase
    transaction), plus what the predicates of the outputs mint, less the
    first commitment of every confidential output and the public value of
    every other output. *)
Theorem VerifyTx_balance_key :
  forall (tx : CTransaction) (view0 : CCoinsViewCache)
         (blockReward minStake : CAmount) (c : Collected),
    PointLaws ->
    collect tx view0 blockReward minStake = Continue c ->
    exists spent : list Point,
      (if IsCoinBase tx then spent = []
       else
         Forall2 (fun i v => input_commitment view0 i = Some v) (vin tx) spent)
      /\ balanceKey c =
           Point_sub
             (Point_add
                (Point_add
                   (if blockReward >? 0 then
                      Point_mul (Generators_G TokenId_default)
                        (Scalar_of_int64 blockReward)
                    else Point_zero)
                   (Point_sum spent))
                (Point_sum (map minted (vout tx))))
             (Point_sum (map taken (vout tx))).
Proof.
  intros tx view0 blockReward minStake c laws C. unfold collect in C.
  set (reward := if blockReward >? 0 then _ else Point_zero) in *.
  set (c0 := mkCollected [] [] [] reward 0 view0) in C.
  destruct (IsCoinBase tx).
  - cbn [bindStep] in C. apply (outputs_balance laws) in C.
    exists []. split; [reflexivity|].
    cbn [Point_sum fold_right]. rewrite (Point_add_zero laws). exact C.
  - destruct (for_each verify_input (vin tx) c0) as [c1 | r m v | e] eqn:I;
      cbn [bindStep] in C; try discriminate.
    apply (inputs_balance laws) in I. destruct I as (vs & All & B1).
    apply (outputs_balance laws) in C.
    exists vs. split; [exact All|]. rewrite C, B1. reflexivity.
Qed.

(* --------------------------------------------------------------------- *)
(** ** The verdict of [VerifyTx]                                          *)
(* --------------------------------------------------------------------- *)

(** What [VerifyTx] does on the way: a test, which rejects the transaction
    under its label when it fails, and the reading of the first commitment
    of a range proof.  A test passes with [Ok true], fails with [Ok false],
    and may itself throw; a reading throws when there is no commitment. *)
Inductive Check : Type :=
| Test (result : TxValidationResult) (reject_reason : string)
    (passes : Exc bool)
| Read (commitment : Exc Point).

(** How a sequence of checks ends. *)
Inductive Verdict : Type :=
| Accepted
| Rejected (result : TxValidationResult) (reject_reason : string)
| Thrown (e : Exception).

(** The first check that does not pass decides. *)
Fixpoint first_failure (checks : list Check) : Verdict :=
  match checks with
  | [] => Accepted
  | Test result reject_reason (Ok true) :: rest => first_failure rest
  | Test result reject_reason (Ok false) :: _ => Rejected result reject_reason
  | Test _ _ (Throw e) :: _ => Thrown e
  | Read (Ok _) :: rest => first_failure rest
  | Read (Throw e) :: _ => Thrown e
  end.

(** The checks of an input: its coin is in the view, and the coin has a
    first commitment. *)
Definition input_checks (view0 : CCoinsViewCache) (i : CTxIn) : list Check :=
  match GetCoin view0 (prevout i) with
  | None => [Test TX_MISSING_INPUTS "bad-input-unknown" (Ok false)]
  | Some coin_out =>
      [Test TX_MISSING_INPUTS "bad-input-unknown" (Ok true);
       Read (Elements_at (rangeProof_Vs coin_out) 0)]
  end.

(** The checks of an output, for the view and the fee the outputs before it
    have left: its predicate, if it has one, executes; a confidential
    output has a first commitment; any other output is unspendable or has
    no public value, no fee has been set before it, and its value is in
    the money range. *)
Definition output_checks (v : CCoinsViewCache) (nFee : CAmount)
    (out : CTxOut) : list Check :=
  Test TX_CONSENSUS "failed-to-execute-predicate"
    (Ok (negb (0 <? predicate_size out)%nat
         || fst (ExecutePredicate (ParsePredicate out) v)))
  :: (if IsBLSCT out then [Read (Elements_at (rangeProof_Vs out) 0)]
      else
        [Test TX_CONSENSUS "spendable-output-with-public-value"
           (Ok (IsUnspendable out || (nValue out <=? 0)));
         Test TX_CONSENSUS "more-than-one-fee-output"
           (Ok ((nFee <=? 0) && MoneyRange (nValue out)))]).

(** The view and the fee an output leaves to the outputs after it. *)
Definition view_after (v : CCoinsViewCache) (out : CTxOut)
    : CCoinsViewCache :=
  if (0 <? predicate_size out)%nat
  then snd (ExecutePredicate (ParsePredicate out) v)
  else v.

Definition fee_step (nFee : CAmount) (out : CTxOut) : CAmount :=
  if IsBLSCT out then nFee else fee_after nFee out.

Fixpoint outputs_checks (v : CCoinsViewCache) (nFee : CAmount)
    (outs : list CTxOut) : list Check :=
  match outs with
  | [] => []
  | out :: rest =>
      output_checks v nFee out
      ++ outputs_checks (view_after v out) (fee_step nFee out) rest
  end.

(** The pairs of a public key and a message the transaction gives to the
    signature check: the spending key of the coin of an input with the hash
    of the input; the key of a token, NFT or fee predicate of an output with
    the hash of the output, or [BLSCTFEE] for the fee; the ephemeral key of
    a confidential output with the hash of the output. *)
Definition input_pairs (view0 : CCoinsViewCache) (i : CTxIn)
    : list (PublicKey * Message) :=
  match GetCoin view0 (prevout i) with
  | Some coin_out => [(spendingKey coin_out, Message_of_hash (CTxIn_GetHash i))]
  | None => []
  end.

Definition predicate_pairs (out : CTxOut) : list (PublicKey * Message) :=
  if has_signing_predicate out then
    [(GetPublicKey (ParsePredicate out),
      if IsMintTokenPredicate (ParsePredicate out)
         || IsCreateTokenPredicate (ParsePredicate out)
         || IsMintNftPredicate (ParsePredicate out)
      then Message_of_hash (CTxOut_GetHash out)
      else BLSCTFEE)]
  else [].

Definition output_pairs (out : CTxOut) : list (PublicKey * Message) :=
  predicate_pairs out
  ++ (if IsBLSCT out
      then [(ephemeralKey out, Message_of_hash (CTxOut_GetHash out))]
      else []).

(** The range proofs of an output: the proof of a confidential output, and
    its staked-commitment proof on its first commitment. *)
Definition output_proofs (minStake : CAmount) (out : CTxOut)
    : list RangeProofWithSeed :=
  if IsBLSCT out then
    mkRangeProofWithSeed (rangeProof_Vs out) (rangeProof_body out)
      (tokenId out) 0
    :: match GetStakedCommitmentRangeProof out with
       | Some staked =>
           [mkRangeProofWithSeed [nth 0 (rangeProof_Vs out) Point_zero] staked
              TokenId_default minStake]
       | None => []
       end
  else [].

(** The balance key after an input and after an output. *)
Definition balance_with_input (view0 : CCoinsViewCache) (b : Point)
    (i : CTxIn) : Point :=
  match GetCoin view0 (prevout i) with
  | Some coin_out => Point_add b (nth 0 (rangeProof_Vs coin_out) Point_zero)
  | None => b
  end.

Definition balance_with_predicate (b : Point) (out : CTxOut) : Point :=
  if (0 <? predicate_size out)%nat then
    let parsedPredicate := ParsePredicate out in
    let key := GetPublicKey parsedPredicate in
    if IsMintTokenPredicate parsedPredicate then
      Point_add b
        (Point_mul
           (Generators_G
              (mkTokenId (PublicKey_GetHash key) (subid TokenId_default)))
           (Scalar_of_int64 (GetAmount parsedPredicate)))
    else if IsCreateTokenPredicate parsedPredicate then b
    else if IsMintNftPredicate parsedPredicate then
      Point_add b
        (Point_mul
           (Generators_G
              (mkTokenId (PublicKey_GetHash key) (GetNftId parsedPredicate)))
           (Scalar_of_int64 1))
    else b
  else b.

Definition balance_with_output (b : Point) (out : CTxOut) : Point :=
  let b := balance_with_predicate b out in
  if IsBLSCT out then Point_sub b (nth 0 (rangeProof_Vs out) Point_zero)
  else if nValue out =? 0 then b
  else
    Point_sub b
      (Point_mul (Generators_G (tokenId out)) (Scalar_of_int64 (nValue out))).

Definition signed_pairs (tx : CTransaction) (view0 : CCoinsViewCache)
    : list (PublicKey * Message) :=
  (if IsCoinBase tx then [] else flat_map (input_pairs view0) (vin tx))
  ++ flat_map output_pairs (vout tx).

Definition balance_key (tx : CTransaction) (view0 : CCoinsViewCache)
    (blockReward : CAmount) : Point :=
  fold_left balance_with_output (vout tx)
    (fold_left (balance_with_input view0)
       (if IsCoinBase tx then [] else vin tx)
       (if blockReward >? 0 then
          Point_mul (Generators_G TokenId_default) (Scalar_of_int64 blockReward)
        else Point_zero)).

(** The batched signature check: over the collected pairs and, last, the
    balance key with [BLSCTBALANCE]. *)
Definition signature_holds (tx : CTransaction) (view0 : CCoinsViewCache)
    (blockReward : CAmount) : bool :=
  VerifyBatch
    (map fst (signed_pairs tx view0)
     ++ [PublicKey_of_Point (balance_key tx view0 blockReward)])
    (map snd (signed_pairs tx view0) ++ [BLSCTBALANCE]) (txSig tx) true.

Definition batched_proofs (tx : CTransaction) (minStake : CAmount)
    : list RangeProofWithSeed :=
  flat_map (output_proofs minStake) (vout tx).

(** The checks of [VerifyTx], in the order of the source. *)
Definition checks (tx : CTransaction) (view0 : CCoinsViewCache)
    (blockReward minStake : CAmount) : list Check :=
  Test TX_MISSING_INPUTS "bad-inputs-unknown" (Ok (HaveInputs view0 tx))
  :: (if IsCoinBase tx then [] else flat_map (input_checks view0) (vin tx))
  ++ outputs_checks view0 0 (vout tx)
  ++ [Test TX_CONSENSUS "failed-signature-check"
        (Ok (signature_holds tx view0 blockReward));
      Test TX_CONSENSUS "failed-rangeproof-check"
        (RangeProofLogic_Verify (batched_proofs tx minStake))].










End WithEnv.
End Verification.

(* ===================================================================== *)
(** * The transaction verifier on a concrete chain                        *)
(* ===================================================================== *)

Module VerificationExamples.
Import Verification.

(** The predicates of the examples. *)
Inductive SamplePredicate : Type :=
| NoPredicate
| MintToken (key : Z) (amount : CAmount)
| PayFee (key : Z).

(** An output that shows what it is. *)
Record SampleOutput : Type := mkSampleOutput
  { o_value : CAmount;
    o_token : TokenId;
    o_confidential : bool;
    o_commitment : Z;
    o_key : Z;
    o_unspendable : bool;
    o_fee_script : bool;
    o_predicate : SamplePredicate;
    o_staked : bool }.

Record SampleTransaction : Type := mkSampleTransaction
  { t_vin : list N;
    t_vout : list SampleOutput;
    t_sig : list (Z * Z)%type;
    t_coinbase : bool }.

Fixpoint same_pairs (a b : list (Z * Z)) : bool :=
  match a, b with
  | [], [] => true
  | (k, m) :: a', (k', m') :: b' => (k =? k') && (m =? m') && same_pairs a' b'
  | _, _ => false
  end.

(** Points, scalars and keys are integers, a signature is the list of the
    (key, message) pairs it signs, the view is the list of the unspent
    outputs by outpoint, and amounts up to 21 million coins are money. *)
#[local] Instance sample_env : Env :=
  {| Point := Z;
     Scalar := Z;
     PublicKey := Z;
     Message := Z;
     Signature := list (Z * Z)%type;
     CTxIn := N;
     CTxOut := SampleOutput;
     CTransaction := SampleTransaction;
     COutPoint := N;
     CCoinsViewCache := list (N * SampleOutput)%type;
     ParsedPredicate := SamplePredicate;
     ProofBody := unit;
     Point_zero := 0;
     Point_add := Z.add;
     Point_sub := Z.sub;
     Point_mul := Z.mul;
     Scalar_of_int64 := fun a => a;
     Generators_G := fun k => 1 + Z.of_N (token k);
     PublicKey_of_Point := fun p => p;
     PublicKey_GetHash := fun k => Z.to_N k;
     Message_of_hash := fun h => Z.of_N h;
     BLSCTFEE := -1;
     BLSCTBALANCE := -2;
     VerifyBatch :=
       fun keys messages sig _ => same_pairs sig (combine keys messages);
     vin := t_vin;
     vout := t_vout;
     txSig := t_sig;
     IsCoinBase := t_coinbase;
     prevout := fun i => i;
     CTxIn_GetHash := fun i => (i + 100)%N;
     CTxOut_GetHash := fun o => Z.to_N (o_commitment o + o_value o + 200);
     nValue := o_value;
     tokenId := o_token;
     predicate_size :=
       fun o => match o_predicate o with NoPredicate => 0%nat | _ => 1%nat end;
     IsFee := o_fee_script;
     IsUnspendable := o_unspendable;
     IsBLSCT := o_confidential;
     spendingKey := o_key;
     ephemeralKey := o_key;
     rangeProof_Vs := fun o => if o_confidential o then [o_commitment o] else [];
     rangeProof_body := fun _ => tt;
     GetStakedCommitmentRangeProof :=
       fun o => if o_staked o then Some tt else None;
     MoneyRange := fun a => (0 <=? a) && (a <=? 2100000000000000);
     HaveInputs :=
       fun view t =>
         forallb (fun i => existsb (fun e => N.eqb (fst e) i) view) (t_vin t);
     GetCoin :=
       fun view i =>
         option_map snd (List.find (fun e => N.eqb (fst e) i) view);
     ParsedPredicate_default := NoPredicate;
     ParsePredicate := o_predicate;
     IsMintTokenPredicate :=
       fun p => match p with MintToken _ _ => true | _ => false end;
     IsCreateTokenPredicate := fun _ => false;
     IsMintNftPredicate := fun _ => false;
     IsPayFeePredicate :=
       fun p => match p with PayFee _ => true | _ => false end;
     GetPublicKey :=
       fun p =>
         match p with MintToken k _ => k | PayFee k => k | NoPredicate => 0 end;
     GetAmount :=
       fun p => match p with MintToken _ a => a | _ => 0 end;
     GetNftId := fun _ => 0%N;
     ExecutePredicate := fun _ view => (true, view) |}.

(** The range proofs of the examples all verify. *)
Definition all_proofs_verify (proofs : list RangeProofWithSeed) : Exc bool :=
  Ok true.

Definition confidential (value key : Z) (staked : bool) : SampleOutput :=
  mkSampleOutput 0 TokenId_default true value key false false NoPredicate staked.

Definition fee_output (value key : Z) : SampleOutput :=
  mkSampleOutput value TokenId_default false 0 0 true true (PayFee key) false.

(** The coin 7 holds 1000; the transaction spends it into 600 and a staked
    300, and pays a fee of 100. *)
Definition sample_view : list (N * SampleOutput) :=
  [(7%N, confidential 1000 11 false)].

Definition sample_outputs : list SampleOutput :=
  [confidential 600 21 false; confidential 300 22 true; fee_output 100 23].

Definition sample_signature : list (Z * Z) :=
  [(11, 107); (21, 800); (22, 500); (23, -1); (0, -2)].

Definition sample_tx : SampleTransaction :=
  mkSampleTransaction [7%N] sample_outputs sample_signature false.

Definition start : TxValidationState := mkTxValidationState M_VALID TX_RESULT_UNSET "".

Example sample_tx_is_accepted :
  VerifyTx all_proofs_verify sample_tx sample_view start 0 10 =
    Ok (true, start, sample_view).
Proof. reflexivity. Qed.

(** A second fee output after the first is one too many; so is an output of
    public value that can be spent; an unknown coin is a missing input. *)
Example rejections :
  VerifyTx all_proofs_verify
    (mkSampleTransaction [7%N] (sample_outputs ++ [fee_output 0 24])
       sample_signature false)
    sample_view start 0 10 =
    Ok (false,
        mkTxValidationState M_INVALID TX_CONSENSUS "more-than-one-fee-output",
        sample_view)
  /\ VerifyTx all_proofs_verify
       (mkSampleTransaction [7%N]
          [mkSampleOutput 5 TokenId_default false 0 0 false false NoPredicate
             false]
          sample_signature false)
       sample_view start 0 10 =
     Ok (false,
         mkTxValidationState M_INVALID TX_CONSENSUS
           "spendable-output-with-public-value",
         sample_view)
  /\ VerifyTx all_proofs_verify
       (mkSampleTransaction [8%N] sample_outputs sample_signature false)
       sample_view start 0 10 =
     Ok (false,
         mkTxValidationState M_INVALID TX_MISSING_INPUTS "bad-inputs-unknown",
         sample_view).
Proof. repeat split; reflexivity. Qed.

Definition sample_collected : Collected.
Proof.
  let v := eval vm_compute in (collect sample_tx sample_view 0 10) in
  match v with Continue ?c => exact c end.
Defined.

(** [VerifyTx_batches_pair_up] at [sample_tx]: four keys and messages, three
    range proofs. *)
Lemma VerifyTx_batches_pair_up_witness :
  collect sample_tx sample_view 0 10 = Continue sample_collected
  /\ List.length (vPubKeys sample_collected) = 4%nat
  /\ List.length (vMessages sample_collected) =
       List.length (vPubKeys sample_collected)
  /\ List.length (vProofs sample_collected) = 3%nat.
Proof.
  assert (C : collect sample_tx sample_view 0 10 = Continue sample_collected)
    by reflexivity.
  destruct (VerifyTx_batches_pair_up _ _ _ _ _ C) as (K & M & P & _).
  split; [exact C|]. split; [exact K|]. split; [exact M | exact P].
Defined.

(** [VerifyTx_accepts_one_fee_output] at [sample_tx]. *)
Lemma VerifyTx_accepts_one_fee_output_witness :
  VerifyTx all_proofs_verify sample_tx sample_view start 0 10 =
    Ok (true, start, sample_view)
  /\ MoneyRange (nValue (fee_output 100 23)) = true
  /\ (IsUnspendable (fee_output 100 23) = true
      \/ nValue (fee_output 100 23) <= 0).
Proof.
  assert (V : VerifyTx all_proofs_verify sample_tx sample_view start 0 10 =
              Ok (true, start, sample_view)) by reflexivity.
  split; [exact V|].
  exact (proj1 (VerifyTx_accepts_one_fee_output _ _ _ _ _ _ _ _ V)
           (fee_output 100 23) (or_intror (or_intror (or_introl eq_refl)))
           eq_refl).
Defined.

(** The integers are a group. *)
Lemma sample_point_laws : PointLaws.
Proof. constructor; intros; cbn; lia. Defined.

(** [VerifyTx_balance_key] at [sample_tx]: the coin of 1000 goes in, and
    600, 300 and the fee of 100 go out; the balance key is zero. *)
Lemma VerifyTx_balance_key_witness :
  balanceKey sample_collected = 0
  /\ map taken sample_outputs = [600; 300; 100]
  /\ exists spent,
       Forall2 (fun i v => input_commitment sample_view i = Some v) [7%N] spent
       /\ balanceKey sample_collected =
            0 + Point_sum spent + Point_sum (map minted sample_outputs)
            - Point_sum (map taken sample_outputs).
Proof.
  assert (C : collect sample_tx sample_view 0 10 = Continue sample_collected)
    by reflexivity.
  split; [reflexivity|]. split; [reflexivity|].
  exact (VerifyTx_balance_key _ _ _ _ _ sample_point_laws C).
Defined.




(** The checks of [sample_tx], in order: all pass. *)
Example sample_tx_checks :
  checks all_proofs_verify sample_tx sample_view 0 10 =
    [Test TX_MISSING_INPUTS "bad-inputs-unknown" (Ok true);
     Test TX_MISSING_INPUTS "bad-input-unknown" (Ok true);
     Read (Ok 1000);
     Test TX_CONSENSUS "failed-to-execute-predicate" (Ok true);
     Read (Ok 600);
     Test TX_CONSENSUS "failed-to-execute-predicate" (Ok true);
     Read (Ok 300);
     Test TX_CONSENSUS "failed-to-execute-predicate" (Ok true);
     Test TX_CONSENSUS "spendable-output-with-public-value" (Ok true);
     Test TX_CONSENSUS "more-than-one-fee-output" (Ok true);
     Test TX_CONSENSUS "failed-signature-check" (Ok true);
     Test TX_CONSENSUS "failed-rangeproof-check" (Ok true)].
Proof. reflexivity. Qed.


(** The accepted [sample_tx] fails no check.  With a second fee output the
    fee check of that output fails and the signature does not fit either:
    the earlier of the two decides. *)
Example first_failing_check_wins :
  first_failure (checks all_proofs_verify sample_tx sample_view 0 10) =
    Accepted
  /\ first_failure
       (checks all_proofs_verify
          (mkSampleTransaction [7%N] (sample_outputs ++ [fee_output 0 24])
             sample_signature false)
          sample_view 0 10) =
     Rejected TX_CONSENSUS "more-than-one-fee-output"
  /\ signature_holds
       (mkSampleTransaction [7%N] (sample_outputs ++ [fee_output 0 24])
          sample_signature false)
       sample_view 0 = false.
Proof. repeat split; reflexivity. Qed.

End VerificationExamples.

(* ===================================================================== *)
(** * The range-proof logic                                               *)
(* ===================================================================== *)

Module RangeProof.

(** [range_proof::Setup::num_input_value_bits]. *)
Definition num_input_value_bits : nat := 64.

(** Modelled from the spec: [blsct::Common::GetFirstPowerOf2GreaterOrEqTo]
    is not among the sources; it rounds a count up to the next power of two,
    here by doubling from one. *)
Fixpoint double_until (fuel i n : nat) : nat :=
  match fuel with
  | O => i
  | S fuel' => if (i <? n)%nat then double_until fuel' (2 * i) n else i
  end.

Definition GetFirstPowerOf2GreaterOrEqTo (n : nat) : nat := double_until n 1 n.

Lemma double_until_ge fuel :
  forall i n, (n <= i * 2 ^ fuel -> n <= double_until fuel i n)%nat.
Proof.
  induction fuel as [| fuel IH]; intros i n H; cbn [double_until].
  - cbn in H. lia.
  - destruct (Nat.ltb_spec i n); [| lia].
    apply IH. rewrite Nat.pow_succ_r' in H. lia.
Qed.

Lemma double_until_pow2 fuel :
  forall i n, exists k, (double_until fuel i n = i * 2 ^ k)%nat.
Proof.
  induction fuel as [| fuel IH]; intros i n; cbn [double_until].
  - exists 0%nat. cbn. lia.
  - destruct (i <? n)%nat.
    + destruct (IH (2 * i)%nat n) as [k Hk]. exists (S k).
      rewrite Hk, Nat.pow_succ_r'. lia.
    + exists 0%nat. cbn. lia.
Qed.

(** The rounding yields a power of two that is not below the count. *)
Lemma GetFirstPowerOf2GreaterOrEqTo_spec n :
  (n <= GetFirstPowerOf2GreaterOrEqTo n)%nat
  /\ exists k, GetFirstPowerOf2GreaterOrEqTo n = (2 ^ k)%nat.
Proof.
  unfold GetFirstPowerOf2GreaterOrEqTo. split.
  - apply double_until_ge. pose proof (Nat.pow_gt_lin_r 2 n). lia.
  - destruct (double_until_pow2 n 1 n) as [k Hk]. exists k. lia.
Qed.

Definition message_t : Type := list Byte.byte.

(** The arithmetic [T] the proof logic is a template of, and the opaque
    objects the logic passes around. *)
Class Arith : Type :=
  { Scalar : Type;
    Point : Type;
    Seed : Type;
    Generators : Type;
    HashWriter : Type;
    Verifier : Type;
    Scalar_zero : Scalar;
    Scalar_one : Scalar;
    Scalar_add : Scalar -> Scalar -> Scalar;
    Scalar_sub : Scalar -> Scalar -> Scalar;
    Scalar_mul : Scalar -> Scalar -> Scalar;
    Scalar_neg : Scalar -> Scalar;
    Scalar_inv : Scalar -> Scalar;
    Scalar_eqb : Scalar -> Scalar -> bool;
    GetSeriBit : Scalar -> nat -> bool;
    Scalar_of_hash : uint256 -> Scalar;
    Point_zero : Point;
    Point_add : Point -> Point -> Point;
    Point_sub : Point -> Point -> Point;
    Point_mul : Point -> Scalar -> Point }.

(** What the code relies on: scalars form a commutative ring and [==]
    decides equality. *)
Class ArithLaws {arith : Arith} : Prop :=
  { Scalar_ring :
      ring_theory Scalar_zero Scalar_one Scalar_add Scalar_mul Scalar_sub
        Scalar_neg (@eq Scalar);
    Scalar_eqb_eq : forall a b : Scalar, Scalar_eqb a b = true <-> a = b }.

Declare Scope scalar_scope.
Delimit Scope scalar_scope with scalar.
Notation "a + b" := (Scalar_add a b) : scalar_scope.
Notation "a - b" := (Scalar_sub a b) : scalar_scope.
Notation "a * b" := (Scalar_mul a b) : scalar_scope.

Section WithArith.

#[local] Set Default Proof Using "Type".

Context {arith : Arith}.

Definition Scalars : Type := list Scalar.
Definition Points : Type := list Point.

Definition IsZero (s : Scalar) : bool := Scalar_eqb s Scalar_zero.
Definition Square (s : Scalar) : Scalar := (s * s)%scalar.

(** ** [Elements<Scalar>] *)

Definition size_error : Exception :=
  runtime_error "sizes of elements are expected to be the same".

Fixpoint map2 {A B C : Type} (f : A -> B -> C) (a : list A) (b : list B)
    : list C :=
  match a, b with
  | x :: a', y :: b' => f x y :: map2 f a' b'
  | _, _ => []
  end.

(** The element-wise operators of [Elements] throw on operands of different
    sizes. *)
Definition Elements_zip (f : Scalar -> Scalar -> Scalar) (a b : Scalars)
    : Exc Scalars :=
  if (List.length a =? List.length b)%nat then Ok (map2 f a b)
  else Throw size_error.

Definition Elements_add : Scalars -> Scalars -> Exc Scalars :=
  Elements_zip Scalar_add.
Definition Elements_sub : Scalars -> Scalars -> Exc Scalars :=
  Elements_zip Scalar_sub.
Definition Elements_mul : Scalars -> Scalars -> Exc Scalars :=
  Elements_zip Scalar_mul.

(** [Elements * Scalar]. *)
Definition Elements_scale (a : Scalars) (k : Scalar) : Scalars :=
  map (fun e => (e * k)%scalar) a.

(** [Sum()]. *)
Definition Sum (a : Scalars) : Scalar := fold_left Scalar_add a Scalar_zero.

(** [RepeatN]. *)
Definition RepeatN (k : Scalar) (n : nat) : Scalars := repeat k n.

(** ** [LazyPoints] *)

Definition lazy_size_error : Exception :=
  runtime_error "sizes of bases and exps do not match".

(** [LazyPoints(bases, exps)]. *)
Definition LazyPoints (bases : Points) (exps : Scalars)
    : Exc (list (Point * Scalar)) :=
  if (List.length bases =? List.length exps)%nat then Ok (combine bases exps)
  else Throw lazy_size_error.

(** [LazyPoints::Sum()]. *)
Definition LazyPoints_Sum (ps : list (Point * Scalar)) : Point :=
  fold_left (fun acc p => Point_add acc (Point_mul (fst p) (snd p))) ps
    Point_zero.

(** ** Data *)

(** [range_proof::GammaSeed]: a point, or one blinding factor per value. *)
Inductive GammaSeed : Type :=
| PointSeed (p : Point)
| ScalarsSeed (vec : Scalars).

(** [bulletproofs::RangeProof]. *)
Record RangeProof : Type := mkRangeProof
  { Vs : Points;
    A : Point;
    S_ : Point;
    T1 : Point;
    T2 : Point;
    tau_x : Scalar;
    mu : Scalar;
    t_hat : Scalar;
    Ls : Points;
    Rs : Points;
    a : Scalar;
    b : Scalar }.

(** The result of [ImpInnerProdArg::Run]. *)
Record ImpInnerProdArgResult : Type := mkImpInnerProdArgResult
  { ipa_Ls : Points; ipa_Rs : Points; ipa_a : Scalar; ipa_b : Scalar }.

(** What [MsgAmtCipher::Decrypt] yields. *)
Record MsgAmt : Type := mkMsgAmt { msg : message_t; amount : Z }.

(** The collaborators of [range_proof_logic.cpp], as they are called. *)
Class Collaborators : Type :=
  { (** [GammaSeed::GetHashWithSalt] and [Point::GetHashWithSalt] *)
    GetHashWithSalt : GammaSeed -> Z -> Scalar;
    Point_GetHashWithSalt : Point -> Z -> Scalar;
    (** [range_proof::Common] *)
    ValidateParameters : Scalars -> message_t -> Exc unit;
    TwoPows64 : Scalars;
    InnerProd1x2Pows64 : Scalar;
    Uint64Max : Scalar;
    GetNumRoundsExclLast : nat -> nat;
    (** generators *)
    GetInstance : Seed -> Generators;
    gens_G : Generators -> Point;
    gens_H : Generators -> Point;
    GetGiSubset : Generators -> nat -> Points;
    GetHiSubset : Generators -> nat -> Points;
    (** [Elements] *)
    FirstNPow : Scalar -> nat -> nat -> Scalars;
    RandVec : nat -> nat -> Scalars;
    (** the Fiat-Shamir hasher: [HashWriter{}], [<<], [GetHash()] *)
    HashWriter_new : HashWriter;
    write_point : HashWriter -> Point -> HashWriter;
    write_scalar : HashWriter -> Scalar -> HashWriter;
    GetHash : HashWriter -> uint256 * HashWriter;
    (** [MsgAmtCipher] *)
    ComputeAlpha : message_t -> Scalar -> Scalar -> Scalar;
    RetrieveMsg2 : message_t -> Scalar;
    ComputeTauX :
      message_t -> Scalar -> Scalar -> Scalar -> Scalar -> Scalars -> Scalars ->
      Scalar;
    Decrypt :
      Scalar -> Scalar -> Scalar -> Scalar -> Scalar -> Scalar -> Scalar ->
      Scalar -> Point -> Point -> Point -> option MsgAmt;
    (** [ImpInnerProdArg] *)
    ImpInnerProdArg_Run :
      nat -> Points -> Points -> Point -> Scalars -> Scalars -> Scalar ->
      Scalar -> HashWriter -> option ImpInnerProdArgResult * HashWriter;
    GenGeneratorExponents : nat -> Scalars -> Scalars;
    (** [G_H_Gi_Hi_ZeroVerifier] *)
    Verifier_new : nat -> Verifier;
    AddPoint : Verifier -> Point -> Scalar -> Verifier;
    AddPositiveG : Verifier -> Scalar -> Verifier;
    AddNegativeG : Verifier -> Scalar -> Verifier;
    AddNegativeH : Verifier -> Scalar -> Verifier;
    SetGiExp : Verifier -> nat -> Scalar -> Verifier;
    SetHiExp : Verifier -> nat -> Scalar -> Verifier;
    Verifier_Verify : Verifier -> Point -> Point -> Points -> Points -> bool }.

Context {collaborators : Collaborators}.

(** ** [Prove] *)

Definition gammas_size_error : Exception :=
  runtime_error "Prove: size of vs does not match size of gammas".

Definition equality_60_error : Exception :=
  runtime_error "Prove: equality didn't hold in (60)".

(** Lines 87-92: apply [minValue]. *)
Definition apply_minValue (vs : Scalars) (minValue : Scalar) : Scalars :=
  if negb (IsZero minValue) then map (fun v => (v - minValue)%scalar) vs
  else vs.

(** Lines 94-109: generate gammas. *)
Definition generate_gammas (nonce : GammaSeed) (vs : Scalars)
    (num_input_values_power_of_2 : nat) : Exc Scalars :=
  match nonce with
  | PointSeed _ =>
      Ok (map (fun i => GetHashWithSalt nonce (100 + Z.of_nat i))
            (seq 0 num_input_values_power_of_2))
  | ScalarsSeed vec =>
      if negb (List.length vs =? List.length vec)%nat
      then Throw gammas_size_error
      else Ok vec
  end.

(** Lines 111-115: pad with [Scalar(0)] up to the power of two. *)
Definition pad_zeros (l : Scalars) (n : nat) : Scalars :=
  l ++ repeat Scalar_zero (n - List.length l).

(** Lines 127-132: one commitment per (padded) value, each written to the
    Fiat-Shamir hasher. *)
Definition commit_value (G H : Point) (vsOriginal gammas : Scalars)
    (acc : Points * HashWriter) (i : nat) : Exc (Points * HashWriter) :=
  (v <- Elements_at vsOriginal i ;;
   g <- Elements_at gammas i ;;
   let V := Point_add (Point_mul G v) (Point_mul H g) in
   Ok (fst acc ++ [V], write_point (snd acc) V))%exc.

(** Lines 134-146: the bits of the values, least significant first. *)
Definition bits_of (vs : Scalars) (concat_input_values_in_bits : nat)
    : Scalars :=
  let aL :=
    flat_map
      (fun v =>
         map (fun i => if GetSeriBit v i then Scalar_one else Scalar_zero)
           (seq 0 num_input_value_bits))
      vs in
  aL ++ repeat Scalar_zero (concat_input_values_in_bits - List.length aL).

(** What lines 74-151 establish before the [retry] label. *)
Record Committed : Type := mkCommitted
  { c_num_input_values_power_of_2 : nat;
    c_concat_input_values_in_bits : nat;
    c_vs : Scalars;
    c_vsOriginal : Scalars;
    c_gammas : Scalars;
    c_gens : Generators;
    c_Vs : Points;
    c_fiat_shamir : HashWriter;
    c_aL : Scalars;
    c_aR : Scalars }.

Definition Prove_commit (vs : Scalars) (nonce : GammaSeed) (message : message_t)
    (seed : Seed) (minValue : Scalar) : Exc Committed :=
  (_ <- ValidateParameters vs message ;;
   let num_input_values_power_of_2 :=
     GetFirstPowerOf2GreaterOrEqTo (List.length vs) in
   let concat_input_values_in_bits :=
     (num_input_values_power_of_2 * num_input_value_bits)%nat in
   let vsOriginal := vs in
   let vs := apply_minValue vs minValue in
   gammas <- generate_gammas nonce vs num_input_values_power_of_2 ;;
   let vs := pad_zeros vs num_input_values_power_of_2 in
   let vsOriginal := pad_zeros vsOriginal num_input_values_power_of_2 in
   let gens := GetInstance seed in
   committed <-
     foldExc (commit_value (gens_G gens) (gens_H gens) vsOriginal gammas)
       (seq 0 (List.length vs)) ([], HashWriter_new) ;;
   let aL := bits_of vs concat_input_values_in_bits in
   aR <- Elements_sub aL (RepeatN Scalar_one concat_input_values_in_bits) ;;
   Ok (mkCommitted num_input_values_power_of_2 concat_input_values_in_bits
         vs vsOriginal gammas gens (fst committed) (snd committed) aL aR))%exc.

(** Modelled from the spec: the macro [GEN_FIAT_SHAMIR_VAR] is not among the
    sources; it derives a challenge from the hasher, asks for a retry when
    the challenge is zero, and otherwise writes the challenge back into the
    hasher.  [None] is the [goto retry]. *)
Definition gen_fiat_shamir_var (fiat_shamir : HashWriter)
    : option Scalar * HashWriter :=
  let '(h, fiat_shamir') := GetHash fiat_shamir in
  let var := Scalar_of_hash h in
  if IsZero var then (None, fiat_shamir')
  else (Some var, write_scalar fiat_shamir' var).

(** The challenges of a finished attempt (specification only). *)
Record Challenges : Type := mkChallenges
  { ch_y : Scalar; ch_z : Scalar; ch_x : Scalar; ch_c_factor : Scalar }.

(** How one pass from the [retry] label ends, unless it throws: with a jump
    back to the label (the hasher is kept, the random source has moved on),
    or with the proof. *)
Inductive Attempt : Type :=
| Retry (fiat_shamir : HashWriter) (rng : nat)
| Proved (proof : RangeProof) (challenges : Challenges).

(** Lines 190-201: [z_pow_twos]. *)
Definition z_pow_twos_of (z_pows_from_2 : Scalars)
    (num_input_values_power_of_2 : nat) : Exc Scalars :=
  foldExc
    (fun acc i =>
       (base_z_pow <- Elements_at z_pows_from_2 i ;;
        foldExc
          (fun acc bit_idx =>
             (two_pow <- Elements_at TwoPows64 bit_idx ;;
              Ok (acc ++ [(base_z_pow * two_pow)%scalar]))%exc)
          (seq 0 num_input_value_bits) acc)%exc)
    (seq 0 num_input_values_power_of_2) [].

(** Lines 227-240, from the coefficient vectors and [x]: [t_hat], or the
    exception of step (60). *)
Definition evaluate_at_x (l0 l1 r0 r1 : Scalars) (t1 t2 x : Scalar)
    : Exc (Scalars * Scalars * Scalar) :=
  (l <- Elements_add l0 (Elements_scale l1 x) ;;
   r <- Elements_add r0 (Elements_scale r1 x) ;;
   lr <- Elements_mul l r ;;
   let t_hat := Sum lr in
   l0r0 <- Elements_mul l0 r0 ;;
   let t0 := Sum l0r0 in
   let t_of_x := (t0 + t1 * x + t2 * Square x)%scalar in
   if negb (Scalar_eqb t_hat t_of_x) then Throw equality_60_error
   else Ok (l, r, t_hat))%exc.

(** Lines 180-209: the coefficient vectors [l0], [l1], [r0], [r1] and the
    coefficients [t1], [t2]. *)
Definition polynomials (c : Committed) (sL sR : Scalars) (y z : Scalar)
    : Exc (Scalars * Scalars * Scalars * Scalars * Scalar * Scalar * Scalars) :=
  (let n := c_concat_input_values_in_bits c in
   let zs := RepeatN z n in
   l0 <- Elements_sub (c_aL c) zs ;;
   let l1 := sL in
   let z_pows_from_2 := FirstNPow z (c_num_input_values_power_of_2 c) 2 in
   z_pow_twos <- z_pow_twos_of z_pows_from_2 (c_num_input_values_power_of_2 c) ;;
   let y_pows := FirstNPow y n 0 in
   aR_zs <- Elements_add (c_aR c) zs ;;
   y_aR_zs <- Elements_mul y_pows aR_zs ;;
   r0 <- Elements_add y_aR_zs z_pow_twos ;;
   r1 <- Elements_mul y_pows sR ;;
   l0r1 <- Elements_mul l0 r1 ;;
   l1r0 <- Elements_mul l1 r0 ;;
   let t1 := (Sum l0r1 + Sum l1r0)%scalar in
   l1r1 <- Elements_mul l1 r1 ;;
   let t2 := Sum l1r1 in
   Ok (l0, l1, r0, r1, t1, t2, z_pows_from_2))%exc.

(** One pass from the [retry] label to the end of [Prove] (lines 153-274). *)
Definition Prove_attempt (c : Committed) (nonce : GammaSeed)
    (message : message_t) (fiat_shamir : HashWriter) (rng : nat)
    : Exc Attempt :=
  (let n := c_concat_input_values_in_bits c in
   let Gi := GetGiSubset (c_gens c) n in
   let Hi := GetHiSubset (c_gens c) n in
   let H := gens_H (c_gens c) in
   let G := gens_G (c_gens c) in
   let nonce_alpha := GetHashWithSalt nonce 1 in
   vsOriginal0 <- Elements_at (c_vsOriginal c) 0 ;;
   let alpha := ComputeAlpha message vsOriginal0 nonce_alpha in
   Gi_aL <- LazyPoints Gi (c_aL c) ;;
   Hi_aR <- LazyPoints Hi (c_aR c) ;;
   let proof_A := LazyPoints_Sum (Gi_aL ++ Hi_aR ++ [(H, alpha)]) in
   let sL := RandVec rng n in
   let sR := RandVec (S rng) n in
   let rng := S (S rng) in
   let rho := GetHashWithSalt nonce 2 in
   Gi_sL <- LazyPoints Gi sL ;;
   Hi_sR <- LazyPoints Hi sR ;;
   let proof_S := LazyPoints_Sum (Gi_sL ++ Hi_sR ++ [(H, rho)]) in
   let fiat_shamir := write_point (write_point fiat_shamir proof_A) proof_S in
   match gen_fiat_shamir_var fiat_shamir with
   | (None, fiat_shamir) => Ok (Retry fiat_shamir rng)
   | (Some y, fiat_shamir) =>
   match gen_fiat_shamir_var fiat_shamir with
   | (None, fiat_shamir) => Ok (Retry fiat_shamir rng)
   | (Some z, fiat_shamir) =>
   '(l0, l1, r0, r1, t1, t2, z_pows_from_2) <- polynomials c sL sR y z ;;
   let nonce_tau1 := GetHashWithSalt nonce 3 in
   let tau2 := GetHashWithSalt nonce 4 in
   let msg2 := RetrieveMsg2 message in
   let tau1 := (nonce_tau1 + msg2)%scalar in
   let proof_T1 := Point_add (Point_mul G t1) (Point_mul H tau1) in
   let proof_T2 := Point_add (Point_mul G t2) (Point_mul H tau2) in
   let fiat_shamir := write_point (write_point fiat_shamir proof_T1) proof_T2 in
   match gen_fiat_shamir_var fiat_shamir with
   | (None, fiat_shamir) => Ok (Retry fiat_shamir rng)
   | (Some x, fiat_shamir) =>
   '(l, r, proof_t_hat) <- evaluate_at_x l0 l1 r0 r1 t1 t2 x ;;
   let proof_tau_x :=
     ComputeTauX message x z nonce_tau1 tau2 z_pows_from_2 (c_gammas c) in
   let proof_mu := (alpha + rho * x)%scalar in
   let fiat_shamir :=
     write_scalar
       (write_scalar (write_scalar fiat_shamir proof_tau_x) proof_mu)
       proof_t_hat in
   match gen_fiat_shamir_var fiat_shamir with
   | (None, fiat_shamir) => Ok (Retry fiat_shamir rng)
   | (Some c_factor, fiat_shamir) =>
   match ImpInnerProdArg_Run n Gi Hi G l r c_factor y fiat_shamir with
   | (None, fiat_shamir) => Ok (Retry fiat_shamir rng)
   | (Some res, _) =>
       Ok (Proved
             (mkRangeProof (c_Vs c) proof_A proof_S proof_T1 proof_T2
                proof_tau_x proof_mu proof_t_hat (ipa_Ls res) (ipa_Rs res)
                (ipa_a res) (ipa_b res))
             (mkChallenges y z x c_factor))
   end end end end end)%exc.

(** The [retry] loop, run for at most [fuel] passes. *)
Fixpoint Prove_retry (fuel : nat) (c : Committed) (nonce : GammaSeed)
    (message : message_t) (fiat_shamir : HashWriter) (rng : nat)
    : Outcome (Exc (RangeProof * Challenges)) :=
  match fuel with
  | O => OutOfFuel
  | S fuel' =>
      match Prove_attempt c nonce message fiat_shamir rng with
      | Throw e => Done (Throw e)
      | Ok (Retry fiat_shamir' rng') =>
          Prove_retry fuel' c nonce message fiat_shamir' rng'
      | Ok (Proved proof challenges) => Done (Ok (proof, challenges))
      end
  end.

(** [RangeProofLogic::Prove]; [rng] counts the random vectors drawn so far. *)
Definition Prove (fuel : nat) (rng : nat) (vs : Scalars) (nonce : GammaSeed)
    (message : message_t) (seed : Seed) (minValue : Scalar)
    : Outcome (Exc (RangeProof * Challenges)) :=
  match Prove_commit vs nonce message seed minValue with
  | Throw e => Done (Throw e)
  | Ok c => Prove_retry fuel c nonce message (c_fiat_shamir c) rng
  end.

(** ** [VerifyProofs] and [Verify] *)

(** [RangeProofWithSeed]: a proof with the seed of its generators and the
    minimum value. *)
Record RangeProofWithSeed : Type := mkRangeProofWithSeed
  { proof : RangeProof;
    seed : Seed;
    min_value : Scalar }.

(** [RangeProofWithTranscript]: a proof with the challenges re-derived from
    it. *)
Record RangeProofWithTranscript : Type := mkRangeProofWithTranscript
  { p_proof : RangeProofWithSeed;
    p_x : Scalar;
    p_y : Scalar;
    p_z : Scalar;
    p_c_factor : Scalar;
    p_xs : Scalars;
    p_num_input_values_power_2 : nat;
    p_concat_input_values_in_bits : nat }.

(** The transcript builder, the size validation and the sequence of powers
    [ImpInnerProdArg::LoopWithYPows] hands to its body, one pair ([y^i],
    [y^-i]) per index. *)
Class Transcripts : Type :=
  { Build : RangeProofWithSeed -> RangeProofWithTranscript;
    ValidateProofsBySizes : list RangeProofWithSeed -> Exc unit;
    YPows : Scalar -> nat -> list (Scalar * Scalar) }.

Context {transcripts : Transcripts}.

(** The body handed to [LoopWithYPows] (lines 334-347). *)
Definition set_exponents (p : RangeProofWithTranscript)
    (z_pows_from_2 gen_exps : Scalars) (weight_z : Scalar)
    (verifier : Verifier) (arg : nat * (Scalar * Scalar)) : Exc Verifier :=
  (let i := fst arg in
   let y_pow := fst (snd arg) in
   let y_inv_pow := snd (snd arg) in
   let pr := proof (p_proof p) in
   gen_exp_i <- Elements_at gen_exps i ;;
   let gi_exp := (a pr * gen_exp_i)%scalar in
   gen_exp_rev <-
     Elements_at gen_exps (p_concat_input_values_in_bits p - 1 - i) ;;
   let hi_exp := (b pr * y_inv_pow * gen_exp_rev)%scalar in
   let gi_exp := (gi_exp + p_z p)%scalar in
   z_pow <- Elements_at z_pows_from_2 (i / num_input_value_bits) ;;
   two_pow <- Elements_at TwoPows64 (i mod num_input_value_bits) ;;
   let tmp := (z_pow * two_pow)%scalar in
   let hi_exp := (hi_exp - (tmp + p_z p * y_pow) * y_inv_pow)%scalar in
   Ok (SetHiExp
         (SetGiExp verifier i (Scalar_neg (gi_exp * weight_z)%scalar))
         i (Scalar_neg (hi_exp * weight_z)%scalar)))%exc.

(** The task launched for one proof (lines 296-365), with the two weights it
    draws. *)
Definition verify_task (max_mn : nat) (weight_y weight_z : Scalar)
    (p : RangeProofWithTranscript) : Exc bool :=
  let pr := proof (p_proof p) in
  if negb (List.length (Ls pr) =? List.length (Rs pr))%nat then Ok false
  else
    (let gens := GetInstance (seed (p_proof p)) in
     let verifier := Verifier_new max_mn in
     let num_rounds := GetNumRoundsExclLast (List.length (Vs pr)) in
     let z_pows_from_2 :=
       FirstNPow (p_z p) (p_num_input_values_power_2 p + 1) 2 in
     let y_pows_sum :=
       Sum (FirstNPow (p_y p) (p_concat_input_values_in_bits p) 0) in
     let verifier := AddNegativeH verifier (tau_x pr * weight_y)%scalar in
     z_pow_0 <- Elements_at z_pows_from_2 0 ;;
     let delta_yz := (p_z p * y_pows_sum - z_pow_0 * y_pows_sum)%scalar in
     delta_yz <-
       foldExc
         (fun delta_yz i =>
            (z_pow_i <- Elements_at z_pows_from_2 i ;;
             Ok (delta_yz - z_pow_i * InnerProd1x2Pows64)%scalar)%exc)
         (seq 1 (p_num_input_values_power_2 p)) delta_yz ;;
     let verifier :=
       AddNegativeG verifier ((t_hat pr - delta_yz) * weight_y)%scalar in
     verifier <-
       foldExc
         (fun verifier i =>
            (V <- Elements_at (Vs pr) i ;;
             z_pow_i <- Elements_at z_pows_from_2 i ;;
             Ok (AddPoint verifier
                   (Point_sub V (Point_mul (gens_G gens) (min_value (p_proof p))))
                   (z_pow_i * weight_y)%scalar))%exc)
         (seq 0 (List.length (Vs pr))) verifier ;;
     let verifier := AddPoint verifier (T1 pr) (p_x p * weight_y)%scalar in
     let verifier := AddPoint verifier (T2 pr) (Square (p_x p) * weight_y)%scalar in
     let verifier := AddPoint verifier (A pr) weight_z in
     let verifier := AddPoint verifier (S_ pr) (p_x p * weight_z)%scalar in
     let gen_exps := GenGeneratorExponents num_rounds (p_xs p) in
     verifier <-
       foldExc (set_exponents p z_pows_from_2 gen_exps weight_z)
         (combine (seq 0 (p_concat_input_values_in_bits p))
            (YPows (p_y p) (p_concat_input_values_in_bits p)))
         verifier ;;
     let verifier := AddNegativeH verifier (mu pr * weight_z)%scalar in
     let x_invs := map Scalar_inv (p_xs p) in
     verifier <-
       foldExc
         (fun verifier i =>
            (L <- Elements_at (Ls pr) i ;;
             x_i <- Elements_at (p_xs p) i ;;
             let verifier := AddPoint verifier L (Square x_i * weight_z)%scalar in
             R <- Elements_at (Rs pr) i ;;
             x_inv_i <- Elements_at x_invs i ;;
             Ok (AddPoint verifier R (Square x_inv_i * weight_z)%scalar))%exc)
         (seq 0 num_rounds) verifier ;;
     let verifier :=
       AddPositiveG verifier
         ((t_hat pr - a pr * b pr) * p_c_factor p * weight_z)%scalar in
     Ok (Verifier_Verify verifier (gens_G gens) (gens_H gens)
           (GetGiSubset gens max_mn) (GetHiSubset gens max_mn)))%exc.

(** Lines 368-373: the results of the tasks are taken in order; the first
    [false] ends the call, and [get()] rethrows what a task threw. *)
Fixpoint collect_futures (futures : list (Exc bool)) : Exc bool :=
  match futures with
  | [] => Ok true
  | Ok true :: rest => collect_futures rest
  | Ok false :: _ => Ok false
  | Throw e :: _ => Throw e
  end.

(** The tasks of a batch; [weights k] are the two random weights drawn by
    the task of the [k]-th proof. *)
Fixpoint launch_tasks (weights : nat -> Scalar * Scalar) (max_mn : nat)
    (k : nat) (proof_transcripts : list RangeProofWithTranscript)
    : list (Exc bool) :=
  match proof_transcripts with
  | [] => []
  | p :: rest =>
      verify_task max_mn (fst (weights k)) (snd (weights k)) p
      :: launch_tasks weights max_mn (S k) rest
  end.

(** [RangeProofLogic::VerifyProofs]. *)
Definition VerifyProofs (weights : nat -> Scalar * Scalar)
    (proof_transcripts : list RangeProofWithTranscript) (max_mn : nat)
    : Exc bool :=
  collect_futures (launch_tasks weights max_mn 0 proof_transcripts).

(** [RangeProofLogic::Verify]. *)
Definition Verify (weights : nat -> Scalar * Scalar)
    (proofs : list RangeProofWithSeed) : Exc bool :=
  (_ <- ValidateProofsBySizes proofs ;;
   let max_num_rounds :=
     fold_left (fun m p => Nat.max m (List.length (Ls (proof p)))) proofs 0%nat in
   let proof_transcripts := map Build proofs in
   let max_mn := (2 ^ max_num_rounds)%nat in
   VerifyProofs weights proof_transcripts max_mn)%exc.

(** ** [RecoverAmounts] *)

Record AmountRecoveryRequest : Type := mkAmountRecoveryRequest
  { req_id : nat;
    req_seed : Seed;
    req_x : Scalar;
    req_z : Scalar;
    req_Vs : Points;
    req_Ls : Points;
    req_Rs : Points;
    req_mu : Scalar;
    req_tau_x : Scalar;
    req_nonce : GammaSeed;
    req_min_value : Scalar }.

(** [AmountRecoveryRequest::of]. *)
Definition AmountRecoveryRequest_of (p : RangeProofWithSeed)
    (nonce : GammaSeed) (id : nat) : AmountRecoveryRequest :=
  let proof_with_transcript := Build p in
  mkAmountRecoveryRequest id (seed p) (p_x proof_with_transcript)
    (p_z proof_with_transcript) (Vs (proof p)) (Ls (proof p)) (Rs (proof p))
    (mu (proof p)) (tau_x (proof p)) nonce Scalar_zero.

Record RecoveredData : Type := mkRecoveredData
  { rd_id : nat;
    rd_amount : Z;
    rd_gamma : Scalar;
    rd_message : message_t }.

Record AmountRecoveryResult : Type := mkAmountRecoveryResult
  { is_completed : bool;
    successful_results : list RecoveredData }.

(** The body of the loop over the requests: [None] is a [continue]. *)
Definition recover_one (req : AmountRecoveryRequest)
    : Exc (option RecoveredData) :=
  let gens := GetInstance (req_seed req) in
  let G := gens_G gens in
  let H := gens_H gens in
  let Ls_Rs_valid :=
    ((0 <? List.length (req_Ls req))
     && (List.length (req_Ls req) =? List.length (req_Rs req)))%nat in
  if (List.length (req_Vs req) =? 0)%nat || negb Ls_Rs_valid then Ok None
  else if negb (List.length (req_Vs req) =? 1)%nat then Ok None
  else
    (let alpha := GetHashWithSalt (req_nonce req) 1 in
     let rho := GetHashWithSalt (req_nonce req) 2 in
     let tau1 := GetHashWithSalt (req_nonce req) 3 in
     let tau2 := GetHashWithSalt (req_nonce req) 4 in
     gamma_vs0 <-
       match req_nonce req with
       | PointSeed p => Ok (Point_GetHashWithSalt p 100)
       | ScalarsSeed vec => Elements_at vec 0
       end ;;
     let msg1_vs0 := (req_mu req - rho * req_x req - alpha)%scalar in
     V0 <- Elements_at (req_Vs req) 0 ;;
     match
       Decrypt msg1_vs0 gamma_vs0 tau1 tau2 (req_tau_x req) (req_x req)
         (req_z req) Uint64Max H G V0
     with
     | None => Ok None
     | Some msg_amt =>
         Ok (Some
               (mkRecoveredData (req_id req) (amount msg_amt)
                  (GetHashWithSalt (req_nonce req) 100) (msg msg_amt)))
     end)%exc.

(** [RangeProofLogic::RecoverAmounts]. *)
Definition RecoverAmounts (reqs : list AmountRecoveryRequest)
    : Exc AmountRecoveryResult :=
  (xs <-
     foldExc
       (fun xs req =>
          (r <- recover_one req ;;
           Ok (match r with Some x => xs ++ [x] | None => xs end))%exc)
       reqs [] ;;
   Ok (mkAmountRecoveryResult true xs))%exc.

(* --------------------------------------------------------------------- *)
(** ** Batch verification is the conjunction of the per-proof checks      *)
(* --------------------------------------------------------------------- *)

Lemma collect_futures_true futures :
  collect_futures futures = Ok true <->
  (forall i f, nth_error futures i = Some f -> f = Ok true).
Proof.
  induction futures as [| f rest IH]; cbn [collect_futures].
  - split; [intros _ [|i] f' H; discriminate H | reflexivity].
  - destruct f as [[|] | e].
    + rewrite IH. split.
      * intros H [|i] f' E; [inversion E; reflexivity | exact (H i f' E)].
      * intros H i f' E. exact (H (S i) f' E).
    + split; [discriminate|]. intros H.
      specialize (H 0%nat (Ok false) eq_refl). discriminate H.
    + split; [discriminate|]. intros H.
      specialize (H 0%nat (Throw e) eq_refl). discriminate H.
Qed.

Lemma collect_futures_first futures :
  forall i f,
    nth_error futures i = Some f ->
    f <> Ok true ->
    (forall j g, (j < i)%nat -> nth_error futures j = Some g -> g = Ok true) ->
    collect_futures futures = f.
Proof.
  induction futures as [| g rest IH]; intros i f E Ne Before.
  - destruct i; discriminate E.
  - destruct i as [| i].
    + inversion E. subst g. cbn [collect_futures].
      destruct f as [[|] | e]; [contradiction Ne | |]; reflexivity.
    + rewrite (Before 0%nat g (Nat.lt_0_succ i) eq_refl). cbn [collect_futures].
      apply (IH i); [exact E | exact Ne|].
      intros j g' Lt Ej. apply (Before (S j) g'); [lia | exact Ej].
Qed.

Lemma launch_tasks_nth weights max_mn pts :
  forall k i,
    nth_error (launch_tasks weights max_mn k pts) i =
    option_map
      (verify_task max_mn (fst (weights (k + i)%nat)) (snd (weights (k + i)%nat)))
      (nth_error pts i).
Proof.
  induction pts as [| p rest IH]; intros k i; cbn [launch_tasks].
  - destruct i; reflexivity.
  - destruct i as [| i]; cbn [nth_error option_map].
    + rewrite Nat.add_0_r. reflexivity.
    + rewrite IH. rewrite Nat.add_succ_comm. reflexivity.
Qed.

(** C4 (amended).  [VerifyProofs] returns [true] exactly when the check of
    every proof of the batch returns [true].  Otherwise the call ends as the
    check of the first proof, in the order of the batch, that does not
    return [true]: with [false] when that check returns [false], and with its
    exception when it throws.  A proof whose [Ls] and [Rs] differ in length
    fails its check: the batch does not verify, and it returns [false] when
    the checks before it pass.  [Verify] throws what the validation of the
    sizes throws, and otherwise returns [true] exactly when the check of
    every proof, on the transcript built from it, returns [true]. *)
Theorem VerifyProofs_true_iff_every_proof_passes :
  forall (weights : nat -> Scalar * Scalar)
         (proof_transcripts : list RangeProofWithTranscript) (max_mn : nat),
    let check i p :=
      verify_task max_mn (fst (weights i)) (snd (weights i)) p in
    (VerifyProofs weights proof_transcripts max_mn = Ok true <->
     (forall i p, nth_error proof_transcripts i = Some p -> check i p = Ok true))
    /\ (forall i p,
          nth_error proof_transcripts i = Some p ->
          check i p <> Ok true ->
          VerifyProofs weights proof_transcripts max_mn <> Ok true
          /\ ((forall j q, (j < i)%nat -> nth_error proof_transcripts j = Some q ->
                           check j q = Ok true) ->
              VerifyProofs weights proof_transcripts max_mn = check i p))
    /\ (forall i p,
          nth_error proof_transcripts i = Some p ->
          List.length (Ls (proof (p_proof p))) <>
            List.length (Rs (proof (p_proof p))) ->
          check i p = Ok false
          /\ VerifyProofs weights proof_transcripts max_mn <> Ok true
          /\ ((forall j q, (j < i)%nat -> nth_error proof_transcripts j = Some q ->
                           check j q = Ok true) ->
              VerifyProofs weights proof_transcripts max_mn = Ok false))
    /\ (forall proofs : list RangeProofWithSeed,
          let max_mn :=
            (2 ^ fold_left (fun m p => Nat.max m (List.length (Ls (proof p))))
                   proofs 0)%nat in
          (forall e, ValidateProofsBySizes proofs = Throw e ->
                     Verify weights proofs = Throw e)
          /\ (Verify weights proofs = Ok true <->
              ValidateProofsBySizes proofs = Ok tt
              /\ forall i p,
                   nth_error proofs i = Some p ->
                   verify_task max_mn (fst (weights i)) (snd (weights i))
                     (Build p) = Ok true)).
Proof.
  intros weights pts max_mn check. subst check. cbv beta.
  assert (Iff : forall pts max_mn,
             VerifyProofs weights pts max_mn = Ok true <->
             (forall i p, nth_error pts i = Some p ->
                verify_task max_mn (fst (weights i)) (snd (weights i)) p =
                  Ok true)).
  { clear pts max_mn. intros pts max_mn.
    unfold VerifyProofs. rewrite collect_futures_true. split.
    - intros H i p E.
      apply (H i). rewrite launch_tasks_nth, E. reflexivity.
    - intros H i f E. rewrite launch_tasks_nth in E.
      destruct (nth_error pts i) as [p |] eqn:P; [| discriminate E].
      cbn [option_map] in E. inversion E. apply H. exact P. }
  assert (First : forall i p,
             nth_error pts i = Some p ->
             verify_task max_mn (fst (weights i)) (snd (weights i)) p <> Ok true ->
             VerifyProofs weights pts max_mn <> Ok true
             /\ ((forall j q, (j < i)%nat -> nth_error pts j = Some q ->
                    verify_task max_mn (fst (weights j)) (snd (weights j)) q =
                      Ok true) ->
                 VerifyProofs weights pts max_mn =
                   verify_task max_mn (fst (weights i)) (snd (weights i)) p)).
  { intros i p E Ne. split.
    - intros T. apply Ne. exact (proj1 (Iff pts max_mn) T i p E).
    - intros Before. unfold VerifyProofs.
      apply (collect_futures_first _ i).
      + rewrite launch_tasks_nth, E. reflexivity.
      + exact Ne.
      + intros j g Lt Ej. rewrite launch_tasks_nth in Ej.
        destruct (nth_error pts j) as [q |] eqn:Q; [| discriminate Ej].
        cbn [option_map Nat.add] in Ej. inversion Ej.
        apply (Before j q Lt Q). }
  split; [apply Iff|]. split; [exact First|]. split.
  - intros i p E Ne.
    assert (F : verify_task max_mn (fst (weights i)) (snd (weights i)) p =
                Ok false).
    { unfold verify_task.
      destruct (Nat.eqb_spec (List.length (Ls (proof (p_proof p))))
                  (List.length (Rs (proof (p_proof p))))) as [Eq | _];
        [contradiction | reflexivity]. }
    assert (Ne' : verify_task max_mn (fst (weights i)) (snd (weights i)) p <>
                  Ok true) by (rewrite F; discriminate).
    destruct (First i p E Ne') as [NT Dec].
    split; [exact F|]. split; [exact NT|].
    intros Before. rewrite <- F. apply Dec. exact Before.
  - intros proofs mm. subst mm. split.
    + intros e V. unfold Verify. rewrite V. reflexivity.
    + unfold Verify.
      destruct (ValidateProofsBySizes proofs) as [[] | e]; cbn [bindExc].
      * rewrite Iff. split.
        -- intros H. split; [reflexivity|]. intros i p E.
           apply (H i). rewrite nth_error_map, E. reflexivity.
        -- intros [_ H] i q E. rewrite nth_error_map in E.
           destruct (nth_error proofs i) as [p |] eqn:P; [| discriminate E].
           cbn [option_map] in E. inversion E. apply H. exact P.
      * split; [discriminate | intros [V _]; discriminate V].
Qed.

(* --------------------------------------------------------------------- *)
(** ** The value commitments of [Prove]                                   *)
(* --------------------------------------------------------------------- *)

Lemma Elements_at_Ok {X : Type} (l : list X) i x :
  Elements_at l i = Ok x <-> nth_error l i = Some x.
Proof.
  unfold Elements_at. destruct (nth_error l i); split; congruence.
Qed.

(** The commitment loop appends, for each index in turn, the commitment to
    the value and the blinding factor at that index. *)
Lemma commit_values_spec G H vsOriginal gammas :
  forall m start acc fs out fs',
    foldExc (commit_value G H vsOriginal gammas) (seq start m) (acc, fs) =
      Ok (out, fs') ->
    exists new,
      out = acc ++ new
      /\ List.length new = m
      /\ forall j, (j < m)%nat ->
           exists v g,
             nth_error vsOriginal (start + j) = Some v
             /\ nth_error gammas (start + j) = Some g
             /\ nth_error new j =
                  Some (Point_add (Point_mul G v) (Point_mul H g)).
Proof.
  induction m as [| m IH]; intros start acc fs out fs' F; cbn [seq foldExc] in F.
  - inversion F. subst. exists []. rewrite app_nil_r.
    split; [reflexivity|]. split; [reflexivity|]. intros j Lt. lia.
  - apply bindExc_Ok in F. destruct F as ([acc1 fs1] & B & F).
    unfold commit_value in B. cbn [fst snd] in B.
    apply bindExc_Ok in B. destruct B as (v & Ev & B).
    apply bindExc_Ok in B. destruct B as (g & Eg & B).
    inversion B. subst acc1 fs1. clear B.
    apply Elements_at_Ok in Ev. apply Elements_at_Ok in Eg.
    apply IH in F. destruct F as (new & -> & Len & Nth).
    exists (Point_add (Point_mul G v) (Point_mul H g) :: new).
    split; [rewrite <- app_assoc; reflexivity|].
    split; [cbn; rewrite Len; reflexivity|].
    intros [| j] Lt.
    + rewrite Nat.add_0_r. exists v, g. repeat split; assumption.
    + destruct (Nth j ltac:(lia)) as (v' & g' & E1 & E2 & E3).
      replace (start + S j)%nat with (S start + j)%nat by lia.
      exists v', g'. repeat split; assumption.
Qed.

Lemma apply_minValue_length vs minValue :
  List.length (apply_minValue vs minValue) = List.length vs.
Proof.
  unfold apply_minValue. destruct (negb (IsZero minValue)); [| reflexivity].
  apply length_map.
Qed.

Lemma pad_zeros_length l n :
  (List.length l <= n)%nat -> List.length (pad_zeros l n) = n.
Proof.
  intros H. unfold pad_zeros. rewrite length_app, repeat_length. lia.
Qed.

(** The proof carries the commitments made before the [retry] label. *)
Lemma Prove_attempt_Vs c nonce message fs rng proof challenges :
  Prove_attempt c nonce message fs rng = Ok (Proved proof challenges) ->
  Vs proof = c_Vs c.
Proof.
  intros At. unfold Prove_attempt in At.
  repeat match type of At with
         | bindExc _ _ = Ok _ =>
             apply bindExc_Ok in At; destruct At as (? & _ & At)
         | (let '(_, _) := ?x in _) = Ok _ => destruct x
         | match ?x with _ => _ end = Ok _ => destruct x
         end;
    try discriminate At.
  inversion At. reflexivity.
Qed.

Lemma Prove_retry_Vs c nonce message :
  forall fuel fs rng proof challenges,
    Prove_retry fuel c nonce message fs rng = Done (Ok (proof, challenges)) ->
    Vs proof = c_Vs c.
Proof.
  induction fuel as [| fuel IH]; intros fs rng proof challenges R;
    cbn [Prove_retry] in R; [discriminate|].
  destruct (Prove_attempt c nonce message fs rng) as [[fs' rng' | pr ch] | e]
    eqn:At; [exact (IH _ _ _ _ R) | | discriminate].
  inversion R. subst pr ch. exact (Prove_attempt_Vs _ _ _ _ _ _ _ At).
Qed.

(** C7 (amended).  [Prove] rounds the number of values up to the next power
    of two [n] and pads the values with zeros; it publishes [n] commitments,
    and for every index [i < n] the commitment is
    [G * value_i + H * gamma_i] for the (padded) original value and the
    blinding factor at that index.  With a point seed the blinding factors
    are the hashes of the seed with the salts [100 + i], for the padding
    entries too.  With a vector seed they are the scalars of the seed, one
    per value, and the commitments exist only when the number of values is
    already the power of two. *)
Theorem Prove_commitments :
  forall (vs : Scalars) (nonce : GammaSeed) (message : message_t) (seed : Seed)
         (minValue : Scalar) (c : Committed),
    Prove_commit vs nonce message seed minValue = Ok c ->
    let n := GetFirstPowerOf2GreaterOrEqTo (List.length vs) in
    let G := gens_G (GetInstance seed) in
    let H := gens_H (GetInstance seed) in
    ((List.length vs <= n)%nat /\ exists k, n = (2 ^ k)%nat)
    /\ c_vsOriginal c = vs ++ repeat Scalar_zero (n - List.length vs)
    /\ List.length (c_Vs c) = n
    /\ (forall i, (i < n)%nat ->
          exists value gamma,
            nth_error (c_vsOriginal c) i = Some value
            /\ nth_error (c_gammas c) i = Some gamma
            /\ nth_error (c_Vs c) i =
                 Some (Point_add (Point_mul G value) (Point_mul H gamma)))
    /\ match nonce with
       | PointSeed _ =>
           c_gammas c =
             map (fun i => GetHashWithSalt nonce (100 + Z.of_nat i)) (seq 0 n)
       | ScalarsSeed vec =>
           c_gammas c = vec /\ List.length vec = List.length vs
           /\ List.length vs = n
       end
    /\ (forall fuel rng proof challenges,
          Prove fuel rng vs nonce message seed minValue =
            Done (Ok (proof, challenges)) ->
          Vs proof = c_Vs c).
Proof.
  intros vs nonce message seed minValue c P n G H.
  pose proof (GetFirstPowerOf2GreaterOrEqTo_spec (List.length vs)) as [Hle Hpow].
  fold n in Hle, Hpow.
  assert (Last : forall fuel rng proof challenges,
             Prove fuel rng vs nonce message seed minValue =
               Done (Ok (proof, challenges)) ->
             Vs proof = c_Vs c).
  { intros fuel rng proof challenges R. unfold Prove in R. rewrite P in R.
    apply Prove_retry_Vs in R. exact R. }
  unfold Prove_commit in P.
  apply bindExc_Ok in P. destruct P as (_ & _ & P).
  apply bindExc_Ok in P. destruct P as (gammas & Hg & P).
  apply bindExc_Ok in P. destruct P as ([out fs'] & Hc & P).
  apply bindExc_Ok in P. destruct P as (aR & _ & P).
  inversion P. subst c. clear P. cbn [c_vsOriginal c_Vs c_gammas fst snd].
  fold n in Hc, Hg. fold G H in Hc.
  rewrite pad_zeros_length in Hc by (rewrite apply_minValue_length; exact Hle).
  apply commit_values_spec in Hc. destruct Hc as (new & -> & Len & Nth).
  cbn [app].
  split; [split; assumption|].
  split; [reflexivity|].
  split; [exact Len|].
  split; [intros i Lt; exact (Nth i Lt)|].
  split.
  - unfold generate_gammas in Hg. destruct nonce as [p | vec].
    + inversion Hg. reflexivity.
    + rewrite apply_minValue_length in Hg.
      destruct (Nat.eqb_spec (List.length vs) (List.length vec)) as [E | _];
        [| discriminate Hg].
      inversion Hg. subst gammas. split; [reflexivity|]. split; [symmetry; exact E|].
      destruct (Nat.eq_dec (List.length vs) n) as [E' | Ne]; [exact E'|].
      destruct (Nth (List.length vs) ltac:(lia)) as (_ & g & _ & Eg & _).
      cbn [Nat.add] in Eg. rewrite E in Eg.
      assert (Lt : (List.length vec < List.length vec)%nat)
        by (apply nth_error_Some; rewrite Eg; discriminate).
      lia.
  - exact Last.
Qed.

(* --------------------------------------------------------------------- *)
(** ** The consistency check of step (60)                                 *)
(* --------------------------------------------------------------------- *)

Lemma Elements_zip_Ok f u v w :
  Elements_zip f u v = Ok w ->
  List.length u = List.length v /\ w = map2 f u v.
Proof.
  unfold Elements_zip.
  destruct (Nat.eqb_spec (List.length u) (List.length v)) as [E | _];
    [| discriminate].
  intros H. inversion H. split; [exact E | reflexivity].
Qed.

Lemma Elements_zip_same f u v :
  List.length u = List.length v -> Elements_zip f u v = Ok (map2 f u v).
Proof.
  intros E. unfold Elements_zip.
  destruct (Nat.eqb_spec (List.length u) (List.length v)) as [_ | N];
    [reflexivity | contradiction].
Qed.

Lemma map2_length {X Y W : Type} (f : X -> Y -> W) :
  forall u v, List.length u = List.length v ->
              List.length (map2 f u v) = List.length u.
Proof.
  induction u as [| x u IH]; intros [| y v] E; cbn in *; try discriminate;
    [reflexivity|].
  rewrite IH by lia. reflexivity.
Qed.

(** An operation that does not throw the exception of step (60). *)
Definition never_60 {X : Type} (c : Exc X) : Prop :=
  c <> Throw equality_60_error.

Lemma never_60_Ok {X : Type} (x : X) : never_60 (Ok x).
Proof. unfold never_60. discriminate. Qed.

Lemma never_60_bind {X Y : Type} (c : Exc X) (k : X -> Exc Y) :
  never_60 c -> (forall x, c = Ok x -> never_60 (k x)) ->
  never_60 (bindExc c k).
Proof.
  unfold never_60. intros Hc Hk. destruct c as [x | e]; cbn.
  - apply Hk. reflexivity.
  - intros H. apply Hc. inversion H. reflexivity.
Qed.

Lemma never_60_foldExc {X St : Type} (body : St -> X -> Exc St) :
  (forall s x, never_60 (body s x)) ->
  forall l s, never_60 (foldExc body l s).
Proof.
  intros Hb. induction l as [| x l IH]; intros s; cbn [foldExc].
  - apply never_60_Ok.
  - apply never_60_bind; [apply Hb | intros s' _; apply IH].
Qed.

Lemma never_60_Elements_at {X : Type} (l : list X) i :
  never_60 (Elements_at l i).
Proof.
  unfold never_60, Elements_at. destruct (nth_error l i); discriminate.
Qed.

Lemma never_60_Elements_zip f u v : never_60 (Elements_zip f u v).
Proof.
  unfold never_60, Elements_zip.
  destruct (List.length u =? List.length v)%nat; discriminate.
Qed.

Lemma never_60_LazyPoints bases exps : never_60 (LazyPoints bases exps).
Proof.
  unfold never_60, LazyPoints.
  destruct (List.length bases =? List.length exps)%nat; discriminate.
Qed.

Lemma never_60_polynomials c sL sR y z : never_60 (polynomials c sL sR y z).
Proof.
  unfold polynomials, z_pow_twos_of, Elements_add, Elements_sub, Elements_mul.
  repeat first
    [ apply never_60_Ok
    | apply never_60_Elements_at
    | apply never_60_Elements_zip
    | apply never_60_foldExc; intros ? ?
    | apply never_60_bind; [| intros ? _] ].
Qed.

(* --------------------------------------------------------------------- *)
(** ** Amount recovery                                                    *)
(* --------------------------------------------------------------------- *)

(** A request that [RecoverAmounts] does not even try to decrypt. *)
Definition unrecoverable (req : AmountRecoveryRequest) : Prop :=
  List.length (req_Vs req) <> 1%nat
  \/ List.length (req_Ls req) = 0%nat
  \/ List.length (req_Ls req) <> List.length (req_Rs req).

(** The blinding factor [RecoverAmounts] opens the commitment with. *)
Definition gamma_vs0_of (nonce : GammaSeed) : Exc Scalar :=
  match nonce with
  | PointSeed p => Ok (Point_GetHashWithSalt p 100)
  | ScalarsSeed vec => Elements_at vec 0
  end.

(** The call of [MsgAmtCipher::Decrypt] for a request, given the blinding
    factor and the value commitment. *)
Definition decrypt_request (req : AmountRecoveryRequest) (gamma_vs0 : Scalar)
    (V0 : Point) : option MsgAmt :=
  let gens := GetInstance (req_seed req) in
  Decrypt
    (req_mu req - GetHashWithSalt (req_nonce req) 2 * req_x req
     - GetHashWithSalt (req_nonce req) 1)%scalar
    gamma_vs0
    (GetHashWithSalt (req_nonce req) 3) (GetHashWithSalt (req_nonce req) 4)
    (req_tau_x req) (req_x req) (req_z req) Uint64Max
    (gens_H gens) (gens_G gens) V0.

Lemma recover_one_unrecoverable req :
  unrecoverable req -> recover_one req = Ok None.
Proof.
  unfold unrecoverable, recover_one. intros U.
  destruct (Nat.eqb_spec (List.length (req_Vs req)) 0) as [V0 | V0];
    [reflexivity|].
  destruct (Nat.ltb_spec 0 (List.length (req_Ls req))) as [L0 | L0];
    [| reflexivity].
  destruct (Nat.eqb_spec (List.length (req_Ls req)) (List.length (req_Rs req)))
    as [LR | LR]; [| reflexivity].
  cbn [andb negb orb].
  destruct (Nat.eqb_spec (List.length (req_Vs req)) 1) as [V1 | V1];
    [| reflexivity].
  lia.
Qed.

Lemma recover_one_recoverable req V0 gamma_vs0 :
  req_Vs req = [V0] ->
  (0 < List.length (req_Ls req))%nat ->
  List.length (req_Ls req) = List.length (req_Rs req) ->
  gamma_vs0_of (req_nonce req) = Ok gamma_vs0 ->
  recover_one req =
    Ok (option_map
          (fun msg_amt =>
             mkRecoveredData (req_id req) (amount msg_amt)
               (GetHashWithSalt (req_nonce req) 100) (msg msg_amt))
          (decrypt_request req gamma_vs0 V0)).
Proof.
  intros EV L0 LR Eg. unfold recover_one, decrypt_request.
  rewrite EV. cbn [List.length Nat.eqb orb negb].
  apply Nat.ltb_lt in L0. apply Nat.eqb_eq in LR. rewrite L0, LR.
  cbn [andb negb]. unfold gamma_vs0_of in Eg. rewrite Eg.
  cbn [bindExc Elements_at nth_error].
  destruct (Decrypt _ _ _ _ _ _ _ _ _ _ _); reflexivity.
Qed.

(** The results of the requests that decrypt, in the order of the requests,
    when [outcomes] are the results of the loop body. *)
Fixpoint successes (outcomes : list (option RecoveredData))
    : list RecoveredData :=
  match outcomes with
  | [] => []
  | Some x :: rest => x :: successes rest
  | None :: rest => successes rest
  end.

Lemma RecoverAmounts_collects reqs :
  forall outcomes,
    Forall2 (fun req o => recover_one req = Ok o) reqs outcomes ->
    RecoverAmounts reqs = Ok (mkAmountRecoveryResult true (successes outcomes)).
Proof.
  unfold RecoverAmounts.
  assert (G : forall outcomes xs,
             Forall2 (fun req o => recover_one req = Ok o) reqs outcomes ->
             foldExc
               (fun xs req =>
                  bindExc (recover_one req)
                    (fun r => Ok (match r with Some x => xs ++ [x] | None => xs end)))
               reqs xs = Ok (xs ++ successes outcomes)).
  { induction reqs as [| req reqs IH]; intros outcomes xs F; inversion F; subst.
    - cbn. rewrite app_nil_r. reflexivity.
    - cbn [foldExc]. match goal with H : recover_one req = _ |- _ => rewrite H end.
      cbn [bindExc]. rewrite (IH _ _ ltac:(eassumption)).
      destruct y; cbn [successes]; [rewrite <- app_assoc|]; reflexivity. }
  intros outcomes F. rewrite (G outcomes [] F). reflexivity.
Qed.

(** C5 (the failing input).  For a recoverable request whose nonce is a
    vector seed, [RecoverAmounts] opens the commitment with the first scalar
    of the seed -- the blinding factor [Prove] committed with -- but the
    record it returns carries the hash of the seed with salt 100 instead. *)
Theorem RecoverAmounts_vector_seed_returns_hash :
  forall (req : AmountRecoveryRequest) (g : Scalar) (rest : Scalars)
         (V0 : Point) (msg_amt : MsgAmt),
    req_nonce req = ScalarsSeed (g :: rest) ->
    req_Vs req = [V0] ->
    (0 < List.length (req_Ls req))%nat ->
    List.length (req_Ls req) = List.length (req_Rs req) ->
    decrypt_request req g V0 = Some msg_amt ->
    RecoverAmounts [req] =
      Ok (mkAmountRecoveryResult true
            [mkRecoveredData (req_id req) (amount msg_amt)
               (GetHashWithSalt (ScalarsSeed (g :: rest)) 100) (msg msg_amt)]).
Proof.
  intros req g rest V0 msg_amt En EV L0 LR D.
  rewrite (RecoverAmounts_collects [req]
             [Some (mkRecoveredData (req_id req) (amount msg_amt)
                      (GetHashWithSalt (ScalarsSeed (g :: rest)) 100)
                      (msg msg_amt))]); [reflexivity|].
  constructor; [| constructor].
  rewrite (recover_one_recoverable req V0 g EV L0 LR)
    by (rewrite En; reflexivity).
  rewrite D, En. reflexivity.
Qed.

(** Requests with no or several value commitments, with empty [Ls], with
    [Ls] and [Rs] of different lengths, or whose decryption fails, leave no
    trace in the result: the result of a batch is the result of the batch
    without them, and it is always reported as completed. *)
Theorem RecoverAmounts_omits_silently :
  forall (before after : list AmountRecoveryRequest)
         (req : AmountRecoveryRequest) (result : AmountRecoveryResult),
    (unrecoverable req
     \/ exists V0 gamma_vs0,
          req_Vs req = [V0]
          /\ gamma_vs0_of (req_nonce req) = Ok gamma_vs0
          /\ decrypt_request req gamma_vs0 V0 = None) ->
    RecoverAmounts (before ++ after) = Ok result ->
    RecoverAmounts (before ++ req :: after) = Ok result
    /\ is_completed result = true.
Proof.
  intros before after req result Hreq R.
  assert (One : recover_one req = Ok None).
  { destruct Hreq as [U | (V0 & g & EV & Eg & D)].
    - apply recover_one_unrecoverable. exact U.
    - destruct (Nat.eq_dec (List.length (req_Ls req)) 0) as [Z0 | NZ];
        [apply recover_one_unrecoverable; right; left; exact Z0|].
      destruct (Nat.eq_dec (List.length (req_Ls req)) (List.length (req_Rs req)))
        as [LR | LR];
        [| apply recover_one_unrecoverable; right; right; exact LR].
      rewrite (recover_one_recoverable req V0 g EV ltac:(lia) LR Eg), D.
      reflexivity. }
  unfold RecoverAmounts in *.
  apply bindExc_Ok in R. destruct R as (xs & F & R). inversion R. subst result.
  split; [| reflexivity].
  assert (G : forall l xs0,
             foldExc
               (fun xs req =>
                  bindExc (recover_one req)
                    (fun r => Ok (match r with Some x => xs ++ [x] | None => xs end)))
               (l ++ req :: after) xs0 =
             foldExc
               (fun xs req =>
                  bindExc (recover_one req)
                    (fun r => Ok (match r with Some x => xs ++ [x] | None => xs end)))
               (l ++ after) xs0).
  { induction l as [| q l IH]; intros xs0; cbn [app foldExc].
    - rewrite One. reflexivity.
    - destruct (recover_one q) as [o | e]; cbn [bindExc]; [apply IH | reflexivity]. }
  rewrite G, F. reflexivity.
Qed.

(* --------------------------------------------------------------------- *)
(** ** What [Prove] hands to the recovery                                 *)
(* --------------------------------------------------------------------- *)

Lemma polynomials_z_pows c sL sR y z l0 l1 r0 r1 t1 t2 z_pows_from_2 :
  polynomials c sL sR y z = Ok (l0, l1, r0, r1, t1, t2, z_pows_from_2) ->
  z_pows_from_2 = FirstNPow z (c_num_input_values_power_of_2 c) 2.
Proof.
  intros P. unfold polynomials in P.
  repeat (apply bindExc_Ok in P; destruct P as (? & _ & P)).
  inversion P. reflexivity.
Qed.

(** What a finished pass publishes as [mu] and [tau_x]. *)
Lemma Prove_attempt_mu_tau_x c nonce message fs rng proof challenges :
  Prove_attempt c nonce message fs rng = Ok (Proved proof challenges) ->
  exists vsOriginal0,
    nth_error (c_vsOriginal c) 0 = Some vsOriginal0
    /\ mu proof =
         (ComputeAlpha message vsOriginal0 (GetHashWithSalt nonce 1)
          + GetHashWithSalt nonce 2 * ch_x challenges)%scalar
    /\ tau_x proof =
         ComputeTauX message (ch_x challenges) (ch_z challenges)
           (GetHashWithSalt nonce 3) (GetHashWithSalt nonce 4)
           (FirstNPow (ch_z challenges) (c_num_input_values_power_of_2 c) 2)
           (c_gammas c).
Proof.
  intros At. unfold Prove_attempt in At.
  apply bindExc_Ok in At. destruct At as (v0 & Ev & At).
  apply Elements_at_Ok in Ev. exists v0. split; [exact Ev|].
  repeat (apply bindExc_Ok in At; destruct At as (? & _ & At)).
  destruct (gen_fiat_shamir_var _) as [[cy |] fs1]; [| discriminate At].
  destruct (gen_fiat_shamir_var _) as [[cz |] fs2]; [| discriminate At].
  apply bindExc_Ok in At.
  destruct At as ([[[[[[l0 l1] r0] r1] t1] t2] zp] & P & At).
  apply polynomials_z_pows in P. subst zp.
  destruct (gen_fiat_shamir_var _) as [[cx |] fs3]; [| discriminate At].
  apply bindExc_Ok in At. destruct At as ([[l r] t_hat'] & _ & At).
  destruct (gen_fiat_shamir_var _) as [[c_factor |] fs4]; [| discriminate At].
  destruct (ImpInnerProdArg_Run _ _ _ _ _ _ _ _ _) as [[res |] fs5];
    [| discriminate At].
  inversion At. split; reflexivity.
Qed.


(** What [Prove] commits to for a single value: one commitment, with the
    one blinding factor the seed gives. *)
Lemma Prove_commit_single v nonce message seed minValue c :
  Prove_commit [v] nonce message seed minValue = Ok c ->
  exists gamma,
    c_num_input_values_power_of_2 c = 1%nat
    /\ c_vsOriginal c = [v]
    /\ c_gammas c = [gamma]
    /\ c_Vs c =
         [Point_add (Point_mul (gens_G (GetInstance seed)) v)
            (Point_mul (gens_H (GetInstance seed)) gamma)]
    /\ match nonce with
       | PointSeed _ => gamma = GetHashWithSalt nonce 100
       | ScalarsSeed vec => vec = [gamma]
       end.
Proof.
  intros P. unfold Prove_commit in P.
  apply bindExc_Ok in P. destruct P as (_ & _ & P).
  apply bindExc_Ok in P. destruct P as (gammas & Hg & P).
  apply bindExc_Ok in P. destruct P as ([out fs'] & Hc & P).
  apply bindExc_Ok in P. destruct P as (aR & _ & P).
  inversion P. subst c. clear P.
  cbn [c_num_input_values_power_of_2 c_vsOriginal c_gammas c_Vs fst snd].
  change (GetFirstPowerOf2GreaterOrEqTo (List.length [v])) with 1%nat in *.
  rewrite pad_zeros_length in Hc
    by (rewrite apply_minValue_length; apply Nat.le_refl).
  cbn [seq foldExc] in Hc. unfold commit_value in Hc.
  cbn [pad_zeros List.length Nat.sub repeat app Elements_at nth_error bindExc]
    in Hc.
  assert (G : exists gamma,
             gammas = [gamma]
             /\ match nonce with
                | PointSeed _ => gamma = GetHashWithSalt nonce 100
                | ScalarsSeed vec => vec = [gamma]
                end).
  { unfold generate_gammas in Hg. destruct nonce as [p | vec].
    - inversion Hg. eexists. split; reflexivity.
    - rewrite apply_minValue_length in Hg.
      destruct vec as [| g [| g' vec]]; cbn in Hg; try discriminate Hg.
      inversion Hg. exists g. split; reflexivity. }
  destruct G as (gamma & -> & Hn). exists gamma.
  cbn [Elements_at nth_error bindExc fst snd app] in Hc. inversion Hc.
  split; [reflexivity|]. split; [reflexivity|]. split; [reflexivity|].
  split; [reflexivity | exact Hn].
Qed.

(* --------------------------------------------------------------------- *)
(** ** The first failing proof decides the batch                          *)
(* --------------------------------------------------------------------- *)

Lemma collect_futures_app_true passed rest :
  (forall f, In f passed -> f = Ok true) ->
  collect_futures (passed ++ rest) = collect_futures rest.
Proof.
  induction passed as [| f passed IH]; intros H; cbn [app collect_futures].
  - reflexivity.
  - rewrite (H f (or_introl eq_refl)). apply IH.
    intros g Hg. apply H. right. exact Hg.
Qed.

Lemma launch_tasks_app weights max_mn front :
  forall k back,
    launch_tasks weights max_mn k (front ++ back) =
    launch_tasks weights max_mn k front
    ++ launch_tasks weights max_mn (k + List.length front) back.
Proof.
  induction front as [| p front IH]; intros k back; cbn [app launch_tasks List.length].
  - rewrite Nat.add_0_r. reflexivity.
  - rewrite IH. rewrite Nat.add_succ_comm. reflexivity.
Qed.

(** [VerifyProofs] takes the verdicts of the tasks in the order of the
    batch, so the first proof whose check does not return [true] decides the
    call: the batch returns [false] when that check returns [false], and
    rethrows when that check throws, whatever the checks of the later proofs
    would return or throw.  A batch without proofs is accepted. *)
Theorem VerifyProofs_first_failure_decides :
  forall (weights : nat -> Scalar * Scalar)
         (passing later : list RangeProofWithTranscript)
         (p : RangeProofWithTranscript) (max_mn : nat),
    let check i q :=
      verify_task max_mn (fst (weights i)) (snd (weights i)) q in
    (forall i q, nth_error passing i = Some q -> check i q = Ok true) ->
    check (List.length passing) p <> Ok true ->
    VerifyProofs weights (passing ++ p :: later) max_mn =
      check (List.length passing) p
    /\ VerifyProofs weights [] max_mn = Ok true.
Proof.
  intros weights passing later p max_mn check Pass Fail. subst check.
  cbv beta in *. split; [| reflexivity].
  unfold VerifyProofs. rewrite launch_tasks_app.
  rewrite collect_futures_app_true.
  - cbn [launch_tasks Nat.add collect_futures].
    destruct (verify_task max_mn (fst (weights (List.length passing)))
                (snd (weights (List.length passing))) p) as [[|] | e];
      [contradiction Fail | |]; reflexivity.
  - intros f Hf. apply In_nth_error in Hf. destruct Hf as [i Hi].
    rewrite launch_tasks_nth in Hi.
    destruct (nth_error passing i) as [q |] eqn:Q; [| discriminate Hi].
    cbn [option_map Nat.add] in Hi. inversion Hi. apply Pass. exact Q.
Qed.

(* --------------------------------------------------------------------- *)
(** ** Recovery over a batch of requests                                  *)
(* --------------------------------------------------------------------- *)

(** The loop of [RecoverAmounts], started from the results found so far. *)
Definition recover_loop (reqs : list AmountRecoveryRequest)
    (xs : list RecoveredData) : Exc (list RecoveredData) :=
  foldExc
    (fun xs req =>
       (r <- recover_one req ;;
        Ok (match r with Some x => xs ++ [x] | None => xs end))%exc)
    reqs xs.

Lemma recover_loop_from reqs :
  forall xs,
    recover_loop reqs xs =
    match recover_loop reqs [] with
    | Ok found => Ok (xs ++ found)
    | Throw e => Throw e
    end.
Proof.
  unfold recover_loop.
  induction reqs as [| req reqs IH]; intros xs; cbn [foldExc].
  - rewrite app_nil_r. reflexivity.
  - destruct (recover_one req) as [[x |] | e]; cbn [bindExc app].
    + rewrite (IH (xs ++ [x])), (IH [x]).
      destruct (foldExc _ reqs []); [rewrite <- app_assoc|]; reflexivity.
    + apply IH.
    + reflexivity.
Qed.

Lemma recover_loop_app front back :
  forall xs,
    recover_loop (front ++ back) xs =
    match recover_loop front xs with
    | Ok found => recover_loop back found
    | Throw e => Throw e
    end.
Proof.
  unfold recover_loop.
  induction front as [| req front IH]; intros xs; cbn [app foldExc].
  - reflexivity.
  - destruct (recover_one req) as [o | e]; cbn [bindExc]; [apply IH | reflexivity].
Qed.

(** The requests of [reqs] whose flag is set. *)
Fixpoint kept {X : Type} (flags : list bool) (l : list X) : list X :=
  match flags, l with
  | true :: flags', x :: l' => x :: kept flags' l'
  | false :: flags', _ :: l' => kept flags' l'
  | _, _ => []
  end.

Lemma kept_app {X : Type} (f1 : list bool) (l1 : list X) :
  forall f2 l2,
    List.length f1 = List.length l1 ->
    kept (f1 ++ f2) (l1 ++ l2) = kept f1 l1 ++ kept f2 l2.
Proof.
  revert l1. induction f1 as [| b f1 IH]; intros [| x l1] f2 l2 E;
    cbn in E; try discriminate E; cbn [app kept]; [reflexivity|].
  destruct b; cbn [app]; rewrite IH by lia; reflexivity.
Qed.

Lemma recover_one_id req x :
  recover_one req = Ok (Some x) -> rd_id x = req_id req.
Proof.
  unfold recover_one.
  destruct (_ || _); [discriminate|].
  destruct (negb _); [discriminate|].
  intros H.
  apply bindExc_Ok in H. destruct H as (g & _ & H).
  apply bindExc_Ok in H. destruct H as (V0 & _ & H).
  destruct (Decrypt _ _ _ _ _ _ _ _ _ _ _); inversion H. reflexivity.
Qed.

Lemma recover_loop_ids reqs :
  forall found,
    recover_loop reqs [] = Ok found ->
    exists flags,
      List.length flags = List.length reqs
      /\ map rd_id found = map req_id (kept flags reqs).
Proof.
  induction reqs as [| req reqs IH]; intros found F.
  - inversion F. exists []. split; reflexivity.
  - change (req :: reqs) with ([req] ++ reqs) in F.
    rewrite recover_loop_app in F. unfold recover_loop at 1 in F.
    cbn [foldExc] in F.
    destruct (recover_one req) as [o | e] eqn:One; [| discriminate F].
    cbn [bindExc] in F. rewrite recover_loop_from in F.
    destruct (recover_loop reqs []) as [tail | e] eqn:T; [| discriminate F].
    inversion F. subst found. clear F.
    destruct (IH tail eq_refl) as (flags & Len & Ids).
    destruct o as [x |].
    + exists (true :: flags). split; [cbn; rewrite Len; reflexivity|].
      cbn [app map kept]. rewrite (recover_one_id _ _ One), Ids. reflexivity.
    + exists (false :: flags). split; [cbn; rewrite Len; reflexivity|].
      cbn [app kept]. exact Ids.
Qed.

(** [RecoverAmounts] works through the requests one after the other.  On a
    batch made of two batches it returns the results of the first followed
    by the results of the second, and it throws what the first of them to
    throw throws.  Every result carries the id of the request it answers:
    the ids of the results are the ids of some of the requests, in the order
    of the requests. *)
Theorem RecoverAmounts_in_request_order :
  forall (reqs : list AmountRecoveryRequest) (r : AmountRecoveryResult),
    RecoverAmounts reqs = Ok r ->
    (exists flags,
        List.length flags = List.length reqs
        /\ map rd_id (successful_results r) = map req_id (kept flags reqs))
    /\ (forall front back,
          reqs = front ++ back ->
          exists rf rb,
            RecoverAmounts front = Ok rf
            /\ RecoverAmounts back = Ok rb
            /\ successful_results r =
                 successful_results rf ++ successful_results rb).
Proof.
  intros reqs r R.
  change (bindExc (recover_loop reqs [])
            (fun xs => Ok (mkAmountRecoveryResult true xs)) = Ok r) in R.
  apply bindExc_Ok in R. destruct R as (found & F & R). inversion R. subst r.
  cbn [successful_results]. split; [exact (recover_loop_ids reqs found F)|].
  intros front back ->.
  rewrite recover_loop_app in F.
  destruct (recover_loop front []) as [ff |] eqn:Ff; [| discriminate F].
  rewrite recover_loop_from in F.
  destruct (recover_loop back []) as [fb |] eqn:Fb; [| discriminate F].
  inversion F. subst found.
  exists (mkAmountRecoveryResult true ff), (mkAmountRecoveryResult true fb).
  split; [| split; [| reflexivity]].
  - change (bindExc (recover_loop front [])
              (fun xs => Ok (mkAmountRecoveryResult true xs)) =
            Ok (mkAmountRecoveryResult true ff)).
    rewrite Ff. reflexivity.
  - change (bindExc (recover_loop back [])
              (fun xs => Ok (mkAmountRecoveryResult true xs)) =
            Ok (mkAmountRecoveryResult true fb)).
    rewrite Fb. reflexivity.
Qed.

(** A request that passes the size checks and whose nonce is a vector seed
    without scalars makes [RecoverAmounts] throw: the blinding factor is read
    from the seed at index 0.  The call then returns no result at all, not
    even those of the requests it has already answered. *)
Theorem RecoverAmounts_empty_vector_seed_throws :
  forall (before after : list AmountRecoveryRequest)
         (req : AmountRecoveryRequest) (answered : AmountRecoveryResult),
    RecoverAmounts before = Ok answered ->
    req_nonce req = ScalarsSeed [] ->
    List.length (req_Vs req) = 1%nat ->
    (0 < List.length (req_Ls req))%nat ->
    List.length (req_Ls req) = List.length (req_Rs req) ->
    exists e, RecoverAmounts (before ++ req :: after) = Throw e.
Proof.
  intros before after req answered B En EV L0 LR.
  assert (One : exists e, recover_one req = Throw e).
  { unfold recover_one. rewrite EV, En.
    apply Nat.ltb_lt in L0. apply Nat.eqb_eq in LR. rewrite L0, LR.
    cbn. eexists. reflexivity. }
  destruct One as [e One]. exists e.
  change (bindExc (recover_loop before [])
            (fun xs => Ok (mkAmountRecoveryResult true xs)) = Ok answered) in B.
  apply bindExc_Ok in B. destruct B as (found & F & _).
  change (bindExc (recover_loop (before ++ req :: after) [])
            (fun xs => Ok (mkAmountRecoveryResult true xs)) = Throw e).
  rewrite recover_loop_app, F. unfold recover_loop. cbn [foldExc].
  rewrite One. reflexivity.
Qed.

Section WithLaws.

Context {laws : ArithLaws}.

Add Ring scalar_ring : Scalar_ring.

Lemma fold_left_add_acc l :
  forall acc,
    fold_left Scalar_add l acc = (acc + fold_left Scalar_add l Scalar_zero)%scalar.
Proof using laws.
  induction l as [| x l IH]; intros acc; cbn [fold_left].
  - ring.
  - rewrite (IH (acc + x)%scalar), (IH (Scalar_zero + x)%scalar). ring.
Qed.

Lemma Sum_cons x l : Sum (x :: l) = (x + Sum l)%scalar.
Proof using laws.
  unfold Sum. cbn [fold_left]. rewrite fold_left_add_acc. ring.
Qed.

(** The inner product of [l0 + l1 x] and [r0 + r1 x] is the polynomial with
    the coefficients computed from [l0], [l1], [r0], [r1]. *)
Lemma inner_product_identity x :
  forall l0 l1 r0 r1,
    List.length l1 = List.length l0 ->
    List.length r0 = List.length l0 ->
    List.length r1 = List.length l0 ->
    Sum (map2 Scalar_mul
           (map2 Scalar_add l0 (Elements_scale l1 x))
           (map2 Scalar_add r0 (Elements_scale r1 x))) =
    (Sum (map2 Scalar_mul l0 r0)
     + (Sum (map2 Scalar_mul l0 r1) + Sum (map2 Scalar_mul l1 r0)) * x
     + Sum (map2 Scalar_mul l1 r1) * Square x)%scalar.
Proof using laws.
  induction l0 as [| a0 l0 IH]; intros [| a1 l1] [| b0 r0] [| b1 r1] E1 E2 E3;
    cbn in E1, E2, E3; try discriminate.
  - unfold Sum, Square. cbn. ring.
  - cbn [map2 Elements_scale map]. rewrite !Sum_cons.
    fold (Elements_scale l1 x). fold (Elements_scale r1 x).
    rewrite IH by lia. unfold Square. ring.
Qed.

(** C8.  Whatever the values, the seed, the random vectors and the
    challenges, once the coefficient vectors and [t1], [t2] have been
    computed the evaluation at any [x] passes the check of step (60):
    [t_hat], the inner product of [l(x)] and [r(x)], equals
    [t0 + t1 x + t2 x^2].  So no pass of the retry loop, and no run of it,
    ends in the exception of step (60). *)
Theorem equality_60_always_holds :
  (forall c sL sR y z x l0 l1 r0 r1 t1 t2 z_pows_from_2,
      polynomials c sL sR y z = Ok (l0, l1, r0, r1, t1, t2, z_pows_from_2) ->
      exists l r,
        evaluate_at_x l0 l1 r0 r1 t1 t2 x =
          Ok (l, r, Sum (map2 Scalar_mul l r))
        /\ Sum (map2 Scalar_mul l r) =
             (Sum (map2 Scalar_mul l0 r0) + t1 * x + t2 * Square x)%scalar)
  /\ (forall c nonce message fiat_shamir rng,
        Prove_attempt c nonce message fiat_shamir rng <>
          Throw equality_60_error)
  /\ (forall fuel c nonce message fiat_shamir rng,
        Prove_retry fuel c nonce message fiat_shamir rng <>
          Done (Throw equality_60_error)).
Proof using laws.
  assert (Step :
    forall c sL sR y z x l0 l1 r0 r1 t1 t2 z_pows_from_2,
      polynomials c sL sR y z = Ok (l0, l1, r0, r1, t1, t2, z_pows_from_2) ->
      exists l r,
        evaluate_at_x l0 l1 r0 r1 t1 t2 x =
          Ok (l, r, Sum (map2 Scalar_mul l r))
        /\ Sum (map2 Scalar_mul l r) =
             (Sum (map2 Scalar_mul l0 r0) + t1 * x + t2 * Square x)%scalar).
  { intros c sL sR y z x l0 l1 r0 r1 t1 t2 zp P.
    unfold polynomials in P.
    apply bindExc_Ok in P. destruct P as (l0' & _ & P).
    apply bindExc_Ok in P. destruct P as (zpt & _ & P).
    apply bindExc_Ok in P. destruct P as (aRzs & _ & P).
    apply bindExc_Ok in P. destruct P as (yaRzs & _ & P).
    apply bindExc_Ok in P. destruct P as (r0' & _ & P).
    apply bindExc_Ok in P. destruct P as (r1' & _ & P).
    apply bindExc_Ok in P. destruct P as (l0r1 & H01 & P).
    apply bindExc_Ok in P. destruct P as (l1r0 & H10 & P).
    apply bindExc_Ok in P. destruct P as (l1r1 & H11 & P).
    inversion P. subst l0' l1 r0' r1' t1 t2 zp. clear P.
    apply Elements_zip_Ok in H01, H10, H11.
    destruct H01 as [L01 ->], H10 as [L10 ->], H11 as [L11 ->].
    assert (E1 : List.length sL = List.length l0) by lia.
    assert (E2 : List.length r0 = List.length l0) by lia.
    assert (E3 : List.length r1 = List.length l0) by lia.
    pose proof (inner_product_identity x l0 sL r0 r1 E1 E2 E3) as Id.
    exists (map2 Scalar_add l0 (Elements_scale sL x)),
           (map2 Scalar_add r0 (Elements_scale r1 x)).
    split; [| exact Id].
    assert (S1 : List.length (Elements_scale sL x) = List.length l0)
      by (unfold Elements_scale; rewrite length_map; exact E1).
    assert (S2 : List.length (Elements_scale r1 x) = List.length l0)
      by (unfold Elements_scale; rewrite length_map; exact E3).
    unfold evaluate_at_x, Elements_add, Elements_mul.
    rewrite (Elements_zip_same Scalar_add l0 (Elements_scale sL x)) by lia.
    rewrite (Elements_zip_same Scalar_add r0 (Elements_scale r1 x)) by lia.
    cbn [bindExc].
    rewrite Elements_zip_same by (rewrite !map2_length; lia).
    rewrite (Elements_zip_same Scalar_mul l0 r0) by lia.
    cbn [bindExc]. rewrite Id.
    replace (Scalar_eqb _ _) with true
      by (symmetry; apply Scalar_eqb_eq; reflexivity).
    reflexivity. }
  assert (Attempt_ok :
    forall c nonce message fiat_shamir rng,
      never_60 (Prove_attempt c nonce message fiat_shamir rng)).
  { intros c nonce message fs rng. unfold Prove_attempt.
    apply never_60_bind; [apply never_60_Elements_at | intros v0 _].
    apply never_60_bind; [apply never_60_LazyPoints | intros gA _].
    apply never_60_bind; [apply never_60_LazyPoints | intros hA _].
    apply never_60_bind; [apply never_60_LazyPoints | intros gS _].
    apply never_60_bind; [apply never_60_LazyPoints | intros hS _].
    destruct (gen_fiat_shamir_var _) as [[y |] fs1]; [| apply never_60_Ok].
    destruct (gen_fiat_shamir_var _) as [[z |] fs2]; [| apply never_60_Ok].
    apply never_60_bind; [apply never_60_polynomials|].
    intros [[[[[[l0 l1] r0] r1] t1] t2] zp] P.
    destruct (gen_fiat_shamir_var _) as [[x |] fs3]; [| apply never_60_Ok].
    destruct (Step _ _ _ _ _ x _ _ _ _ _ _ _ P) as (l & r & Ev & _).
    rewrite Ev. cbn [bindExc].
    destruct (gen_fiat_shamir_var _) as [[cf |] fs4]; [| apply never_60_Ok].
    destruct (ImpInnerProdArg_Run _ _ _ _ _ _ _ _ _) as [[res |] fs5];
      apply never_60_Ok. }
  split; [exact Step|]. split; [exact Attempt_ok|].
  induction fuel as [| fuel IH]; intros c nonce message fs rng;
    cbn [Prove_retry]; [discriminate|].
  pose proof (Attempt_ok c nonce message fs rng) as N.
  destruct (Prove_attempt c nonce message fs rng) as [[fs' rng' | pr ch] | e].
  - apply IH.
  - discriminate.
  - intros H. inversion H. subst e. apply N. reflexivity.
Qed.

(** The value and the message come back from a single-value proof of
    [Prove], for either variant of the seed; the blinding factor returned is
    the one of the commitment when the seed is a point. *)
Theorem RecoverAmounts_of_proved_single_value :
  forall (v : Scalar) (nonce : GammaSeed) (message : message_t) (token : Seed)
         (minValue : Scalar) (c : Committed) (fiat_shamir : HashWriter)
         (rng : nat) (pr : RangeProof) (challenges : Challenges)
         (id : nat) (amt : Z),
    let p := mkRangeProofWithSeed pr token minValue in
    let gens := GetInstance token in
    Prove_commit [v] nonce message token minValue = Ok c ->
    Prove_attempt c nonce message fiat_shamir rng =
      Ok (Proved pr challenges) ->
    (* [GammaSeed::GetHashWithSalt] of a point seed is the hash of the point *)
    (forall q salt,
        GetHashWithSalt (PointSeed q) salt = Point_GetHashWithSalt q salt) ->
    (* the transcript derives the challenges of the proof again *)
    p_x (Build p) = ch_x challenges ->
    p_z (Build p) = ch_z challenges ->
    (* the inner-product argument has at least one round *)
    (0 < List.length (Ls pr))%nat ->
    List.length (Ls pr) = List.length (Rs pr) ->
    (* [Decrypt] finds what [ComputeAlpha] and [ComputeTauX] hid *)
    (forall gamma msg1_vs0,
        c_gammas c = [gamma] ->
        (msg1_vs0 + GetHashWithSalt nonce 1)%scalar =
          ComputeAlpha message v (GetHashWithSalt nonce 1) ->
        Decrypt msg1_vs0 gamma
          (GetHashWithSalt nonce 3) (GetHashWithSalt nonce 4)
          (ComputeTauX message (ch_x challenges) (ch_z challenges)
             (GetHashWithSalt nonce 3) (GetHashWithSalt nonce 4)
             (FirstNPow (ch_z challenges) 1 2) [gamma])
          (ch_x challenges) (ch_z challenges) Uint64Max
          (gens_H gens) (gens_G gens)
          (Point_add (Point_mul (gens_G gens) v) (Point_mul (gens_H gens) gamma))
        = Some (mkMsgAmt message amt)) ->
    RecoverAmounts [AmountRecoveryRequest_of p nonce id] =
      Ok (mkAmountRecoveryResult true
            [mkRecoveredData id amt (GetHashWithSalt nonce 100) message])
    /\ exists gamma,
         Vs pr =
           [Point_add (Point_mul (gens_G gens) v) (Point_mul (gens_H gens) gamma)]
         /\ match nonce with
            | PointSeed _ => GetHashWithSalt nonce 100 = gamma
            | ScalarsSeed vec => vec = [gamma]
            end.
Proof using laws.
  intros v nonce message token minValue c fs rng pr ch id amt p gens
         Pc At Hhash Hx Hz L0 LR Hdec.
  destruct (Prove_commit_single _ _ _ _ _ _ Pc)
    as (gamma & Hn & Ho & Hg & HV & Hseed).
  pose proof (Prove_attempt_Vs _ _ _ _ _ _ _ At) as EV.
  destruct (Prove_attempt_mu_tau_x _ _ _ _ _ _ _ At) as (v0 & Ev0 & Emu & Etau).
  rewrite Ho in Ev0. inversion Ev0. subst v0. clear Ev0.
  rewrite Hn, Hg in Etau. rewrite HV in EV. fold gens in EV.
  split.
  - set (req := AmountRecoveryRequest_of p nonce id).
    assert (Gv : gamma_vs0_of (req_nonce req) = Ok gamma).
    { cbn. destruct nonce as [q | vec]; cbn.
      - rewrite Hseed, Hhash. reflexivity.
      - rewrite Hseed. reflexivity. }
    rewrite (RecoverAmounts_collects [req]
               [Some (mkRecoveredData id amt (GetHashWithSalt nonce 100)
                        message)]); [reflexivity|].
    constructor; [| constructor].
    rewrite (recover_one_recoverable req _ gamma EV L0 LR Gv).
    unfold decrypt_request, req, AmountRecoveryRequest_of.
    cbn [req_seed req_mu req_nonce req_x req_z req_tau_x req_id seed proof p].
    rewrite Hx, Hz, Etau. fold gens.
    rewrite (Hdec gamma _ Hg); [reflexivity|].
    rewrite Emu. ring.
  - exists gamma. split; [exact EV|].
    destruct nonce; [symmetry; exact Hseed | exact Hseed].
Qed.

(* --------------------------------------------------------------------- *)
(** ** The bit vectors [aL] and [aR]                                      *)
(* --------------------------------------------------------------------- *)

(** The bit of a value at an index, as a scalar. *)
Definition bit_of (v : Scalar) (i : nat) : Scalar :=
  if GetSeriBit v i then Scalar_one else Scalar_zero.

Lemma nth_error_flat_map_chunks {X Y : Type} (f : X -> list Y) k :
  (forall x, List.length (f x) = k) ->
  forall l j i x,
    nth_error l j = Some x -> (i < k)%nat ->
    nth_error (flat_map f l) (k * j + i) = nth_error (f x) i.
Proof.
  intros Hk. induction l as [| y l IH]; intros j i x E Lt.
  - destruct j; discriminate E.
  - cbn [flat_map]. destruct j as [| j].
    + inversion E. subst y. rewrite Nat.mul_0_r. cbn [Nat.add].
      apply nth_error_app1. rewrite Hk. exact Lt.
    + cbn [nth_error] in E. rewrite nth_error_app2 by (rewrite Hk; lia).
      rewrite Hk. replace (k * S j + i - k)%nat with (k * j + i)%nat by lia.
      apply IH; assumption.
Qed.

Lemma flat_map_chunks_length {X Y : Type} (f : X -> list Y) k :
  (forall x, List.length (f x) = k) ->
  forall l, List.length (flat_map f l) = (List.length l * k)%nat.
Proof.
  intros Hk. induction l as [| y l IH]; cbn [flat_map List.length].
  - reflexivity.
  - rewrite length_app, Hk, IH. lia.
Qed.

Lemma bits_of_full vs :
  bits_of vs (List.length vs * num_input_value_bits) =
    flat_map (fun v => map (bit_of v) (seq 0 num_input_value_bits)) vs.
Proof.
  unfold bits_of.
  rewrite (flat_map_chunks_length _ num_input_value_bits)
    by (intros x; rewrite length_map, length_seq; reflexivity).
  rewrite Nat.sub_diag. cbn [repeat]. rewrite app_nil_r. reflexivity.
Qed.

Lemma bits_of_full_length vs :
  List.length (bits_of vs (List.length vs * num_input_value_bits)) =
    (List.length vs * num_input_value_bits)%nat.
Proof.
  rewrite bits_of_full.
  apply flat_map_chunks_length.
  intros x. rewrite length_map, length_seq. reflexivity.
Qed.

Lemma nth_error_map2 {X Y W : Type} (f : X -> Y -> W) :
  forall u v i x y,
    nth_error u i = Some x -> nth_error v i = Some y ->
    nth_error (map2 f u v) i = Some (f x y).
Proof.
  induction u as [| x' u IH]; intros [| y' v] [| i] x y Ex Ey;
    cbn in *; try discriminate.
  - inversion Ex. inversion Ey. reflexivity.
  - apply IH; assumption.
Qed.

(** What lines 74-151 leave behind, read off [Prove_commit]. *)
Lemma Prove_commit_shape vs nonce message seed minValue c :
  Prove_commit vs nonce message seed minValue = Ok c ->
  let n := GetFirstPowerOf2GreaterOrEqTo (List.length vs) in
  c_num_input_values_power_of_2 c = n
  /\ c_concat_input_values_in_bits c = (n * num_input_value_bits)%nat
  /\ c_gens c = GetInstance seed
  /\ c_vs c = pad_zeros (apply_minValue vs minValue) n
  /\ c_vsOriginal c = pad_zeros vs n
  /\ c_aL c = bits_of (c_vs c) (n * num_input_value_bits)
  /\ c_aR c =
       map2 Scalar_sub (c_aL c)
         (RepeatN Scalar_one (n * num_input_value_bits)).
Proof.
  intros P n. unfold Prove_commit in P.
  apply bindExc_Ok in P. destruct P as (_ & _ & P).
  apply bindExc_Ok in P. destruct P as (gammas & _ & P).
  apply bindExc_Ok in P. destruct P as ([out fs'] & _ & P).
  apply bindExc_Ok in P. destruct P as (aR & HaR & P).
  apply Elements_zip_Ok in HaR. destruct HaR as [_ ->].
  inversion P. subst c. clear P. cbn.
  repeat split; reflexivity.
Qed.

(** [Prove] hands the inner-product argument the bits of the values: with
    [n] the number of values rounded up to a power of two, [aL] and [aR]
    have [64 * n] entries; entry [64 * j + i] of [aL] is bit [i] of the
    [j]-th value less [minValue] (zero for the padding), least significant
    bit first; the entry of [aR] is that bit minus one; and the entry-wise
    product of [aL] and [aR] is zero everywhere. *)
Theorem Prove_commits_to_the_bits :
  forall (vs : Scalars) (nonce : GammaSeed) (message : message_t) (seed : Seed)
         (minValue : Scalar) (c : Committed),
    Prove_commit vs nonce message seed minValue = Ok c ->
    let n := GetFirstPowerOf2GreaterOrEqTo (List.length vs) in
    c_vs c =
      apply_minValue vs minValue ++ repeat Scalar_zero (n - List.length vs)
    /\ List.length (c_aL c) = (64 * n)%nat
    /\ List.length (c_aR c) = (64 * n)%nat
    /\ (forall j i v,
          nth_error (c_vs c) j = Some v -> (i < 64)%nat ->
          nth_error (c_aL c) (64 * j + i) = Some (bit_of v i)
          /\ nth_error (c_aR c) (64 * j + i) =
               Some (bit_of v i - Scalar_one)%scalar)
    /\ map2 Scalar_mul (c_aL c) (c_aR c) = repeat Scalar_zero (64 * n).
Proof using laws.
  intros vs nonce message seed minValue c P n.
  destruct (Prove_commit_shape _ _ _ _ _ _ P)
    as (_ & _ & _ & Hvs & _ & HaL & HaR).
  fold n in Hvs, HaL, HaR.
  pose proof (GetFirstPowerOf2GreaterOrEqTo_spec (List.length vs)) as [Hle _].
  fold n in Hle.
  assert (Len : List.length (c_vs c) = n).
  { rewrite Hvs. apply pad_zeros_length. rewrite apply_minValue_length.
    exact Hle. }
  assert (HaL' : c_aL c =
                 bits_of (c_vs c)
                   (List.length (c_vs c) * num_input_value_bits))
    by (rewrite Len; exact HaL).
  clear HaL. rename HaL' into HaL.
  assert (LaL : List.length (c_aL c) = (64 * n)%nat).
  { rewrite HaL, bits_of_full_length, Len. unfold num_input_value_bits. lia. }
  assert (Bits : forall j i v,
             nth_error (c_vs c) j = Some v -> (i < 64)%nat ->
             nth_error (c_aL c) (64 * j + i) = Some (bit_of v i)).
  { intros j i v E Lt. rewrite HaL, bits_of_full.
    rewrite (nth_error_flat_map_chunks _ 64%nat) with (x := v);
      [| intros x; rewrite length_map, length_seq; reflexivity | exact E
       | exact Lt].
    rewrite nth_error_map, nth_error_seq.
    apply Nat.ltb_lt in Lt. unfold num_input_value_bits. rewrite Lt.
    reflexivity. }
  assert (LaR : List.length (c_aR c) = (64 * n)%nat).
  { rewrite HaR. rewrite map2_length; [exact LaL|].
    unfold RepeatN. rewrite repeat_length, LaL.
    unfold num_input_value_bits. lia. }
  split.
  { rewrite Hvs. unfold pad_zeros. rewrite apply_minValue_length.
    reflexivity. }
  split; [exact LaL|]. split; [exact LaR|]. split.
  - intros j i v E Lt. split; [exact (Bits j i v E Lt)|].
    rewrite HaR. apply nth_error_map2; [exact (Bits j i v E Lt)|].
    unfold RepeatN. apply nth_error_repeat.
    assert (j < n)%nat
      by (rewrite <- Len; apply nth_error_Some; rewrite E; discriminate).
    unfold num_input_value_bits. lia.
  - rewrite HaR, HaL, bits_of_full.
    unfold RepeatN.
    replace (n * num_input_value_bits)%nat
      with (List.length (c_vs c) * num_input_value_bits)%nat
      by (rewrite Len; reflexivity).
    replace (64 * n)%nat
      with (List.length (c_vs c) * num_input_value_bits)%nat
      by (rewrite Len; unfold num_input_value_bits; lia).
    generalize (c_vs c) as l.
    assert (Row : forall v m s,
               let row := map (bit_of v) (seq s m) in
               map2 Scalar_mul row (map2 Scalar_sub row (repeat Scalar_one m)) =
               repeat Scalar_zero m).
    { intros v. induction m as [| m IH]; intros s; cbn; [reflexivity|].
      cbn in IH. rewrite IH. f_equal.
      unfold bit_of. destruct (GetSeriBit v s); ring. }
    assert (App : forall (u u' w w' : Scalars),
               List.length u = List.length w ->
               map2 Scalar_mul (u ++ u')
                 (map2 Scalar_sub (u ++ u') (w ++ w')) =
               map2 Scalar_mul u (map2 Scalar_sub u w)
               ++ map2 Scalar_mul u' (map2 Scalar_sub u' w')).
    { induction u as [| x u IH]; intros u' [| y w] w' E; cbn in E;
        try discriminate E; cbn [app map2]; [reflexivity|].
      rewrite IH by lia. reflexivity. }
    induction l as [| v l IH]; [reflexivity|].
    cbn [flat_map List.length Nat.mul Nat.add].
    rewrite repeat_app, repeat_app.
    rewrite App by (rewrite length_map, length_seq, repeat_length; reflexivity).
    rewrite IH. rewrite (Row v num_input_value_bits 0%nat). reflexivity.
Qed.

(* --------------------------------------------------------------------- *)
(** ** What [Prove] throws                                                *)
(* --------------------------------------------------------------------- *)

(** The collaborators deliver vectors of the sizes [Prove] asks for, when
    the values are rounded up to [num] values: the generators, the random
    vectors, the powers, and the 64 powers of two. *)
Definition delivers_sizes (gens : Generators) (num : nat) : Prop :=
  let n := (num * num_input_value_bits)%nat in
  List.length (GetGiSubset gens n) = n
  /\ List.length (GetHiSubset gens n) = n
  /\ (forall rng, List.length (RandVec rng n) = n)
  /\ (forall k m from, List.length (FirstNPow k m from) = m)
  /\ List.length TwoPows64 = num_input_value_bits.

(** The sizes lines 74-151 establish. *)
Definition committed_sizes (c : Committed) : Prop :=
  c_concat_input_values_in_bits c =
    (c_num_input_values_power_of_2 c * num_input_value_bits)%nat
  /\ List.length (c_aL c) = c_concat_input_values_in_bits c
  /\ List.length (c_aR c) = c_concat_input_values_in_bits c
  /\ (0 < List.length (c_vsOriginal c))%nat.

Lemma double_until_pos fuel :
  forall i n, (0 < i -> 0 < double_until fuel i n)%nat.
Proof.
  induction fuel as [| fuel IH]; intros i n H; cbn [double_until];
    [exact H|].
  destruct (i <? n)%nat; [apply IH; lia | exact H].
Qed.

Lemma Prove_commit_sizes vs nonce message seed minValue c :
  Prove_commit vs nonce message seed minValue = Ok c -> committed_sizes c.
Proof.
  intros P.
  destruct (Prove_commit_shape _ _ _ _ _ _ P)
    as (Hn & Hc & _ & Hvs & Hvo & HaL & HaR).
  pose proof (GetFirstPowerOf2GreaterOrEqTo_spec (List.length vs)) as [Hle _].
  assert (Len : List.length (c_vs c) =
                GetFirstPowerOf2GreaterOrEqTo (List.length vs)).
  { rewrite Hvs. apply pad_zeros_length. rewrite apply_minValue_length.
    exact Hle. }
  assert (LaL : List.length (c_aL c) = c_concat_input_values_in_bits c).
  { rewrite HaL, Hc, <- Len. apply bits_of_full_length. }
  unfold committed_sizes. rewrite Hn.
  split; [exact Hc|]. split; [exact LaL|]. split.
  - rewrite HaR. rewrite map2_length; [exact LaL|].
    unfold RepeatN. rewrite repeat_length, LaL. exact Hc.
  - rewrite Hvo, pad_zeros_length by exact Hle.
    apply double_until_pos. lia.
Qed.

Lemma z_pow_twos_of_returns z_pows_from_2 num :
  List.length z_pows_from_2 = num ->
  List.length TwoPows64 = num_input_value_bits ->
  exists z_pow_twos,
    z_pow_twos_of z_pows_from_2 num = Ok z_pow_twos
    /\ List.length z_pow_twos = (num * num_input_value_bits)%nat.
Proof.
  intros Hz Ht. unfold z_pow_twos_of.
  assert (Inner : forall base m s acc,
             (s + m <= List.length TwoPows64)%nat ->
             exists w,
               foldExc
                 (fun acc bit_idx =>
                    bindExc (Elements_at TwoPows64 bit_idx)
                      (fun two_pow => Ok (acc ++ [(base * two_pow)%scalar])))
                 (seq s m) acc = Ok w
               /\ List.length w = (List.length acc + m)%nat).
  { intros base. induction m as [| m IH]; intros s acc Le; cbn [seq foldExc].
    - exists acc. split; [reflexivity | lia].
    - unfold Elements_at at 1.
      destruct (nth_error TwoPows64 s) as [t |] eqn:E;
        [| apply nth_error_None in E; lia].
      cbn [bindExc].
      destruct (IH (S s) (acc ++ [(base * t)%scalar]) ltac:(lia))
        as (w & F & L).
      exists w. split; [exact F|]. rewrite L, length_app. cbn. lia. }
  assert (Outer : forall m s acc,
             (s + m <= List.length z_pows_from_2)%nat ->
             exists w,
               foldExc
                 (fun acc i =>
                    bindExc (Elements_at z_pows_from_2 i)
                      (fun base_z_pow =>
                         foldExc
                           (fun acc bit_idx =>
                              bindExc (Elements_at TwoPows64 bit_idx)
                                (fun two_pow =>
                                   Ok (acc ++ [(base_z_pow * two_pow)%scalar])))
                           (seq 0 num_input_value_bits) acc))
                 (seq s m) acc = Ok w
               /\ List.length w =
                    (List.length acc + m * num_input_value_bits)%nat).
  { induction m as [| m IH]; intros s acc Le; cbn [seq foldExc].
    - exists acc. split; [reflexivity | lia].
    - unfold Elements_at at 1.
      destruct (nth_error z_pows_from_2 s) as [bz |] eqn:E;
        [| apply nth_error_None in E; lia].
      cbn [bindExc].
      destruct (Inner bz num_input_value_bits 0%nat acc ltac:(lia))
        as (w1 & F1 & L1).
      rewrite F1. cbn [bindExc].
      destruct (IH (S s) w1 ltac:(lia)) as (w & F & L).
      exists w. split; [exact F|]. rewrite L, L1. lia. }
  destruct (Outer num 0%nat [] ltac:(lia)) as (w & F & L).
  exists w. split; [exact F | exact L].
Qed.

Lemma polynomials_returns c sL sR y z :
  committed_sizes c ->
  delivers_sizes (c_gens c) (c_num_input_values_power_of_2 c) ->
  List.length sL = c_concat_input_values_in_bits c ->
  List.length sR = c_concat_input_values_in_bits c ->
  exists l0 l1 r0 r1 t1 t2 z_pows_from_2,
    polynomials c sL sR y z = Ok (l0, l1, r0, r1, t1, t2, z_pows_from_2).
Proof.
  intros (Hc & LaL & LaR & _) (_ & _ & _ & Hpow & Htwo) HsL HsR.
  unfold polynomials, Elements_add, Elements_sub, Elements_mul.
  set (n := c_concat_input_values_in_bits c) in *.
  rewrite (Elements_zip_same Scalar_sub (c_aL c) (RepeatN z n))
    by (unfold RepeatN; rewrite repeat_length; exact LaL).
  cbn [bindExc].
  destruct (z_pow_twos_of_returns
              (FirstNPow z (c_num_input_values_power_of_2 c) 2)
              (c_num_input_values_power_of_2 c) (Hpow _ _ _) Htwo)
    as (zpt & Hz & Lz).
  rewrite Hz. cbn [bindExc].
  rewrite (Elements_zip_same Scalar_add (c_aR c) (RepeatN z n))
    by (unfold RepeatN; rewrite repeat_length; exact LaR).
  cbn [bindExc].
  assert (L1 : List.length (map2 Scalar_add (c_aR c) (RepeatN z n)) = n)
    by (rewrite map2_length;
        [exact LaR | unfold RepeatN; rewrite repeat_length; exact LaR]).
  rewrite (Elements_zip_same Scalar_mul (FirstNPow y n 0))
    by (rewrite Hpow, L1; reflexivity).
  cbn [bindExc].
  assert (L2 : List.length
                 (map2 Scalar_mul (FirstNPow y n 0)
                    (map2 Scalar_add (c_aR c) (RepeatN z n))) = n)
    by (rewrite map2_length; rewrite Hpow; [reflexivity | symmetry; exact L1]).
  rewrite (Elements_zip_same Scalar_add _ zpt) by (rewrite L2, Lz; exact Hc).
  cbn [bindExc].
  assert (L3 : List.length
                 (map2 Scalar_add
                    (map2 Scalar_mul (FirstNPow y n 0)
                       (map2 Scalar_add (c_aR c) (RepeatN z n))) zpt) = n)
    by (rewrite map2_length; [exact L2 | rewrite L2, Lz; exact Hc]).
  rewrite (Elements_zip_same Scalar_mul (FirstNPow y n 0) sR)
    by (rewrite Hpow, HsR; reflexivity).
  cbn [bindExc].
  assert (L4 : List.length (map2 Scalar_mul (FirstNPow y n 0) sR) = n)
    by (rewrite map2_length; rewrite Hpow; [reflexivity | symmetry; exact HsR]).
  assert (L0 : List.length (map2 Scalar_sub (c_aL c) (RepeatN z n)) = n)
    by (rewrite map2_length;
        [exact LaL | unfold RepeatN; rewrite repeat_length; exact LaL]).
  rewrite (Elements_zip_same Scalar_mul
             (map2 Scalar_sub (c_aL c) (RepeatN z n))) by (rewrite L0, L4; reflexivity).
  cbn [bindExc].
  rewrite (Elements_zip_same Scalar_mul sL) by (rewrite HsL, L3; reflexivity).
  cbn [bindExc].
  rewrite (Elements_zip_same Scalar_mul sL) by (rewrite HsL, L4; reflexivity).
  cbn [bindExc].
  do 7 eexists. reflexivity.
Qed.

(** The evaluation at [x] goes through on what [polynomials] returns: the
    operands have one size and the two sides of (60) agree. *)
Lemma evaluate_at_x_returns c sL sR y z x l0 l1 r0 r1 t1 t2 z_pows_from_2 :
  polynomials c sL sR y z = Ok (l0, l1, r0, r1, t1, t2, z_pows_from_2) ->
  exists l r t_hat, evaluate_at_x l0 l1 r0 r1 t1 t2 x = Ok (l, r, t_hat).
Proof using laws.
  intros P. unfold polynomials in P.
  apply bindExc_Ok in P. destruct P as (l0' & _ & P).
  apply bindExc_Ok in P. destruct P as (zpt & _ & P).
  apply bindExc_Ok in P. destruct P as (aRzs & _ & P).
  apply bindExc_Ok in P. destruct P as (yaRzs & _ & P).
  apply bindExc_Ok in P. destruct P as (r0' & _ & P).
  apply bindExc_Ok in P. destruct P as (r1' & _ & P).
  apply bindExc_Ok in P. destruct P as (l0r1 & H01 & P).
  apply bindExc_Ok in P. destruct P as (l1r0 & H10 & P).
  apply bindExc_Ok in P. destruct P as (l1r1 & H11 & P).
  inversion P. subst l0' l1 r0' r1' t1 t2 z_pows_from_2. clear P.
  apply Elements_zip_Ok in H01, H10, H11.
  destruct H01 as [L01 ->], H10 as [L10 ->], H11 as [L11 ->].
  assert (E1 : List.length sL = List.length l0) by lia.
  assert (E2 : List.length r0 = List.length l0) by lia.
  assert (E3 : List.length r1 = List.length l0) by lia.
  pose proof (inner_product_identity x l0 sL r0 r1 E1 E2 E3) as Id.
  assert (S1 : List.length (Elements_scale sL x) = List.length l0)
    by (unfold Elements_scale; rewrite length_map; exact E1).
  assert (S2 : List.length (Elements_scale r1 x) = List.length l0)
    by (unfold Elements_scale; rewrite length_map; exact E3).
  unfold evaluate_at_x, Elements_add, Elements_mul.
  rewrite (Elements_zip_same Scalar_add l0 (Elements_scale sL x)) by lia.
  rewrite (Elements_zip_same Scalar_add r0 (Elements_scale r1 x)) by lia.
  cbn [bindExc].
  rewrite Elements_zip_same by (rewrite !map2_length; lia).
  rewrite (Elements_zip_same Scalar_mul l0 r0) by lia.
  cbn [bindExc]. rewrite Id.
  replace (Scalar_eqb _ _) with true
    by (symmetry; apply Scalar_eqb_eq; reflexivity).
  do 3 eexists. reflexivity.
Qed.

(** A pass from the [retry] label does not throw. *)
Lemma Prove_attempt_returns c nonce message fs rng :
  committed_sizes c ->
  delivers_sizes (c_gens c) (c_num_input_values_power_of_2 c) ->
  exists attempt, Prove_attempt c nonce message fs rng = Ok attempt.
Proof using laws.
  intros Sz Dl.
  pose proof Sz as (Hc & LaL & LaR & Hvo).
  pose proof Dl as (HGi & HHi & Hrand & Hpow & Htwo).
  rewrite <- Hc in HGi, HHi, Hrand.
  unfold Prove_attempt.
  destruct (c_vsOriginal c) as [| v0 rest] eqn:Vo; [cbn in Hvo; lia|].
  cbn [Elements_at nth_error bindExc].
  unfold LazyPoints.
  rewrite HGi, HHi, LaL, LaR, !Hrand, Nat.eqb_refl. cbn [bindExc].
  destruct (gen_fiat_shamir_var _) as [[y |] fs1]; [| eexists; reflexivity].
  destruct (gen_fiat_shamir_var _) as [[z |] fs2]; [| eexists; reflexivity].
  destruct (polynomials_returns c
              (RandVec rng (c_concat_input_values_in_bits c))
              (RandVec (S rng) (c_concat_input_values_in_bits c)) y z Sz Dl
              (Hrand _) (Hrand _))
    as (l0 & l1 & r0 & r1 & t1 & t2 & zp & P).
  rewrite P. cbn [bindExc].
  destruct (gen_fiat_shamir_var _) as [[x |] fs3]; [| eexists; reflexivity].
  destruct (evaluate_at_x_returns _ _ _ _ _ x _ _ _ _ _ _ _ P)
    as (l & r & th & Ev).
  rewrite Ev. cbn [bindExc].
  destruct (gen_fiat_shamir_var _) as [[cf |] fs4]; [| eexists; reflexivity].
  destruct (ImpInnerProdArg_Run _ _ _ _ _ _ _ _ _) as [[res |] fs5];
    eexists; reflexivity.
Qed.

Lemma Prove_retry_does_not_throw c nonce message :
  committed_sizes c ->
  delivers_sizes (c_gens c) (c_num_input_values_power_of_2 c) ->
  forall fuel fs rng e,
    Prove_retry fuel c nonce message fs rng <> Done (Throw e).
Proof using laws.
  intros Sz Dl.
  induction fuel as [| fuel IH]; intros fs rng e; cbn [Prove_retry];
    [discriminate|].
  destruct (Prove_attempt_returns c nonce message fs rng Sz Dl) as [at_ ->].
  destruct at_ as [fs' rng' | pr ch]; [apply IH | discriminate].
Qed.

(** How lines 74-151 can fail. *)
Lemma Prove_commit_throws vs nonce message seed minValue e :
  Prove_commit vs nonce message seed minValue = Throw e ->
  ValidateParameters vs message = Throw e
  \/ exists vec,
       nonce = ScalarsSeed vec
       /\ ValidateParameters vs message = Ok tt
       /\ (List.length vec <> List.length vs /\ e = gammas_size_error
           \/ List.length vec = List.length vs
              /\ (List.length vs <
                  GetFirstPowerOf2GreaterOrEqTo (List.length vs))%nat).
Proof.
  intros P. unfold Prove_commit in P.
  destruct (ValidateParameters vs message) as [[] | e0] eqn:V;
    cbn [bindExc] in P; [| left; inversion P; reflexivity].
  right.
  pose proof (GetFirstPowerOf2GreaterOrEqTo_spec (List.length vs)) as [Hle _].
  set (n := GetFirstPowerOf2GreaterOrEqTo (List.length vs)) in *.
  assert (Commit : forall G H vsOriginal gammas,
             (n <= List.length vsOriginal)%nat ->
             (n <= List.length gammas)%nat ->
             forall m s acc,
               (s + m <= n)%nat ->
               exists out,
                 foldExc (commit_value G H vsOriginal gammas) (seq s m) acc =
                   Ok out).
  { intros G H vo gs Lv Lg. induction m as [| m IH]; intros s acc Le;
      cbn [seq foldExc]; [eexists; reflexivity|].
    unfold commit_value at 1. unfold Elements_at.
    destruct (nth_error vo s) as [v |] eqn:Ev;
      [| apply nth_error_None in Ev; lia].
    destruct (nth_error gs s) as [g |] eqn:Eg;
      [| apply nth_error_None in Eg; lia].
    cbn [bindExc]. apply IH. lia. }
  assert (Rest : forall gammas,
             (n <= List.length gammas)%nat ->
             bindExc
               (foldExc
                  (commit_value (gens_G (GetInstance seed))
                     (gens_H (GetInstance seed)) (pad_zeros vs n) gammas)
                  (seq 0 (List.length (pad_zeros (apply_minValue vs minValue) n)))
                  ([], HashWriter_new))
               (fun committed =>
                  bindExc
                    (Elements_sub
                       (bits_of (pad_zeros (apply_minValue vs minValue) n)
                          (n * num_input_value_bits))
                       (RepeatN Scalar_one (n * num_input_value_bits)))
                    (fun aR =>
                       Ok (mkCommitted n (n * num_input_value_bits)
                             (pad_zeros (apply_minValue vs minValue) n)
                             (pad_zeros vs n) gammas (GetInstance seed)
                             (fst committed) (snd committed)
                             (bits_of (pad_zeros (apply_minValue vs minValue) n)
                                (n * num_input_value_bits)) aR))) <>
             Throw e).
  { intros gammas Lg.
    assert (Lp : List.length (pad_zeros (apply_minValue vs minValue) n) = n)
      by (apply pad_zeros_length; rewrite apply_minValue_length; exact Hle).
    rewrite Lp.
    destruct (Commit (gens_G (GetInstance seed)) (gens_H (GetInstance seed))
                (pad_zeros vs n) gammas
                ltac:(rewrite pad_zeros_length by exact Hle; lia) Lg
                n 0%nat ([], HashWriter_new) ltac:(lia)) as (out & ->).
    cbn [bindExc]. unfold Elements_sub.
    rewrite Elements_zip_same; [discriminate|].
    rewrite <- Lp at 2. rewrite bits_of_full_length, Lp.
    unfold RepeatN. rewrite repeat_length. reflexivity. }
  destruct nonce as [p | vec]; cbn [generate_gammas bindExc] in P.
  - exfalso. revert P. apply Rest. rewrite length_map, length_seq. lia.
  - exists vec. split; [reflexivity|]. split; [reflexivity|].
    rewrite apply_minValue_length in P.
    destruct (Nat.eqb_spec (List.length vs) (List.length vec)) as [E | Ne];
      cbn [negb bindExc] in P.
    + right. split; [symmetry; exact E|].
      destruct (Nat.lt_ge_cases (List.length vs) n) as [Lt | Ge]; [exact Lt|].
      exfalso. revert P. apply Rest. lia.
    + left. split; [congruence|]. inversion P. reflexivity.
Qed.

(** [Prove] throws only for what it is given: what [ValidateParameters]
    throws for the values and the message, or, with a vector seed, the size
    error when the seed does not hold one scalar per value, and an exception
    when the number of values is not a power of two.  Otherwise no pass from
    the [retry] label throws, the check of step (60) included, provided the
    collaborators deliver vectors of the sizes asked for. *)
Theorem Prove_throws_only_for_its_arguments :
  forall (fuel rng : nat) (vs : Scalars) (nonce : GammaSeed)
         (message : message_t) (seed : Seed) (minValue : Scalar)
         (e : Exception),
    delivers_sizes (GetInstance seed)
      (GetFirstPowerOf2GreaterOrEqTo (List.length vs)) ->
    Prove fuel rng vs nonce message seed minValue = Done (Throw e) ->
    ValidateParameters vs message = Throw e
    \/ exists vec,
         nonce = ScalarsSeed vec
         /\ ValidateParameters vs message = Ok tt
         /\ (List.length vec <> List.length vs /\ e = gammas_size_error
             \/ List.length vec = List.length vs
                /\ (List.length vs <
                    GetFirstPowerOf2GreaterOrEqTo (List.length vs))%nat).
Proof using laws.
  intros fuel rng vs nonce message seed minValue e Dl R. unfold Prove in R.
  destruct (Prove_commit vs nonce message seed minValue) as [c | e0] eqn:P.
  - exfalso.
    destruct (Prove_commit_shape _ _ _ _ _ _ P) as (Hn & _ & Hg & _).
    revert R. apply Prove_retry_does_not_throw.
    + exact (Prove_commit_sizes _ _ _ _ _ _ P).
    + rewrite Hn, Hg. exact Dl.
  - inversion R. subst e0. exact (Prove_commit_throws _ _ _ _ _ _ P).
Qed.

End WithLaws.

End WithArith.
End RangeProof.

(* ===================================================================== *)
(** * The range proof on the integers                                     *)
(* ===================================================================== *)

Module RangeProofExamples.
Import RangeProof.

(** Scalars are the integers and points are pairs of integers, the
    coordinates with respect to [G] and [H]. *)
#[local] Instance Z_arith : Arith :=
  {| Scalar := Z;
     Point := (Z * Z)%type;
     Seed := N;
     Generators := N;
     HashWriter := Z;
     Verifier := list ((Z * Z) * Z)%type;
     Scalar_zero := 0;
     Scalar_one := 1;
     Scalar_add := Z.add;
     Scalar_sub := Z.sub;
     Scalar_mul := Z.mul;
     Scalar_neg := Z.opp;
     Scalar_inv := fun x => x;
     Scalar_eqb := Z.eqb;
     GetSeriBit := fun v i => Z.testbit v (Z.of_nat i);
     Scalar_of_hash := Z.of_N;
     Point_zero := (0, 0);
     Point_add := fun p q => (fst p + fst q, snd p + snd q);
     Point_sub := fun p q => (fst p - fst q, snd p - snd q);
     Point_mul := fun p k => (fst p * k, snd p * k) |}.

#[local] Instance Z_laws : ArithLaws :=
  {| Scalar_ring := Zth; Scalar_eqb_eq := Z.eqb_eq |}.

(** Messages as numbers, most significant byte first. *)
Definition Z_of_bytes (m : message_t) : Z :=
  fold_left (fun acc b => acc * 256 + Z.of_N (Byte.to_N b)) m 0.

Fixpoint bytes_of_Z (fuel : nat) (z : Z) : message_t :=
  match fuel with
  | O => []
  | S fuel' =>
      if z <=? 0 then []
      else bytes_of_Z fuel' (z / 256)
           ++ [match Byte.of_N (Z.to_N (z mod 256)) with
               | Some b => b
               | None => Byte.x00
               end]
  end.

(** The hash of a point with a salt. *)
Definition Z_point_hash (p : Z * Z) (salt : Z) : Z := fst p + 2 * snd p + salt.

(** The cipher keeps the first 23 bytes of the message above the 64 bits of
    the value in [alpha] and the rest of the message in [tau_x]; hashes and
    challenges are small numbers; the inner-product argument and the
    verifier are stand-ins. *)
#[local] Instance Z_collaborators : Collaborators :=
  {| GetHashWithSalt :=
       fun nonce salt =>
         match nonce with
         | PointSeed p => Z_point_hash p salt
         | ScalarsSeed vec => 7 * fold_left Z.add vec 0 + salt
         end;
     Point_GetHashWithSalt := Z_point_hash;
     ValidateParameters :=
       fun vs message =>
         if (54 <? List.length message)%nat
         then Throw (runtime_error "message size is too large")
         else if (List.length vs =? 0)%nat
         then Throw (runtime_error "no input values to prove")
         else if (16 <? List.length vs)%nat
         then Throw (runtime_error "number of input values exceeds the maximum")
         else Ok tt;
     TwoPows64 := map (fun i => 2 ^ Z.of_nat i) (seq 0 64);
     InnerProd1x2Pows64 := 2 ^ 64 - 1;
     Uint64Max := 2 ^ 64 - 1;
     GetNumRoundsExclLast :=
       fun n => Nat.log2 (GetFirstPowerOf2GreaterOrEqTo n * 64);
     GetInstance := fun seed => seed;
     gens_G := fun _ => (1, 0);
     gens_H := fun _ => (0, 1);
     GetGiSubset := fun _ n => map (fun i => (Z.of_nat i + 2, 1)) (seq 0 n);
     GetHiSubset := fun _ n => map (fun i => (1, Z.of_nat i + 2)) (seq 0 n);
     FirstNPow :=
       fun k n from => map (fun i => k ^ Z.of_nat (from + i)) (seq 0 n);
     RandVec := fun rng n => map (fun i => Z.of_nat (rng + i) mod 5 + 1) (seq 0 n);
     HashWriter_new := 0;
     write_point := fun h p => (3 * h + fst p + 2 * snd p + 1) mod 1009;
     write_scalar := fun h s => (5 * h + s + 2) mod 1009;
     GetHash := fun h => (Z.to_N (h mod 7 + 2), (h + 1) mod 1009);
     ComputeAlpha :=
       fun message vs0 nonce_alpha =>
         nonce_alpha
         + Z.lor (Z.shiftl (Z_of_bytes (firstn 23 message)) 64)
             (Z.land vs0 (2 ^ 64 - 1));
     RetrieveMsg2 := fun message => Z_of_bytes (skipn 23 message);
     ComputeTauX :=
       fun message x z tau1 tau2 z_pows_from_2 gammas =>
         tau2 * (x * x) + (tau1 + Z_of_bytes (skipn 23 message)) * x
         + fold_left Z.add (map2 Z.mul z_pows_from_2 gammas) 0;
     Decrypt :=
       fun msg1_vs0 gamma_vs0 tau1 tau2 tau_x x z uint64_max H G V0 =>
         let vs0 := Z.land msg1_vs0 uint64_max in
         let V := (fst G * vs0 + fst H * gamma_vs0,
                   snd G * vs0 + snd H * gamma_vs0) in
         if negb ((fst V =? fst V0) && (snd V =? snd V0)) then None
         else
           let msg1 := Z.shiftr msg1_vs0 64 in
           let msg2 := (tau_x - tau2 * (x * x) - z * z * gamma_vs0) / x - tau1 in
           Some (mkMsgAmt (bytes_of_Z 23 msg1 ++ bytes_of_Z 31 msg2) vs0);
     ImpInnerProdArg_Run :=
       fun n Gi Hi G l r c_factor y fiat_shamir =>
         (Some (mkImpInnerProdArgResult (repeat (1, 1) (Nat.log2 n))
                  (repeat (1, 1) (Nat.log2 n)) (hd 0 l) (hd 0 r)),
          fiat_shamir);
     GenGeneratorExponents := fun num_rounds xs => repeat 1 (2 ^ num_rounds);
     Verifier_new := fun _ => [];
     AddPoint := fun v p s => (p, s) :: v;
     AddPositiveG := fun v s => ((1, 0), s) :: v;
     AddNegativeG := fun v s => ((1, 0), - s) :: v;
     AddNegativeH := fun v s => ((0, 1), - s) :: v;
     SetGiExp := fun v _ _ => v;
     SetHiExp := fun v _ _ => v;
     Verifier_Verify := fun _ _ _ _ _ => true |}.

(** A challenge as the transcript builder derives it. *)
Definition challenge (fiat_shamir : HashWriter) : Scalar * HashWriter :=
  match gen_fiat_shamir_var fiat_shamir with
  | (Some v, fiat_shamir') => (v, fiat_shamir')
  | (None, fiat_shamir') => (Scalar_zero, fiat_shamir')
  end.

(** The transcript builder replays the hasher of [Prove] on the proof. *)
#[local] Instance Z_transcripts : Transcripts :=
  {| Build :=
       fun p =>
         let pr := proof p in
         let fs := fold_left write_point (Vs pr) HashWriter_new in
         let fs := write_point (write_point fs (A pr)) (S_ pr) in
         let '(y, fs) := challenge fs in
         let '(z, fs) := challenge fs in
         let fs := write_point (write_point fs (T1 pr)) (T2 pr) in
         let '(x, fs) := challenge fs in
         let fs :=
           write_scalar (write_scalar (write_scalar fs (tau_x pr)) (mu pr))
             (t_hat pr) in
         let '(c_factor, fs) := challenge fs in
         let n := GetFirstPowerOf2GreaterOrEqTo (List.length (Vs pr)) in
         mkRangeProofWithTranscript p x y z c_factor
           (repeat 2 (List.length (Ls pr))) n (n * 64);
     ValidateProofsBySizes :=
       fun proofs =>
         if existsb (fun p => (List.length (Vs (proof p)) =? 0)%nat) proofs
         then Throw (runtime_error "no input value")
         else Ok tt;
     YPows := fun y n => map (fun i => (y ^ Z.of_nat i, 1)) (seq 0 n) |}.

(** The message [hello]. *)
Definition hello : message_t :=
  [Byte.x68; Byte.x65; Byte.x6c; Byte.x6c; Byte.x6f].

(** What [Prove] commits to for the values 5, 7 and 9 and a point seed. *)
Definition three_committed : Committed.
Proof.
  let v := eval vm_compute in
    (Prove_commit [5; 7; 9] (PointSeed (3, 4)) hello 0%N 0) in
  match v with Ok ?c => exact c end.
Defined.

(** Three values are padded to four; the fourth blinding factor is the hash
    of the seed with salt 103. *)
Example three_values_point_seed :
  Prove_commit [5; 7; 9] (PointSeed (3, 4)) hello 0%N 0 = Ok three_committed
  /\ c_vsOriginal three_committed = [5; 7; 9; 0]
  /\ c_gammas three_committed = [111; 112; 113; 114]
  /\ c_Vs three_committed = [(5, 111); (7, 112); (9, 113); (0, 114)].
Proof. repeat split; reflexivity. Qed.

(** C7, as stated, fails.  With a point seed the padding entry is committed
    with the hash of the seed with salt 103 as its blinding factor, not with
    zero: the fourth commitment is [G * 0 + H * 114], while [G * 0 + H * 0]
    is the point [(0, 0)]. *)
Lemma Prove_pads_blinding_factors_with_hashes :
  Prove_commit [5; 7; 9] (PointSeed (3, 4)) hello 0%N 0 = Ok three_committed
  /\ nth_error (c_vsOriginal three_committed) 3 = Some 0
  /\ nth_error (c_gammas three_committed) 3 =
       Some (GetHashWithSalt (PointSeed (3, 4)) 103)
  /\ GetHashWithSalt (PointSeed (3, 4)) 103 = 114
  /\ nth_error (c_Vs three_committed) 3 =
       Some (Point_add (Point_mul (gens_G 0%N) 0) (Point_mul (gens_H 0%N) 114))
  /\ Point_add (Point_mul (gens_G 0%N) 0) (Point_mul (gens_H 0%N) 114) = (0, 114)
  /\ Point_add (Point_mul (gens_G 0%N) 0) (Point_mul (gens_H 0%N) 0) = (0, 0).
Proof. repeat split; reflexivity. Qed.

(** With a vector seed of three scalars for three values, the commitment
    loop asks for a fourth blinding factor, and [Prove] ends in the
    exception of the checked index. *)
Example three_values_vector_seed :
  Prove 3 0 [5; 7; 9] (ScalarsSeed [1; 2; 3]) hello 0%N 0 =
    Done (Throw index_error)
  /\ match Prove_commit [5; 7; 9; 0] (ScalarsSeed [1; 2; 3; 4]) hello 0%N 0 with
     | Ok c => c_Vs c = [(5, 1); (7, 2); (9, 3); (0, 4)]
     | Throw _ => False
     end.
Proof. split; [reflexivity | vm_compute; reflexivity]. Qed.

(** [Prove_commitments] at the values 5, 7 and 9. *)
Lemma Prove_commitments_witness :
  Prove_commit [5; 7; 9] (PointSeed (3, 4)) hello 0%N 0 = Ok three_committed
  /\ c_vsOriginal three_committed = [5; 7; 9] ++ repeat 0 (4 - 3)
  /\ List.length (c_Vs three_committed) = 4%nat
  /\ c_gammas three_committed =
       map (fun i => GetHashWithSalt (PointSeed (3, 4)) (100 + Z.of_nat i))
         (seq 0 4)
  /\ exists value gamma,
       nth_error (c_vsOriginal three_committed) 3 = Some value
       /\ nth_error (c_gammas three_committed) 3 = Some gamma
       /\ nth_error (c_Vs three_committed) 3 =
            Some (Point_add (Point_mul (1, 0) value) (Point_mul (0, 1) gamma)).
Proof.
  assert (C : Prove_commit [5; 7; 9] (PointSeed (3, 4)) hello 0%N 0 =
              Ok three_committed) by reflexivity.
  destruct (Prove_commitments _ _ _ _ _ _ C)
    as (_ & Pad & Len & Com & Gam & _).
  split; [exact C|]. split; [exact Pad|]. split; [exact Len|].
  split; [exact Gam|]. exact (Com 3%nat ltac:(cbv; lia)).
Defined.

(** What [Prove] commits to for the single value 5. *)
Definition one_committed : Committed.
Proof.
  let v := eval vm_compute in
    (Prove_commit [5] (PointSeed (3, 4)) hello 0%N 0) in
  match v with Ok ?c => exact c end.
Defined.

(** [equality_60_always_holds] for the value 5, the random vectors of the
    first pass and the challenges [y = 5], [z = 4] and [x = 4]. *)
Lemma equality_60_always_holds_witness :
  exists l0 l1 r0 r1 t1 t2 z_pows_from_2,
    polynomials one_committed (RandVec 0 64) (RandVec 1 64) 5 4 =
      Ok (l0, l1, r0, r1, t1, t2, z_pows_from_2)
    /\ exists l r,
         evaluate_at_x l0 l1 r0 r1 t1 t2 4 = Ok (l, r, Sum (map2 Z.mul l r))
         /\ Sum (map2 Z.mul l r) = Sum (map2 Z.mul l0 r0) + t1 * 4 + t2 * (4 * 4).
Proof.
  destruct (polynomials one_committed (RandVec 0 64) (RandVec 1 64) 5 4)
    as [[[[[[[l0 l1] r0] r1] t1] t2] z_pows_from_2] | e] eqn:P;
    [| vm_compute in P; discriminate P].
  exists l0, l1, r0, r1, t1, t2, z_pows_from_2. split; [reflexivity|].
  destruct (equality_60_always_holds (arith := Z_arith)) as (H & _).
  exact (H _ _ _ _ _ 4 _ _ _ _ _ _ _ P).
Defined.

(** A proof for the value 5 with the vector seed [11], and the request to
    recover it. *)
Definition vector_proof : RangeProof.
Proof.
  let v := eval vm_compute in
    (Prove 3 0 [5] (ScalarsSeed [11]) hello 0%N 0) in
  match v with Done (Ok (?p, _)) => exact p end.
Defined.

Definition vector_challenges : Challenges := mkChallenges 8 2 6 8.

Definition vector_request : AmountRecoveryRequest :=
  AmountRecoveryRequest_of (mkRangeProofWithSeed vector_proof 0%N 0)
    (ScalarsSeed [11]) 1.

(** [RecoverAmounts_vector_seed_returns_hash] at that request: the value 5
    was committed with the blinding factor 11, and the recovery returns the
    value, the message and 177, the hash of the seed with salt 100. *)
Lemma RecoverAmounts_vector_seed_returns_hash_witness :
  Prove 3 0 [5] (ScalarsSeed [11]) hello 0%N 0 =
    Done (Ok (vector_proof, vector_challenges))
  /\ Vs vector_proof =
       [Point_add (Point_mul (gens_G 0%N) 5) (Point_mul (gens_H 0%N) 11)]
  /\ RecoverAmounts [vector_request] =
       Ok (mkAmountRecoveryResult true [mkRecoveredData 1 5 177 hello]).
Proof.
  split; [reflexivity|]. split; [reflexivity|].
  exact (RecoverAmounts_vector_seed_returns_hash vector_request 11 [] (5, 11)
           (mkMsgAmt hello 5) eq_refl eq_refl (Nat.lt_0_succ 5) eq_refl eq_refl).
Defined.

(** With a point seed the same recovery returns the blinding factor of the
    commitment. *)
Definition point_proof : RangeProof.
Proof.
  let v := eval vm_compute in
    (Prove 3 0 [5] (PointSeed (3, 4)) hello 0%N 0) in
  match v with Done (Ok (?p, _)) => exact p end.
Defined.

Example point_seed_roundtrip :
  Vs point_proof =
    [Point_add (Point_mul (gens_G 0%N) 5) (Point_mul (gens_H 0%N) 111)]
  /\ RecoverAmounts
       [AmountRecoveryRequest_of (mkRangeProofWithSeed point_proof 0%N 0)
          (PointSeed (3, 4)) 1] =
     Ok (mkAmountRecoveryResult true [mkRecoveredData 1 5 111 hello]).
Proof. split; reflexivity. Qed.

Definition point_challenges : Challenges := mkChallenges 5 4 4 3.

Definition point_request : AmountRecoveryRequest :=
  AmountRecoveryRequest_of (mkRangeProofWithSeed point_proof 0%N 0)
    (PointSeed (3, 4)) 1.

(** [RecoverAmounts_of_proved_single_value] at that proof. *)
Lemma RecoverAmounts_of_proved_single_value_witness :
  Prove_commit [5] (PointSeed (3, 4)) hello 0%N 0 = Ok one_committed
  /\ Prove_attempt one_committed (PointSeed (3, 4)) hello
       (c_fiat_shamir one_committed) 0 =
     Ok (Proved point_proof point_challenges)
  /\ RecoverAmounts [point_request] =
       Ok (mkAmountRecoveryResult true [mkRecoveredData 1 5 111 hello])
  /\ exists gamma,
       Vs point_proof =
         [Point_add (Point_mul (gens_G 0%N) 5) (Point_mul (gens_H 0%N) gamma)]
       /\ GetHashWithSalt (PointSeed (3, 4)) 100 = gamma.
Proof.
  assert (C : Prove_commit [5] (PointSeed (3, 4)) hello 0%N 0 = Ok one_committed)
    by reflexivity.
  assert (At : Prove_attempt one_committed (PointSeed (3, 4)) hello
                 (c_fiat_shamir one_committed) 0 =
               Ok (Proved point_proof point_challenges))
    by reflexivity.
  split; [exact C|]. split; [exact At|].
  refine (RecoverAmounts_of_proved_single_value _ _ _ _ _ _ _ _ _ _ 1%nat 5
            C At (fun _ _ => eq_refl) eq_refl eq_refl (Nat.lt_0_succ 5)
            eq_refl _).
  intros gamma msg1_vs0 Hg Hm. inversion Hg. subst gamma.
  let n := eval vm_compute in
    (ComputeAlpha hello 5 (GetHashWithSalt (PointSeed (3, 4)) 1)) in
  change (msg1_vs0 + 12 = n) in Hm;
  assert (E : msg1_vs0 = n - 12) by lia.
  subst msg1_vs0. reflexivity.
Defined.

(** A request with two value commitments. *)
Definition two_commitments : AmountRecoveryRequest :=
  mkAmountRecoveryRequest 2 0%N 4 4 [(5, 111); (7, 112)] [(1, 1)] [(1, 1)]
    0 0 (PointSeed (3, 4)) 0.

(** [RecoverAmounts_omits_silently] at a batch of that request and
    [point_request]. *)
Lemma RecoverAmounts_omits_silently_witness :
  RecoverAmounts [two_commitments; point_request] =
    Ok (mkAmountRecoveryResult true [mkRecoveredData 1 5 111 hello]).
Proof.
  assert (U : unrecoverable two_commitments) by (left; discriminate).
  exact (proj1 (RecoverAmounts_omits_silently [] [point_request]
                  two_commitments
                  (mkAmountRecoveryResult true [mkRecoveredData 1 5 111 hello])
                  (or_introl U) eq_refl)).
Defined.

(** A proof whose [Ls] and [Rs] differ in length fails the batch. *)
Example unequal_Ls_Rs_fail_the_batch :
  let corrupted :=
    mkRangeProof (Vs point_proof) (A point_proof) (S_ point_proof)
      (T1 point_proof) (T2 point_proof) (tau_x point_proof) (mu point_proof)
      (t_hat point_proof) (Ls point_proof) (tl (Rs point_proof))
      (a point_proof) (b point_proof) in
  VerifyProofs (fun _ => (2, 3))
    [Build (mkRangeProofWithSeed point_proof 0%N 0);
     Build (mkRangeProofWithSeed corrupted 0%N 0)] 64 = Ok false.
Proof. reflexivity. Qed.

(** A proof whose [Rs] lost an entry, between two sound ones. *)
Definition corrupted_proof : RangeProof :=
  mkRangeProof (Vs point_proof) (A point_proof) (S_ point_proof)
    (T1 point_proof) (T2 point_proof) (tau_x point_proof) (mu point_proof)
    (t_hat point_proof) (Ls point_proof) (tl (Rs point_proof))
    (a point_proof) (b point_proof).

(** [VerifyProofs_first_failure_decides] at a batch of a sound proof, the
    corrupted one and the sound one again. *)
Lemma VerifyProofs_first_failure_decides_witness :
  VerifyProofs (fun _ => (2, 3))
    ([Build (mkRangeProofWithSeed point_proof 0%N 0)]
     ++ Build (mkRangeProofWithSeed corrupted_proof 0%N 0)
        :: [Build (mkRangeProofWithSeed point_proof 0%N 0)]) 64 =
    Ok false.
Proof.
  assert (Pass : forall i q,
             nth_error [Build (mkRangeProofWithSeed point_proof 0%N 0)] i =
               Some q ->
             verify_task 64 2 3 q = Ok true).
  { intros i q E. destruct i as [| i]; cbn [nth_error] in E;
      [| destruct i; discriminate E].
    assert (Q : q = Build (mkRangeProofWithSeed point_proof 0%N 0))
      by congruence.
    rewrite Q. reflexivity. }
  assert (False_ : verify_task 64 2 3
                     (Build (mkRangeProofWithSeed corrupted_proof 0%N 0)) =
                   Ok false) by reflexivity.
  assert (Fail : verify_task 64 2 3
                   (Build (mkRangeProofWithSeed corrupted_proof 0%N 0)) <>
                 Ok true) by (rewrite False_; discriminate).
  exact (proj1 (VerifyProofs_first_failure_decides (fun _ => (2, 3))
                  _ _ _ 64%nat Pass Fail)).
Defined.

(** A task that throws ends the call with its exception, also when a later
    proof would fail: here the transcript of the second proof has lost its
    challenges. *)
Example a_throwing_task_is_rethrown :
  let good := Build (mkRangeProofWithSeed point_proof 0%N 0) in
  let no_challenges :=
    mkRangeProofWithTranscript (p_proof good) (p_x good) (p_y good) (p_z good)
      (p_c_factor good) [] (p_num_input_values_power_2 good)
      (p_concat_input_values_in_bits good) in
  VerifyProofs (fun _ => (2, 3))
    [good; no_challenges;
     Build (mkRangeProofWithSeed corrupted_proof 0%N 0)] 64 =
    Throw index_error.
Proof. reflexivity. Qed.

(** [RecoverAmounts_in_request_order] at a batch of [two_commitments] and
    [point_request]. *)
Lemma RecoverAmounts_in_request_order_witness :
  (exists flags,
      List.length flags = 2%nat
      /\ map rd_id [mkRecoveredData 1 5 111 hello] =
           map req_id (kept flags [two_commitments; point_request]))
  /\ exists rf rb,
       RecoverAmounts [two_commitments] = Ok rf
       /\ RecoverAmounts [point_request] = Ok rb
       /\ [mkRecoveredData 1 5 111 hello] =
            successful_results rf ++ successful_results rb.
Proof.
  assert (R : RecoverAmounts [two_commitments; point_request] =
              Ok (mkAmountRecoveryResult true [mkRecoveredData 1 5 111 hello]))
    by reflexivity.
  destruct (RecoverAmounts_in_request_order _ _ R) as [Ids Split].
  split; [exact Ids|].
  exact (Split [two_commitments] [point_request] eq_refl).
Defined.

(** A request whose nonce is a vector seed without scalars. *)
Definition empty_seed_request : AmountRecoveryRequest :=
  mkAmountRecoveryRequest 3 0%N 4 4 [(5, 11)] [(1, 1)] [(1, 1)] 0 0
    (ScalarsSeed []) 0.

(** [RecoverAmounts_empty_vector_seed_throws] after [point_request]. *)
Lemma RecoverAmounts_empty_vector_seed_throws_witness :
  exists e,
    RecoverAmounts ([point_request] ++ empty_seed_request :: [two_commitments]) =
      Throw e.
Proof.
  assert (B : RecoverAmounts [point_request] =
              Ok (mkAmountRecoveryResult true [mkRecoveredData 1 5 111 hello]))
    by reflexivity.
  exact (RecoverAmounts_empty_vector_seed_throws [point_request]
           [two_commitments] empty_seed_request _ B eq_refl eq_refl
           (Nat.lt_0_succ 0) eq_refl).
Defined.

(** [Prove_commits_to_the_bits] at the values 5, 7 and 9: bits 0 to 3 of
    the second value, 7. *)
Lemma Prove_commits_to_the_bits_witness :
  c_vs three_committed = [5; 7; 9] ++ repeat 0 (4 - 3)
  /\ List.length (c_aL three_committed) = 256%nat
  /\ List.length (c_aR three_committed) = 256%nat
  /\ (nth_error (c_aL three_committed) 64 = Some 1
      /\ nth_error (c_aR three_committed) 64 = Some (1 - 1))
  /\ (nth_error (c_aL three_committed) 67 = Some 0
      /\ nth_error (c_aR three_committed) 67 = Some (0 - 1))
  /\ map2 Z.mul (c_aL three_committed) (c_aR three_committed) = repeat 0 256.
Proof.
  assert (C : Prove_commit [5; 7; 9] (PointSeed (3, 4)) hello 0%N 0 =
              Ok three_committed) by reflexivity.
  destruct (Prove_commits_to_the_bits _ _ _ _ _ _ C)
    as (Pad & LaL & LaR & Bits & Zero).
  split; [exact Pad|]. split; [exact LaL|]. split; [exact LaR|].
  split; [exact (Bits 1%nat 0%nat 7 eq_refl ltac:(cbv; lia))|].
  split; [exact (Bits 1%nat 3%nat 7 eq_refl ltac:(cbv; lia))|].
  exact Zero.
Defined.

(** The collaborators on the integers deliver the sizes asked for. *)
Lemma Z_delivers_sizes gens num : delivers_sizes gens num.
Proof.
  unfold delivers_sizes. cbv zeta.
  split; [cbn; rewrite length_map, length_seq; reflexivity|].
  split; [cbn; rewrite length_map, length_seq; reflexivity|].
  split; [intros rng; cbn; rewrite length_map, length_seq; reflexivity|].
  split; [intros k m from; cbn; rewrite length_map, length_seq; reflexivity|].
  reflexivity.
Defined.

(** [Prove_throws_only_for_its_arguments] at three values and a vector seed
    of three scalars. *)
Lemma Prove_throws_only_for_its_arguments_witness :
  ValidateParameters [5; 7; 9] hello = Throw index_error
  \/ exists vec,
       ScalarsSeed [1; 2; 3] = ScalarsSeed vec
       /\ ValidateParameters [5; 7; 9] hello = Ok tt
       /\ (List.length vec <> 3%nat /\ index_error = gammas_size_error
           \/ List.length vec = 3%nat /\ (3 < 4)%nat).
Proof.
  assert (R : Prove 3 0 [5; 7; 9] (ScalarsSeed [1; 2; 3]) hello 0%N 0 =
              Done (Throw index_error)) by reflexivity.
  exact (Prove_throws_only_for_its_arguments 3 0 _ _ _ _ _ _
           (Z_delivers_sizes _ _) R).
Defined.

(** With a point seed, or with a vector seed for a power of two of values,
    [Prove] ends in a proof. *)
Example Prove_four_values_vector_seed :
  match Prove 3 0 [5; 7; 9; 11] (ScalarsSeed [1; 2; 3; 4]) hello 0%N 0 with
  | Done (Ok (pr, _)) => Vs pr = [(5, 1); (7, 2); (9, 3); (11, 4)]
  | _ => False
  end.
Proof. vm_compute. reflexivity. Qed.

(** A proof that lost the first entry of its [Ls] and of its [Rs]. *)
Definition shortened_proof : RangeProof :=
  mkRangeProof (Vs point_proof) (A point_proof) (S_ point_proof)
    (T1 point_proof) (T2 point_proof) (tau_x point_proof) (mu point_proof)
    (t_hat point_proof) (tl (Ls point_proof)) (tl (Rs point_proof))
    (a point_proof) (b point_proof).

(** C4, as stated, fails.  The proof of the value 5 verifies, alone and in a
    batch.  With one entry taken from its [Ls] and from its [Rs] the proof
    is corrupted, but the batch that holds it does not verify [false]: the
    check of the corrupted proof asks for the sixth entry of [Ls], and the
    exception ends [VerifyProofs], and [Verify]. *)
Lemma shortened_proof_ends_the_batch_in_an_exception :
  Verify (fun _ => (2, 3)) [mkRangeProofWithSeed point_proof 0%N 0] = Ok true
  /\ List.length (Ls shortened_proof) = List.length (Rs shortened_proof)
  /\ VerifyProofs (fun _ => (2, 3))
       [Build (mkRangeProofWithSeed point_proof 0%N 0);
        Build (mkRangeProofWithSeed shortened_proof 0%N 0)] 64 =
     Throw index_error
  /\ Verify (fun _ => (2, 3))
       [mkRangeProofWithSeed point_proof 0%N 0;
        mkRangeProofWithSeed shortened_proof 0%N 0] =
     Throw index_error
  /\ Verify (fun _ => (2, 3))
       [mkRangeProofWithSeed point_proof 0%N 0;
        mkRangeProofWithSeed shortened_proof 0%N 0] <>
     Ok false.
Proof.
  assert (V : Verify (fun _ => (2, 3))
                [mkRangeProofWithSeed point_proof 0%N 0;
                 mkRangeProofWithSeed shortened_proof 0%N 0] =
              Throw index_error) by reflexivity.
  split; [reflexivity|]. split; [reflexivity|]. split; [reflexivity|].
  split; [exact V|]. rewrite V. discriminate.
Qed.

(** The weights of the examples. *)
Definition weights_2_3 : nat -> Scalar * Scalar := fun _ => (2, 3).

(** [VerifyProofs_true_iff_every_proof_passes] at a batch of the proof of
    the value 5 and the proof with unequal [Ls] and [Rs]: the batch returns
    [false]; the sound proof alone passes [Verify]. *)
Lemma VerifyProofs_true_iff_every_proof_passes_witness :
  VerifyProofs (fun _ => (2, 3))
    [Build (mkRangeProofWithSeed point_proof 0%N 0);
     Build (mkRangeProofWithSeed corrupted_proof 0%N 0)] 64 = Ok false
  /\ Verify (fun _ => (2, 3)) [mkRangeProofWithSeed point_proof 0%N 0] =
       Ok true.
Proof.
  destruct (VerifyProofs_true_iff_every_proof_passes weights_2_3
              [Build (mkRangeProofWithSeed point_proof 0%N 0);
               Build (mkRangeProofWithSeed corrupted_proof 0%N 0)] 64%nat)
    as (_ & _ & Unequal & Whole).
  split.
  - refine (proj2 (proj2 (Unequal 1%nat _ eq_refl _)) _).
    + change (6%nat <> 5%nat). lia.
    + intros j q Lt E. destruct j as [| j]; [| lia].
      cbn [nth_error] in E.
      assert (Q : q = Build (mkRangeProofWithSeed point_proof 0%N 0))
        by congruence.
      rewrite Q. reflexivity.
  - apply (proj2 (Whole [mkRangeProofWithSeed point_proof 0%N 0])).
    split; [reflexivity|].
    intros i p E. destruct i as [| i]; cbn [nth_error] in E;
      [| destruct i; discriminate E].
    assert (Q : p = mkRangeProofWithSeed point_proof 0%N 0) by congruence.
    rewrite Q. reflexivity.
Defined.

End RangeProofExamples.

(* ===================================================================== *)
(** * Records of the wallet database                                      *)
(* ===================================================================== *)

(** [CHDChain] and [CKeyMetadata] of [wallet/walletdb.h] with their
    [SERIALIZE_METHODS].  A stream is the list of the bytes still to be
    read; writing appends at its end. *)

Module WalletDb.

(** How [READWRITE] treats a field of one type: the values of the type, the
    bytes written for a value, and the value read from the front of a
    stream with the rest of the stream.  A read that fails is the exception
    of the stream. *)
Record Format (T : Type) : Type := mkFormat
  { fits : T -> Prop;
    put : T -> list Byte.byte;
    get : list Byte.byte -> option (T * list Byte.byte) }.
Arguments fits {T}.
Arguments put {T}.
Arguments get {T}.

(** A value that has been written is read back, and the read stops where
    the write stopped. *)
Definition reads_back {T : Type} (F : Format T) : Prop :=
  forall (x : T) (rest : list Byte.byte),
    fits F x -> get F (put F x ++ rest) = Some (x, rest).

(** The types of the fields and their formats. *)
Class Serialization : Type :=
  { CKeyID : Type;
    CKeyID_null : CKeyID;
    KeyOriginInfo : Type;
    KeyOriginInfo_clear : KeyOriginInfo;
    fmt_int : Format Z;
    fmt_uint32_t : Format Z;
    fmt_int64_t : Format Z;
    fmt_bool : Format bool;
    fmt_string : Format string;
    fmt_CKeyID : Format CKeyID;
    fmt_KeyOriginInfo : Format KeyOriginInfo }.

Class SerializationLaws {ser : Serialization} : Prop :=
  { int_reads_back : reads_back fmt_int;
    uint32_t_reads_back : reads_back fmt_uint32_t;
    int64_t_reads_back : reads_back fmt_int64_t;
    bool_reads_back : reads_back fmt_bool;
    string_reads_back : reads_back fmt_string;
    CKeyID_reads_back : reads_back fmt_CKeyID;
    KeyOriginInfo_reads_back : reads_back fmt_KeyOriginInfo }.

(** Reading one field and going on with the rest of the stream. *)
Definition reading {T R : Type} (F : Format T) (s : list Byte.byte)
    (k : T -> list Byte.byte -> option R) : option R :=
  match get F s with
  | Some (x, s') => k x s'
  | None => None
  end.

Lemma reading_put {T R : Type} (F : Format T) (x : T) (rest : list Byte.byte)
    (k : T -> list Byte.byte -> option R) :
  reads_back F -> fits F x -> reading F (put F x ++ rest) k = k x rest.
Proof. intros L H. unfold reading. rewrite (L x rest H). reflexivity. Qed.

(** ** [CHDChain] *)

Module CHDChain.
Section WithSerialization.

#[local] Set Default Proof Using "Type".

Context {ser : Serialization}.

Record t : Type := mk
  { nExternalChainCounter : Z;
    nInternalChainCounter : Z;
    seed_id : CKeyID;
    m_next_external_index : Z;
    m_next_internal_index : Z;
    nVersion : Z }.

Definition VERSION_HD_BASE : Z := 1.
Definition VERSION_HD_CHAIN_SPLIT : Z := 2.
Definition CURRENT_VERSION : Z := VERSION_HD_CHAIN_SPLIT.

(** [SetNull]: the two indexes kept in memory only are not touched. *)
Definition SetNull (chain : t) : t :=
  mk 0 0 CKeyID_null (m_next_external_index chain)
    (m_next_internal_index chain) CURRENT_VERSION.

(** [CHDChain()]: the member initialisers, then [SetNull]. *)
Definition new : t := mk 0 0 CKeyID_null 0 0 CURRENT_VERSION.

(** The fields are values of their types. *)
Definition well_typed (obj : t) : Prop :=
  fits fmt_int (nVersion obj)
  /\ fits fmt_uint32_t (nExternalChainCounter obj)
  /\ fits fmt_uint32_t (nInternalChainCounter obj)
  /\ fits fmt_CKeyID (seed_id obj).

(** [SERIALIZE_METHODS], writing. *)
Definition Serialize (obj : t) : list Byte.byte :=
  put fmt_int (nVersion obj)
  ++ put fmt_uint32_t (nExternalChainCounter obj)
  ++ put fmt_CKeyID (seed_id obj)
  ++ (if VERSION_HD_CHAIN_SPLIT <=? nVersion obj
      then put fmt_uint32_t (nInternalChainCounter obj)
      else []).

(** [SERIALIZE_METHODS], reading into [obj]: the fields that are not read
    keep the values they have in [obj]. *)
Definition Unserialize (obj : t) (s : list Byte.byte)
    : option (t * list Byte.byte) :=
  reading fmt_int s (fun version s =>
  reading fmt_uint32_t s (fun external s =>
  reading fmt_CKeyID s (fun seed s =>
  let obj :=
    mk external (nInternalChainCounter obj) seed (m_next_external_index obj)
      (m_next_internal_index obj) version in
  if VERSION_HD_CHAIN_SPLIT <=? nVersion obj then
    reading fmt_uint32_t s (fun internal s =>
    Some
      (mk (nExternalChainCounter obj) internal (seed_id obj)
         (m_next_external_index obj) (m_next_internal_index obj)
         (nVersion obj),
       s))
  else Some (obj, s)))).

End WithSerialization.
End CHDChain.

(** ** [CKeyMetadata] *)

Module CKeyMetadata.
Section WithSerialization.

#[local] Set Default Proof Using "Type".

Context {ser : Serialization}.

Record t : Type := mk
  { nVersion : Z;
    nCreateTime : Z;
    hdKeypath : string;
    hd_seed_id : CKeyID;
    key_origin : KeyOriginInfo;
    has_key_origin : bool }.

Definition VERSION_BASIC : Z := 1.
Definition VERSION_WITH_HDDATA : Z := 10.
Definition VERSION_WITH_KEY_ORIGIN : Z := 12.
Definition CURRENT_VERSION : Z := VERSION_WITH_KEY_ORIGIN.

Definition SetNull (meta : t) : t :=
  mk CURRENT_VERSION 0 EmptyString CKeyID_null KeyOriginInfo_clear false.

(** [CKeyMetadata()] and [CKeyMetadata(nCreateTime_)]. *)
Definition new : t :=
  mk CURRENT_VERSION 0 EmptyString CKeyID_null KeyOriginInfo_clear false.

Definition new_at (nCreateTime_ : Z) : t :=
  mk CURRENT_VERSION nCreateTime_ EmptyString CKeyID_null KeyOriginInfo_clear
    false.

Definition well_typed (obj : t) : Prop :=
  fits fmt_int (nVersion obj)
  /\ fits fmt_int64_t (nCreateTime obj)
  /\ fits fmt_string (hdKeypath obj)
  /\ fits fmt_CKeyID (hd_seed_id obj)
  /\ fits fmt_KeyOriginInfo (key_origin obj)
  /\ fits fmt_bool (has_key_origin obj).

(** [SERIALIZE_METHODS], writing. *)
Definition Serialize (obj : t) : list Byte.byte :=
  put fmt_int (nVersion obj)
  ++ put fmt_int64_t (nCreateTime obj)
  ++ (if VERSION_WITH_HDDATA <=? nVersion obj
      then put fmt_string (hdKeypath obj) ++ put fmt_CKeyID (hd_seed_id obj)
      else [])
  ++ (if VERSION_WITH_KEY_ORIGIN <=? nVersion obj
      then
        put fmt_KeyOriginInfo (key_origin obj)
        ++ put fmt_bool (has_key_origin obj)
      else []).

(** The second and the third group of fields, read when the version that
    has just been read says they are there. *)
Definition read_hddata (obj : t) (s : list Byte.byte)
    : option (t * list Byte.byte) :=
  if VERSION_WITH_HDDATA <=? nVersion obj then
    reading fmt_string s (fun keypath s =>
    reading fmt_CKeyID s (fun seed s =>
    Some
      (mk (nVersion obj) (nCreateTime obj) keypath seed (key_origin obj)
         (has_key_origin obj),
       s)))
  else Some (obj, s).

Definition read_key_origin (obj : t) (s : list Byte.byte)
    : option (t * list Byte.byte) :=
  if VERSION_WITH_KEY_ORIGIN <=? nVersion obj then
    reading fmt_KeyOriginInfo s (fun origin s =>
    reading fmt_bool s (fun has_origin s =>
    Some
      (mk (nVersion obj) (nCreateTime obj) (hdKeypath obj) (hd_seed_id obj)
         origin has_origin,
       s)))
  else Some (obj, s).

(** [SERIALIZE_METHODS], reading into [obj]. *)
Definition Unserialize (obj : t) (s : list Byte.byte)
    : option (t * list Byte.byte) :=
  reading fmt_int s (fun version s =>
  reading fmt_int64_t s (fun time s =>
  let obj :=
    mk version time (hdKeypath obj) (hd_seed_id obj) (key_origin obj)
      (has_key_origin obj) in
  match read_hddata obj s with
  | Some (obj, s) => read_key_origin obj s
  | None => None
  end)).

End WithSerialization.
End CKeyMetadata.

Section WithLaws.

#[local] Set Default Proof Using "Type".

Context {ser : Serialization} {laws : SerializationLaws}.

(** A chain written to the database and read back.  The version, the
    external counter and the seed id are the ones written; the internal
    counter is the one written when the version is at least
    [VERSION_HD_CHAIN_SPLIT], and otherwise the one the object read into
    already had; the two indexes kept in memory are never stored.  So a
    chain of the current version with fresh indexes is read back as it was
    from a new object, and a chain of [VERSION_HD_BASE] comes back with the
    internal counter zero. *)
Theorem CHDChain_read_back :
  forall (obj target : CHDChain.t) (rest : list Byte.byte),
    CHDChain.well_typed obj ->
    CHDChain.Unserialize target (CHDChain.Serialize obj ++ rest) =
      Some
        (CHDChain.mk (CHDChain.nExternalChainCounter obj)
           (if CHDChain.VERSION_HD_CHAIN_SPLIT <=? CHDChain.nVersion obj
            then CHDChain.nInternalChainCounter obj
            else CHDChain.nInternalChainCounter target)
           (CHDChain.seed_id obj)
           (CHDChain.m_next_external_index target)
           (CHDChain.m_next_internal_index target)
           (CHDChain.nVersion obj),
         rest)
    /\ (CHDChain.VERSION_HD_CHAIN_SPLIT <= CHDChain.nVersion obj ->
        CHDChain.m_next_external_index obj = 0 ->
        CHDChain.m_next_internal_index obj = 0 ->
        CHDChain.Unserialize CHDChain.new (CHDChain.Serialize obj ++ rest) =
          Some (obj, rest))
    /\ (CHDChain.nVersion obj < CHDChain.VERSION_HD_CHAIN_SPLIT ->
        exists read,
          CHDChain.Unserialize CHDChain.new (CHDChain.Serialize obj ++ rest) =
            Some (read, rest)
          /\ CHDChain.nInternalChainCounter read = 0).
Proof using laws.
  intros obj target rest (Fv & Fe & Fi & Fs).
  assert (G : forall target,
             CHDChain.Unserialize target (CHDChain.Serialize obj ++ rest) =
               Some
                 (CHDChain.mk (CHDChain.nExternalChainCounter obj)
                    (if CHDChain.VERSION_HD_CHAIN_SPLIT <=? CHDChain.nVersion obj
                     then CHDChain.nInternalChainCounter obj
                     else CHDChain.nInternalChainCounter target)
                    (CHDChain.seed_id obj)
                    (CHDChain.m_next_external_index target)
                    (CHDChain.m_next_internal_index target)
                    (CHDChain.nVersion obj),
                  rest)).
  { intros tg. unfold CHDChain.Unserialize, CHDChain.Serialize.
    rewrite <- !app_assoc.
    rewrite (reading_put fmt_int) by (apply int_reads_back || exact Fv).
    rewrite (reading_put fmt_uint32_t)
      by (apply uint32_t_reads_back || exact Fe).
    rewrite (reading_put fmt_CKeyID) by (apply CKeyID_reads_back || exact Fs).
    cbn [CHDChain.nVersion CHDChain.nExternalChainCounter CHDChain.seed_id
         CHDChain.m_next_external_index CHDChain.m_next_internal_index
         CHDChain.nInternalChainCounter].
    destruct (CHDChain.VERSION_HD_CHAIN_SPLIT <=? CHDChain.nVersion obj).
    - rewrite (reading_put fmt_uint32_t)
        by (apply uint32_t_reads_back || exact Fi).
      reflexivity.
    - reflexivity. }
  split; [apply G|]. split.
  - intros V Ne Ni. rewrite G. apply Z.leb_le in V. rewrite V.
    destruct obj as [e i s ne ni v]. cbn in *. subst ne ni. reflexivity.
  - intros V. rewrite G. eexists. split; [reflexivity|].
    apply Z.leb_gt in V. rewrite V. reflexivity.
Qed.

(** Key metadata written to the database and read back.  The version and
    the creation time are the ones written.  The key path and the seed id
    are stored from [VERSION_WITH_HDDATA] on, the key origin and its flag
    from [VERSION_WITH_KEY_ORIGIN] on; the fields that are not stored come
    back as they were in the object read into.  So metadata of the current
    version is read back as it was, whatever it is read into. *)
Theorem CKeyMetadata_read_back :
  forall (obj target : CKeyMetadata.t) (rest : list Byte.byte),
    CKeyMetadata.well_typed obj ->
    let hddata :=
      CKeyMetadata.VERSION_WITH_HDDATA <=? CKeyMetadata.nVersion obj in
    let origin :=
      CKeyMetadata.VERSION_WITH_KEY_ORIGIN <=? CKeyMetadata.nVersion obj in
    CKeyMetadata.Unserialize target (CKeyMetadata.Serialize obj ++ rest) =
      Some
        (CKeyMetadata.mk (CKeyMetadata.nVersion obj)
           (CKeyMetadata.nCreateTime obj)
           (CKeyMetadata.hdKeypath (if hddata then obj else target))
           (CKeyMetadata.hd_seed_id (if hddata then obj else target))
           (CKeyMetadata.key_origin (if origin then obj else target))
           (CKeyMetadata.has_key_origin (if origin then obj else target)),
         rest)
    /\ (CKeyMetadata.VERSION_WITH_KEY_ORIGIN <= CKeyMetadata.nVersion obj ->
        CKeyMetadata.Unserialize target (CKeyMetadata.Serialize obj ++ rest) =
          Some (obj, rest)).
Proof using laws.
  intros obj target rest (Fv & Ft & Fp & Fs & Fo & Fh) hddata origin.
  assert (G : CKeyMetadata.Unserialize target
                (CKeyMetadata.Serialize obj ++ rest) =
              Some
                (CKeyMetadata.mk (CKeyMetadata.nVersion obj)
                   (CKeyMetadata.nCreateTime obj)
                   (CKeyMetadata.hdKeypath (if hddata then obj else target))
                   (CKeyMetadata.hd_seed_id (if hddata then obj else target))
                   (CKeyMetadata.key_origin (if origin then obj else target))
                   (CKeyMetadata.has_key_origin
                      (if origin then obj else target)),
                 rest)).
  { subst hddata origin.
    unfold CKeyMetadata.Unserialize, CKeyMetadata.Serialize,
      CKeyMetadata.read_hddata, CKeyMetadata.read_key_origin.
    rewrite <- !app_assoc.
    rewrite (reading_put fmt_int) by (apply int_reads_back || exact Fv).
    rewrite (reading_put fmt_int64_t)
      by (apply int64_t_reads_back || exact Ft).
    cbn [CKeyMetadata.nVersion CKeyMetadata.nCreateTime CKeyMetadata.hdKeypath
         CKeyMetadata.hd_seed_id CKeyMetadata.key_origin
         CKeyMetadata.has_key_origin].
    destruct (CKeyMetadata.VERSION_WITH_HDDATA <=? CKeyMetadata.nVersion obj).
    - rewrite <- !app_assoc.
      rewrite (reading_put fmt_string)
        by (apply string_reads_back || exact Fp).
      rewrite (reading_put fmt_CKeyID)
        by (apply CKeyID_reads_back || exact Fs).
      cbn [CKeyMetadata.nVersion CKeyMetadata.nCreateTime
           CKeyMetadata.hdKeypath CKeyMetadata.hd_seed_id
           CKeyMetadata.key_origin CKeyMetadata.has_key_origin].
      destruct (CKeyMetadata.VERSION_WITH_KEY_ORIGIN <=?
                CKeyMetadata.nVersion obj).
      + rewrite <- !app_assoc.
        rewrite (reading_put fmt_KeyOriginInfo)
          by (apply KeyOriginInfo_reads_back || exact Fo).
        rewrite (reading_put fmt_bool)
          by (apply bool_reads_back || exact Fh).
        reflexivity.
      + reflexivity.
    - cbn [app CKeyMetadata.nVersion].
      destruct (CKeyMetadata.VERSION_WITH_KEY_ORIGIN <=?
                CKeyMetadata.nVersion obj).
      + rewrite <- !app_assoc.
        rewrite (reading_put fmt_KeyOriginInfo)
          by (apply KeyOriginInfo_reads_back || exact Fo).
        rewrite (reading_put fmt_bool)
          by (apply bool_reads_back || exact Fh).
        reflexivity.
      + reflexivity. }
  split; [exact G|].
  intros V. rewrite G. subst hddata origin.
  assert (V10 : CKeyMetadata.VERSION_WITH_HDDATA <= CKeyMetadata.nVersion obj)
    by (unfold CKeyMetadata.VERSION_WITH_HDDATA,
          CKeyMetadata.VERSION_WITH_KEY_ORIGIN in *; lia).
  apply Z.leb_le in V, V10. rewrite V, V10.
  destruct obj. reflexivity.
Qed.

End WithLaws.

End WalletDb.

(* ===================================================================== *)
(** * The wallet records on bytes                                         *)
(* ===================================================================== *)

Module WalletDbExamples.
Import WalletDb.

Definition byte_of_Z (z : Z) : Byte.byte :=
  match Byte.of_N (Z.to_N z) with
  | Some b => b
  | None => Byte.x00
  end.

Definition Z_of_byte (b : Byte.byte) : Z := Z.of_N (Byte.to_N b).

Lemma Z_of_byte_of_Z z : 0 <= z < 256 -> Z_of_byte (byte_of_Z z) = z.
Proof.
  intros H. unfold Z_of_byte, byte_of_Z.
  destruct (Byte.of_N (Z.to_N z)) as [b |] eqn:E.
  - apply Byte.to_of_N in E. rewrite E. lia.
  - apply Byte.of_N_None_iff in E. lia.
Qed.

(** Integers of [n] bytes, least significant byte first. *)
Fixpoint le_bytes (n : nat) (z : Z) : list Byte.byte :=
  match n with
  | O => []
  | S n' => byte_of_Z (z mod 256) :: le_bytes n' (z / 256)
  end.

Fixpoint read_le (n : nat) (s : list Byte.byte)
    : option (Z * list Byte.byte) :=
  match n with
  | O => Some (0, s)
  | S n' =>
      match s with
      | [] => None
      | b :: s' =>
          match read_le n' s' with
          | Some (v, rest) => Some (Z_of_byte b + 256 * v, rest)
          | None => None
          end
      end
  end.

Lemma read_le_bytes n :
  forall z rest,
    0 <= z < 256 ^ Z.of_nat n ->
    read_le n (le_bytes n z ++ rest) = Some (z, rest).
Proof.
  induction n as [| n IH]; intros z rest H.
  - cbn in *. f_equal. f_equal. lia.
  - cbn [le_bytes read_le app].
    rewrite Nat2Z.inj_succ, Z.pow_succ_r in H by lia.
    rewrite IH by (split; [apply Z.div_pos; lia
                          | apply Z.div_lt_upper_bound; lia]).
    rewrite Z_of_byte_of_Z by (apply Z.mod_pos_bound; lia).
    f_equal. f_equal. pose proof (Z.div_mod z 256). lia.
Qed.

(** Unsigned and two's-complement integers of [n] bytes. *)
Definition unsigned_format (n : nat) : Format Z :=
  mkFormat Z (fun z => 0 <= z < 256 ^ Z.of_nat n) (le_bytes n) (read_le n).

Definition signed_format (n : nat) : Format Z :=
  mkFormat Z
    (fun z => - (256 ^ Z.of_nat n / 2) <= z < 256 ^ Z.of_nat n / 2)
    (fun z => le_bytes n (z mod 256 ^ Z.of_nat n))
    (fun s =>
       match read_le n s with
       | Some (v, rest) =>
           Some (if v <? 256 ^ Z.of_nat n / 2 then v
                 else v - 256 ^ Z.of_nat n, rest)
       | None => None
       end).

Lemma unsigned_reads_back n : reads_back (unsigned_format n).
Proof. intros z rest H. apply read_le_bytes. exact H. Qed.

Lemma signed_reads_back n : (0 < n)%nat -> reads_back (signed_format n).
Proof.
  intros Pos z rest H. cbn [signed_format fits put get] in *.
  set (M := 256 ^ Z.of_nat n) in *.
  assert (Even : M = 2 * (M / 2)).
  { subst M. destruct n as [| n]; [lia|].
    rewrite Nat2Z.inj_succ, Z.pow_succ_r by lia.
    replace (256 * 256 ^ Z.of_nat n) with ((128 * 256 ^ Z.of_nat n) * 2) by lia.
    rewrite Z.div_mul by lia. lia. }
  assert (MP : 0 < M) by (subst M; apply Z.pow_pos_nonneg; lia).
  rewrite read_le_bytes by (apply Z.mod_pos_bound; exact MP).
  f_equal. f_equal.
  destruct (Z.ltb_spec z 0) as [Neg | NonNeg].
  - rewrite <- (Z.mod_add z 1 M) by lia.
    rewrite Z.mod_small by lia.
    destruct (Z.ltb_spec (z + 1 * M) (M / 2)); lia.
  - rewrite Z.mod_small by lia.
    destruct (Z.ltb_spec z (M / 2)); lia.
Qed.

(** [bool] is one byte. *)
Definition bool_format : Format bool :=
  mkFormat bool (fun _ => True)
    (fun b => [if b then Byte.x01 else Byte.x00])
    (fun s =>
       match s with
       | [] => None
       | b :: rest => Some (negb (Byte.eqb b Byte.x00), rest)
       end).

(** A vector of at most 252 items: its size in one byte, then the items. *)
Fixpoint read_items {T : Type} (F : Format T) (n : nat) (s : list Byte.byte)
    : option (list T * list Byte.byte) :=
  match n with
  | O => Some ([], s)
  | S n' =>
      match get F s with
      | Some (x, s') =>
          match read_items F n' s' with
          | Some (l, rest) => Some (x :: l, rest)
          | None => None
          end
      | None => None
      end
  end.

Definition vector_format {T : Type} (F : Format T) : Format (list T) :=
  mkFormat (list T)
    (fun l => (List.length l < 253)%nat /\ Forall (fits F) l)
    (fun l => byte_of_Z (Z.of_nat (List.length l)) :: flat_map (put F) l)
    (fun s =>
       match s with
       | [] => None
       | b :: s' => read_items F (Z.to_nat (Z_of_byte b)) s'
       end).

Lemma read_items_put {T : Type} (F : Format T) :
  reads_back F ->
  forall l rest,
    Forall (fits F) l ->
    read_items F (List.length l) (flat_map (put F) l ++ rest) = Some (l, rest).
Proof.
  intros L. induction l as [| x l IH]; intros rest H; [reflexivity|].
  inversion H as [| ? ? Hx Hl]. subst.
  cbn [List.length read_items flat_map]. rewrite <- app_assoc.
  rewrite (L x _ Hx), (IH rest Hl). reflexivity.
Qed.

Lemma vector_reads_back {T : Type} (F : Format T) :
  reads_back F -> reads_back (vector_format F).
Proof.
  intros L l rest [Len All]. cbn [vector_format put get app].
  rewrite Z_of_byte_of_Z by lia. rewrite Nat2Z.id.
  apply read_items_put; assumption.
Qed.

(** A string is the vector of its bytes. *)
Definition string_format : Format string :=
  mkFormat string
    (fun s => fits (vector_format (unsigned_format 1))
                (map Z_of_byte (list_byte_of_string s)))
    (fun s => put (vector_format (unsigned_format 1))
                (map Z_of_byte (list_byte_of_string s)))
    (fun s =>
       match get (vector_format (unsigned_format 1)) s with
       | Some (l, rest) => Some (string_of_list_byte (map byte_of_Z l), rest)
       | None => None
       end).

Lemma byte_of_Z_of_byte b : byte_of_Z (Z_of_byte b) = b.
Proof.
  unfold byte_of_Z, Z_of_byte. rewrite N2Z.id, Byte.of_to_N. reflexivity.
Qed.

Lemma string_reads_back_bytes : reads_back string_format.
Proof.
  intros s rest H. cbn [string_format fits put get] in *.
  rewrite (vector_reads_back _ (unsigned_reads_back 1) _ rest H).
  rewrite map_map.
  rewrite (map_ext _ (fun b => b) byte_of_Z_of_byte), map_id.
  rewrite string_of_list_byte_of_string. reflexivity.
Qed.

(** A pair is its components one after the other. *)
Definition pair_format {T U : Type} (F : Format T) (G : Format U)
    : Format (T * U) :=
  mkFormat (T * U)
    (fun p => fits F (fst p) /\ fits G (snd p))
    (fun p => put F (fst p) ++ put G (snd p))
    (fun s =>
       match get F s with
       | Some (x, s') =>
           match get G s' with
           | Some (y, rest) => Some ((x, y), rest)
           | None => None
           end
       | None => None
       end).

Lemma pair_reads_back {T U : Type} (F : Format T) (G : Format U) :
  reads_back F -> reads_back G -> reads_back (pair_format F G).
Proof.
  intros LF LG [x y] rest [Hx Hy]. cbn [pair_format put get fst snd] in *.
  rewrite <- app_assoc, (LF x _ Hx), (LG y _ Hy). reflexivity.
Qed.

(** A key id is a number of 20 bytes; a key origin is a fingerprint of four
    bytes and a path of 32-bit numbers. *)
#[local] Instance byte_serialization : Serialization :=
  {| CKeyID := Z;
     CKeyID_null := 0;
     KeyOriginInfo := (Z * list Z)%type;
     KeyOriginInfo_clear := (0, []);
     fmt_int := signed_format 4;
     fmt_uint32_t := unsigned_format 4;
     fmt_int64_t := signed_format 8;
     fmt_bool := bool_format;
     fmt_string := string_format;
     fmt_CKeyID := unsigned_format 20;
     fmt_KeyOriginInfo :=
       pair_format (unsigned_format 4) (vector_format (unsigned_format 4)) |}.

#[local] Instance byte_serialization_laws : SerializationLaws.
Proof.
  constructor; cbn [fmt_int fmt_uint32_t fmt_int64_t fmt_bool fmt_string
                    fmt_CKeyID fmt_KeyOriginInfo byte_serialization].
  - apply signed_reads_back. lia.
  - apply unsigned_reads_back.
  - apply signed_reads_back. lia.
  - intros [|] rest _; reflexivity.
  - apply string_reads_back_bytes.
  - apply unsigned_reads_back.
  - apply pair_reads_back; [| apply vector_reads_back];
      apply unsigned_reads_back.
Defined.

(** A chain of the first version with seven external and three internal
    keys handed out. *)
Definition old_chain : CHDChain.t := CHDChain.mk 7 3 1000 0 0 1.

Example old_chain_bytes :
  CHDChain.Serialize old_chain =
    le_bytes 4 1 ++ le_bytes 4 7 ++ le_bytes 20 1000
  /\ List.length (CHDChain.Serialize old_chain) = 28%nat
  /\ List.length (CHDChain.Serialize (CHDChain.mk 7 3 1000 0 0 2)) = 32%nat.
Proof. repeat split; reflexivity. Qed.

(** [CHDChain_read_back] at that chain: the internal counter is lost. *)
Lemma CHDChain_read_back_witness :
  CHDChain.Unserialize CHDChain.new (CHDChain.Serialize old_chain ++ []) =
    Some (CHDChain.mk 7 0 1000 0 0 1, []).
Proof.
  assert (W : CHDChain.well_typed old_chain) by (cbv; intuition congruence).
  exact (proj1 (CHDChain_read_back old_chain CHDChain.new [] W)).
Defined.

(** Metadata of version 10 with a key path, and with a key origin that is
    not stored. *)
Definition hd_meta : CKeyMetadata.t :=
  CKeyMetadata.mk 10 1700000000 "m/0'/1'" 1000 (5, [1; 2]) true.

(** [CKeyMetadata_read_back] at that metadata. *)
Lemma CKeyMetadata_read_back_witness :
  CKeyMetadata.Unserialize CKeyMetadata.new
    (CKeyMetadata.Serialize hd_meta ++ []) =
    Some (CKeyMetadata.mk 10 1700000000 "m/0'/1'" 1000 (0, []) false, []).
Proof.
  assert (W : CKeyMetadata.well_typed hd_meta).
  { unfold CKeyMetadata.well_typed. cbn.
    repeat split; try lia; repeat constructor; try lia. }
  exact (proj1 (CKeyMetadata_read_back hd_meta CKeyMetadata.new [] W)).
Defined.

(** Metadata of the current version comes back whole. *)
Example current_meta_read_back :
  let meta := CKeyMetadata.mk 12 1700000000 "m/0'/1'" 1000 (5, [1; 2]) true in
  CKeyMetadata.Unserialize CKeyMetadata.new (CKeyMetadata.Serialize meta) =
    Some (meta, []).
Proof. reflexivity. Qed.

End WalletDbExamples.
